(** * calcast: a recursive-descent calculator (parse.go, evalparse.go, expr.go)

    The development follows the three source files.  Floating-point numbers
    are IEEE 754 binary64 values ([spec_float] with [prec = 53] and
    [emax = 1024]); runes are integers; the lexer is a record holding the
    look-ahead token and what the scanner has still to read. *)

From Stdlib Require Import ZArith List String Ascii Bool Lia.
From Stdlib Require Import Floats.SpecFloat DecimalString DecimalN.
Import ListNotations.

Local Open Scope string_scope.
Local Open Scope Z_scope.

(* ================================================================== *)
(** ** float64 *)

Definition float64 := spec_float.

Module F64.
Definition prec : Z := 53.
Definition emax : Z := 1024.

Definition zero : float64 := S754_zero false.
Definition add : float64 -> float64 -> float64 := SFadd prec emax.
Definition sub : float64 -> float64 -> float64 := SFsub prec emax.
Definition mul : float64 -> float64 -> float64 := SFmul prec emax.
Definition div : float64 -> float64 -> float64 := SFdiv prec emax.
Definition neg : float64 -> float64 := SFopp.
(** Go's [==] on float64: [+0 == -0] holds, NaN equals nothing. *)
Definition eqb : float64 -> float64 -> bool := SFeqb.
(** The float64 nearest to an integer. *)
Definition of_Z (z : Z) : float64 := binary_normalize prec emax z 0 false.
End F64.

(* ================================================================== *)
(** ** Runes *)

Definition rune := Z.

Definition rune_of (c : ascii) : rune := Z.of_N (N_of_ascii c).

(** Token kinds of text/scanner: negative runes. *)
Module scanner.
Definition EOF : rune := -1.
Definition Ident : rune := -2.
Definition Int : rune := -3.
Definition Float : rune := -4.
End scanner.

(* ================================================================== *)
(** ** expr.go *)

(** Go's [int] on the 64-bit platforms the benchmarks ran on. *)
Definition wrap_int (z : Z) : Z := (z + 2 ^ 63) mod 2 ^ 64 - 2 ^ 63.

(** The three implementations of the interface [Expr]. *)
Inductive Expr : Type :=
| num (f : float64)
| unary (op : rune) (x : Expr)
| binary (op : rune) (x y : Expr).

(** The errors [Eval] builds with [fmt.Errorf]; an operand is recorded by
    the text [%v] prints for it. *)
Inductive EvalError : Type :=
| DivisionByZero
| UnsupportedUnary (op : rune)
| UnsupportedBinary (op : rune)
| UnaryOperandFailed (x : string) (cause : EvalError)
| BinaryXFailed (x : string) (cause : EvalError)
| BinaryYFailed (y : string) (cause : EvalError).

Fixpoint Len (e : Expr) : Z :=
  match e with
  | num _ => 1
  | unary _ x => wrap_int (Len x + 1)
  | binary _ x y => wrap_int (wrap_int (Len x + Len y) + 1)
  end.

(* ------------------------------------------------------------------ *)
(** *** What [fmt] and the conversion [string(rune)] print *)

Module fmt.
Definition byte (z : Z) : ascii := ascii_of_N (Z.to_N z).

(** [string(r)]: the UTF-8 encoding of the rune, U+FFFD for a value that
    is not a code point. *)
Definition string_of_rune (r : rune) : string :=
  if (r <? 0) || (1114111 <? r) || ((55296 <=? r) && (r <=? 57343)) then
    String (byte 239) (String (byte 191) (String (byte 189) EmptyString))
  else if r <? 128 then
    String (byte r) EmptyString
  else if r <? 2048 then
    String (byte (Z.lor 192 (Z.shiftr r 6)))
      (String (byte (Z.lor 128 (Z.land r 63))) EmptyString)
  else if r <? 65536 then
    String (byte (Z.lor 224 (Z.shiftr r 12)))
      (String (byte (Z.lor 128 (Z.land (Z.shiftr r 6) 63)))
        (String (byte (Z.lor 128 (Z.land r 63))) EmptyString))
  else
    String (byte (Z.lor 240 (Z.shiftr r 18)))
      (String (byte (Z.lor 128 (Z.land (Z.shiftr r 12) 63)))
        (String (byte (Z.lor 128 (Z.land (Z.shiftr r 6) 63)))
          (String (byte (Z.lor 128 (Z.land r 63))) EmptyString))).

Definition digit (z : Z) : ascii := byte (48 + z).

(** Decimal digits of a natural number, most significant first. *)
Definition decimal (n : N) : string :=
  DecimalString.NilZero.string_of_uint (N.to_uint n).

(** [m * 2^e * 100] rounded to the nearest integer, ties to even. *)
Definition hundredths (m : positive) (e : Z) : Z :=
  match e with
  | Zneg p =>
      let d := 2 ^ Zpos p in
      let n := Zpos m * 100 in
      let q := n / d in
      match (2 * (n mod d)) ?= d with
      | Lt => q
      | Gt => q + 1
      | Eq => if Z.even q then q else q + 1
      end
  | _ => Zpos m * 2 ^ e * 100
  end.

Definition fixed2 (q : Z) : string :=
  decimal (Z.to_N (q / 100)) ++
  String "." (String (digit (q mod 100 / 10)) (String (digit (q mod 10)) EmptyString)).

Definition sign (s : bool) : string := if s then "-" else EmptyString.

(** [fmt.Sprintf("%.2f", f)]. *)
Definition Sprintf_2f (f : float64) : string :=
  match f with
  | S754_nan => "NaN"
  | S754_infinity s => if s then "-Inf" else "+Inf"
  | S754_zero s => sign s ++ "0.00"
  | S754_finite s m e => sign s ++ fixed2 (hundredths m e)
  end.
End fmt.

(* ------------------------------------------------------------------ *)
(** *** The methods of [num], [unary] and [binary] *)

Fixpoint Expr_String (e : Expr) : string :=
  match e with
  | num f => fmt.Sprintf_2f f
  | unary op x => fmt.string_of_rune op ++ Expr_String x
  | binary op x y =>
      Expr_String x ++ " " ++ fmt.string_of_rune op ++ " " ++ Expr_String y
  end.

(** [Eval] returns a value and an error, as in Go: the value is 0 whenever
    the error is set. *)
Fixpoint Eval (e : Expr) : float64 * option EvalError :=
  match e with
  | num f => (f, None)
  | unary op x =>
      match Eval x with
      | (_, Some err) => (F64.zero, Some (UnaryOperandFailed (Expr_String x) err))
      | (x', None) =>
          if op =? rune_of "+" then (x', None)
          else if op =? rune_of "-" then (F64.neg x', None)
          else (F64.zero, Some (UnsupportedUnary op))
      end
  | binary op x y =>
      match Eval x with
      | (_, Some err) => (F64.zero, Some (BinaryXFailed (Expr_String x) err))
      | (x', None) =>
          match Eval y with
          | (_, Some err) => (F64.zero, Some (BinaryYFailed (Expr_String y) err))
          | (y', None) =>
              if op =? rune_of "+" then (F64.add x' y', None)
              else if op =? rune_of "-" then (F64.sub x' y', None)
              else if op =? rune_of "*" then (F64.mul x' y', None)
              else if op =? rune_of "/" then
                if F64.eqb y' F64.zero then (F64.zero, Some DivisionByZero)
                else (F64.div x' y', None)
              else (F64.zero, Some (UnsupportedBinary op))
          end
      end
  end.

(* ================================================================== *)
(** ** parse.go *)

(** *** The lexer

    A token as [Scan] returns it: an identifier, an integer or a float with
    its text, or any other character, returned as itself.  The end of the
    input is not a token of the stream: [Scan] answers [EOF] once the
    stream is exhausted, and ever after. *)
Inductive tok : Type :=
| TIdent (text : string)
| TInt (text : string)
| TFloat (text : string)
| TRune (c : N).

Definition tok_rune (t : tok) : rune :=
  match t with
  | TIdent _ => scanner.Ident
  | TInt _ => scanner.Int
  | TFloat _ => scanner.Float
  | TRune c => Z.of_N c
  end.

Definition tok_text (t : tok) : string :=
  match t with
  | TIdent s | TInt s | TFloat s => s
  | TRune c => fmt.string_of_rune (Z.of_N c)
  end.

(** [scan] is what the scanner has not read yet, as the tokens it will
    return; [token] is the look-ahead and [tokenText] its text. *)
Record lexer : Type := mkLexer {
  scan : list tok;
  token : rune;
  tokenText : string
}.

(** [new(lexer)] followed by [lex.scan.Init(r)]. *)
Definition newLexer (r : list tok) : lexer :=
  {| scan := r; token := 0; tokenText := EmptyString |}.

Definition next (lex : lexer) : lexer :=
  match scan lex with
  | [] => {| scan := []; token := scanner.EOF; tokenText := EmptyString |}
  | t :: r => {| scan := r; token := tok_rune t; tokenText := tok_text t |}
  end.

Definition text (lex : lexer) : string := tokenText lex.

(** What [lex.String()] describes: the four cases of its switch. *)
Inductive lexDesc : Type :=
| EndOfFile
| Identifier (text : string)
| Number (text : string)
| Quoted (r : rune).

Definition lexString (lex : lexer) : lexDesc :=
  if token lex =? scanner.EOF then EndOfFile
  else if token lex =? scanner.Ident then Identifier (text lex)
  else if (token lex =? scanner.Int) || (token lex =? scanner.Float)
       then Number (text lex)
  else Quoted (token lex).

Definition priority (op : rune) : Z :=
  if (op =? rune_of "*") || (op =? rune_of "/") then 2
  else if (op =? rune_of "+") || (op =? rune_of "-") then 1
  else 0.

(** *** Errors

    One constructor per [fmt.Errorf] format of parse.go (evalparse.go uses
    the same formats); [%s] of the lexer is kept as its description. *)
Inductive NumError : Type := ErrSyntax | ErrRange.

Inductive ParseError : Type :=
| Unexpected (at_ : lexDesc)                           (* "unexpected %s" *)
| WantParen (at_ : lexDesc)                            (* "got %s, want ')'" *)
| BadFloat (at_ : lexDesc) (cause : NumError)          (* "could not parse the float number %s: %s" *)
| InSymbol (at_ : lexDesc) (cause : ParseError)        (* "could not parse the symbol %s: %s" *)
| InUnary (at_ : lexDesc) (cause : ParseError)         (* "could not parse expression in unary %s: %s" *)
| CouldNotParse (at_ : lexDesc) (cause : ParseError).  (* "could not parse %s: %s" *)

(** What a parsing function leaves behind: an expression or an error,
    with the lexer as the call left it; a run-time panic; or the bound on
    the recursion depth of this embedding reached. *)
Inductive result : Type :=
| Ok (e : Expr) (lex : lexer)
| Err (err : ParseError) (lex : lexer)
| Panic
| OutOfFuel.

(** What [Parse] and [EvalParse] hand to their caller. *)
Inductive outcome : Type :=
| Returned (e : Expr)
| Failed (err : ParseError)
| Panicked
| Exhausted.

Section Parser.

(** [strconv.ParseFloat(s, 64)]: a value and an error. *)
Variable ParseFloat : string -> float64 * option NumError.

(** The two loops of [parseBinary] are [forPrio] (outer, [prio] going
    down to [prio0]) and [forSame] (inner, operators of priority
    [prio]).  Every call spends one unit of [fuel]. *)
Fixpoint parseBinary (fuel : nat) (lex : lexer) (prio0 : Z) {struct fuel} : result :=
  match fuel with
  | O => OutOfFuel
  | S fuel =>
      match parseUnary fuel lex with
      | Ok left_ lex => forPrio fuel lex prio0 (priority (token lex)) left_
      | Err err lex => Err (InUnary (lexString lex) err) lex
      | Panic => Panic
      | OutOfFuel => OutOfFuel
      end
  end

with forPrio (fuel : nat) (lex : lexer) (prio0 prio : Z) (left_ : Expr) {struct fuel} : result :=
  match fuel with
  | O => OutOfFuel
  | S fuel =>
      if prio >=? prio0 then
        match forSame fuel lex prio left_ with
        | Ok left_ lex => forPrio fuel lex prio0 (prio - 1) left_
        | r => r
        end
      else Ok left_ lex
  end

with forSame (fuel : nat) (lex : lexer) (prio : Z) (left_ : Expr) {struct fuel} : result :=
  match fuel with
  | O => OutOfFuel
  | S fuel =>
      if priority (token lex) =? prio then
        let op := token lex in
        let lex := next lex in
        match parseBinary fuel lex (prio + 1) with
        | Ok right_ lex => forSame fuel lex prio (binary op left_ right_)
        | Err err lex => Err (InUnary (lexString lex) err) lex
        | Panic => Panic
        | OutOfFuel => OutOfFuel
        end
      else Ok left_ lex
  end

with parseUnary (fuel : nat) (lex : lexer) {struct fuel} : result :=
  match fuel with
  | O => OutOfFuel
  | S fuel =>
      if (token lex =? rune_of "+") || (token lex =? rune_of "-") then
        let op := token lex in
        let lex := next lex in
        match parseUnary fuel lex with
        | Ok e lex => Ok (unary op e) lex
        | Err err lex => Err (InUnary (lexString lex) err) lex
        | Panic => Panic
        | OutOfFuel => OutOfFuel
        end
      else parsePrimary fuel lex
  end

with parsePrimary (fuel : nat) (lex : lexer) {struct fuel} : result :=
  match fuel with
  | O => OutOfFuel
  | S fuel =>
      if (token lex =? scanner.Int) || (token lex =? scanner.Float) then
        match ParseFloat (text lex) with
        | (_, Some err) => Err (BadFloat (lexString lex) err) lex
        | (f, None) => Ok (num f) (next lex)
        end
      else if token lex =? rune_of "(" then
        let lex := next lex in
        match parseExpr fuel lex with
        | Ok e lex =>
            if negb (token lex =? rune_of ")") then Err (WantParen (lexString lex)) lex
            else Ok e (next lex)
        | Err err lex => Err (InSymbol (lexString lex) err) lex
        | Panic => Panic
        | OutOfFuel => OutOfFuel
        end
      else Err (Unexpected (lexString lex)) lex
  end

with parseExpr (fuel : nat) (lex : lexer) {struct fuel} : result :=
  match fuel with
  | O => OutOfFuel
  | S fuel => parseBinary fuel lex 1
  end.

(** Depth that the descent over [n] tokens cannot exceed.  The stack of
    the Go runtime is bounded and is not described here: on an input
    nested deeply enough (millions of parentheses or signs) the program
    stops with a stack overflow where the functions below return, so
    what is proved of a returned result holds of the runs that return. *)
Definition depth (n : nat) : nat := (4 * n + 5)%nat.

Definition Parse (r : list tok) : outcome :=
  let lex := next (newLexer r) in
  match parseExpr (depth (List.length r)) lex with
  | Ok e lex =>
      if negb (token lex =? scanner.EOF) then Failed (Unexpected (lexString lex))
      else Returned e
  | Err err lex => Failed (CouldNotParse (lexString lex) err)
  | Panic => Panicked
  | OutOfFuel => Exhausted
  end.

End Parser.

(* ================================================================== *)
(** ** evalparse.go *)

Section EvalParser.

Variable ParseFloat : string -> float64 * option NumError.

(** [v, _ := e.Eval()]: the error is dropped. *)
Definition evalDropErr (e : Expr) : float64 := fst (Eval e).

Fixpoint evalparseBinary (fuel : nat) (lex : lexer) (prio0 : Z) {struct fuel} : result :=
  match fuel with
  | O => OutOfFuel
  | S fuel =>
      match evalparseUnary fuel lex with
      | Ok left_ lex => evalForPrio fuel lex prio0 (priority (token lex)) left_
      | Err err lex => Err (InUnary (lexString lex) err) lex
      | Panic => Panic
      | OutOfFuel => OutOfFuel
      end
  end

(** The outer loop, and after it [leftEval, _ := left.Eval()] and
    [return num(leftEval), nil]. *)
with evalForPrio (fuel : nat) (lex : lexer) (prio0 prio : Z) (left_ : Expr) {struct fuel} : result :=
  match fuel with
  | O => OutOfFuel
  | S fuel =>
      if prio >=? prio0 then
        match evalForSame fuel lex prio left_ with
        | Ok left_ lex => evalForPrio fuel lex prio0 (prio - 1) left_
        | r => r
        end
      else
        let leftEval := evalDropErr left_ in
        Ok (num leftEval) lex
  end

with evalForSame (fuel : nat) (lex : lexer) (prio : Z) (left_ : Expr) {struct fuel} : result :=
  match fuel with
  | O => OutOfFuel
  | S fuel =>
      if priority (token lex) =? prio then
        let op := token lex in
        let lex := next lex in
        match evalparseBinary fuel lex (prio + 1) with
        | Ok right_ lex =>
            let leftEval := evalDropErr left_ in
            evalForSame fuel lex prio (binary op (num leftEval) right_)
        | Err err lex => Err (InUnary (lexString lex) err) lex
        | Panic => Panic
        | OutOfFuel => OutOfFuel
        end
      else Ok left_ lex
  end

with evalparseUnary (fuel : nat) (lex : lexer) {struct fuel} : result :=
  match fuel with
  | O => OutOfFuel
  | S fuel =>
      if (token lex =? rune_of "+") || (token lex =? rune_of "-") then
        let op := token lex in
        let lex := next lex in
        match evalparseUnary fuel lex with
        | Ok e lex =>
            let eEval := evalDropErr e in
            Ok (unary op (num eEval)) lex
        | Err err lex => Err (InUnary (lexString lex) err) lex
        | Panic => Panic
        | OutOfFuel => OutOfFuel
        end
      else evalparsePrimary fuel lex
  end

(** In the parenthesis case [e.Eval()] is called before [err] is looked
    at: when [evalparseExpr] failed, [e] is the nil interface and the
    call panics. *)
with evalparsePrimary (fuel : nat) (lex : lexer) {struct fuel} : result :=
  match fuel with
  | O => OutOfFuel
  | S fuel =>
      if (token lex =? scanner.Int) || (token lex =? scanner.Float) then
        match ParseFloat (text lex) with
        | (_, Some err) => Err (BadFloat (lexString lex) err) lex
        | (f, None) => Ok (num f) (next lex)
        end
      else if token lex =? rune_of "(" then
        let lex := next lex in
        match evalparseExpr fuel lex with
        | Ok e lex =>
            let eEval := evalDropErr e in
            if negb (token lex =? rune_of ")") then Err (WantParen (lexString lex)) lex
            else Ok (num eEval) (next lex)
        | Err _ _ => Panic
        | Panic => Panic
        | OutOfFuel => OutOfFuel
        end
      else Err (Unexpected (lexString lex)) lex
  end

with evalparseExpr (fuel : nat) (lex : lexer) {struct fuel} : result :=
  match fuel with
  | O => OutOfFuel
  | S fuel => evalparseBinary fuel lex 1
  end.

Definition EvalParse (r : list tok) : outcome :=
  let lex := next (newLexer r) in
  match evalparseExpr (depth (List.length r)) lex with
  | Ok e lex =>
      if negb (token lex =? scanner.EOF) then Failed (Unexpected (lexString lex))
      else Returned e
  | Err err lex => Failed (CouldNotParse (lexString lex) err)
  | Panic => Panicked
  | OutOfFuel => Exhausted
  end.

End EvalParser.

(* ================================================================== *)
(** ** The standard-library functions the parser calls

    [text/scanner] and [strconv] are not part of the repository.  The
    parser above takes the token stream and [ParseFloat] as given; the two
    modules below describe them. *)

(** *** text/scanner, as [Parse] configures it

    Mode [ScanIdents | ScanInts | ScanFloats], white space [GoWhitespace].
    The description covers the input made of ASCII characters and of the
    byte-order mark U+FEFF, which the scanner treats on its own: [Peek]
    drops it when it is the very first character of the input, and
    anywhere else it is a character like any other, returned as itself.
    Any other character outside ASCII is left out: to tell a letter from
    another character there, the scanner asks the tables of [unicode]. *)
Module textscanner.

(** The byte-order mark, and a text without the three bytes that encode
    it in UTF-8 at its start. *)
Definition BOM : N := 65279.

Definition dropBOM (s : string) : option string :=
  match s with
  | String a (String b (String c rest)) =>
      if (N_of_ascii a =? 239)%N && (N_of_ascii b =? 187)%N && (N_of_ascii c =? 191)%N
      then Some rest else None
  | _ => None
  end.

Definition between (lo hi c : ascii) : bool :=
  (N_of_ascii lo <=? N_of_ascii c)%N && (N_of_ascii c <=? N_of_ascii hi)%N.

Definition lower (c : ascii) : ascii :=
  ascii_of_N (N.lor 32 (N_of_ascii c)).

Definition isDecimal (c : ascii) : bool := between "0" "9" c.

Definition isHex (c : ascii) : bool :=
  between "0" "9" c || between "a" "f" (lower c).

Definition isLetter (c : ascii) : bool :=
  between "a" "z" c || between "A" "Z" c.

Definition isIdentRune (c : ascii) (i : nat) : bool :=
  Ascii.eqb c "_" || isLetter c || (isDecimal c && negb (Nat.eqb i 0)).

(** tab, line feed, carriage return, space *)
Definition isWhitespace (c : ascii) : bool :=
  Ascii.eqb c "009" || Ascii.eqb c "010" || Ascii.eqb c "013" || Ascii.eqb c " ".

(** The longest prefix whose characters satisfy [p], and the rest. *)
Fixpoint span (p : ascii -> bool) (s : string) : string * string :=
  match s with
  | String c s' =>
      if p c then let (a, b) := span p s' in (String c a, b) else (EmptyString, s)
  | EmptyString => (EmptyString, EmptyString)
  end.

Fixpoint skipWhitespace (s : string) : string :=
  match s with
  | String c s' => if isWhitespace c then skipWhitespace s' else s
  | EmptyString => EmptyString
  end.

Definition digits (base16 : bool) : string -> string * string :=
  if base16 then span (fun c => isHex c || Ascii.eqb c "_")
  else span (fun c => isDecimal c || Ascii.eqb c "_").

(** The exponent part: its text, the rest, whether there was one. *)
Definition scanExponent (s : string) : string * string * bool :=
  match s with
  | String c s1 =>
      if Ascii.eqb (lower c) "e" || Ascii.eqb (lower c) "p" then
        let (sg, s2) :=
          match s1 with
          | String d s2 =>
              if Ascii.eqb d "+" || Ascii.eqb d "-"
              then (String d EmptyString, s2) else (EmptyString, s1)
          | EmptyString => (EmptyString, s1)
          end in
        let (ds, s3) := digits false s2 in
        (String c (sg ++ ds), s3, true)
      else (EmptyString, s, false)
  | EmptyString => (EmptyString, s, false)
  end.

(** The integer part of [scanNumber], up to its digits: the prefix that
    was read, whether the digits to come are hexadecimal, and the rest. *)
Definition scanPrefix (s : string) : string * bool * string :=
  match s with
  | String c s' =>
      if Ascii.eqb c "0" then
        match s' with
        | String c' s'' =>
            if Ascii.eqb (lower c') "x"
            then (String c (String c' EmptyString), true, s'')
            else if Ascii.eqb (lower c') "o" || Ascii.eqb (lower c') "b"
            then (String c (String c' EmptyString), false, s'')
            else (String c EmptyString, false, s')
        | EmptyString => (String c EmptyString, false, s')
        end
      else (EmptyString, false, s)
  | EmptyString => (EmptyString, false, s)
  end.

(** The fraction: its text with the point, whether there was one, the rest. *)
Definition scanFraction (base16 : bool) (s : string) : string * bool * string :=
  match s with
  | String c s' =>
      if Ascii.eqb c "."
      then let (f, r) := digits base16 s' in (String c f, true, r)
      else (EmptyString, false, s)
  | EmptyString => (EmptyString, false, s)
  end.

(** [scanNumber]: [s] starts at the first digit; with [seenDot] the
    point before it has been read already. *)
Definition scanNumber (s : string) (seenDot : bool) : tok * string :=
  if seenDot then
    let (fr, s1) := digits false s in
    let '(ex, s2, _) := scanExponent s1 in
    (TFloat (String "." (fr ++ ex)), s2)
  else
    let '(pre, base16, s1) := scanPrefix s in
    let (ip, s2) := digits base16 s1 in
    let '(fr, isFrac, s3) := scanFraction base16 s2 in
    let '(ex, s4, isExp) := scanExponent s3 in
    ((if isFrac || isExp then TFloat else TInt) (pre ++ ip ++ fr ++ ex), s4).

(** One call of [Scan]: [None] at the end of the input. *)
Definition Scan (s : string) : option (tok * string) :=
  match skipWhitespace s with
  | EmptyString => None
  | String c s' =>
      if isIdentRune c 0 then
        let (id, rest) := span (fun c => isIdentRune c 1) s' in
        Some (TIdent (String c id), rest)
      else if isDecimal c then Some (scanNumber (String c s') false)
      else if Ascii.eqb c "." then
        match s' with
        | String d _ =>
            if isDecimal d then Some (scanNumber s' true)
            else Some (TRune (N_of_ascii c), s')
        | EmptyString => Some (TRune (N_of_ascii c), s')
        end
      else
        match dropBOM (String c s') with
        | Some rest => Some (TRune BOM, rest)
        | None => Some (TRune (N_of_ascii c), s')
        end
  end.

Fixpoint scanAll (fuel : nat) (s : string) : list tok :=
  match fuel with
  | O => []
  | S fuel =>
      match Scan s with
      | None => []
      | Some (t, rest) => t :: scanAll fuel rest
      end
  end.

Fixpoint isASCII (s : string) : bool :=
  match s with
  | String c s' => (N_of_ascii c <? 128)%N && isASCII s'
  | EmptyString => true
  end.

(** The texts the description covers: ASCII characters and byte-order
    marks. *)
Fixpoint supported (s : string) : bool :=
  match s with
  | String a s' =>
      if (N_of_ascii a <? 128)%N then supported s'
      else
        match s' with
        | String b (String c rest) =>
            (N_of_ascii a =? 239)%N && (N_of_ascii b =? 187)%N && (N_of_ascii c =? 191)%N
            && supported rest
        | _ => false
        end
  | EmptyString => true
  end.

(** What [Scan] starts from: the input, without a byte-order mark at its
    very start. *)
Definition afterBOM (s : string) : string :=
  match dropBOM s with
  | Some rest => rest
  | None => s
  end.

(** Every token of the input, in order. *)
Definition tokens (s : string) : option (list tok) :=
  if supported s then Some (scanAll (String.length s) (afterBOM s)) else None.

End textscanner.

(** *** strconv.ParseFloat

    [strconv.ParseFloat(s, 64)]: an optional sign; a decimal mantissa
    with an optional point and an optional decimal exponent, or a
    hexadecimal mantissa after [0x] with an optional point and a binary
    exponent, which it must have; underscores between digits, or
    between the prefix and a digit; the infinities and NaN by their
    names.  The value is the nearest float64, ties to even, and a value
    that rounds to an infinity is answered with that infinity and
    [ErrRange].  Every other text is answered with 0 and [ErrSyntax]. *)
Module strconv.

Definition digitVal (c : ascii) : Z := Z.of_N (N_of_ascii c) - 48.

(** The value of a digit of a mantissa, the letters [a] to [f] included. *)
Definition hexVal (c : ascii) : Z :=
  if textscanner.isDecimal c then digitVal c
  else Z.of_N (N_of_ascii (textscanner.lower c)) - 87.

(** The digits of a mantissa in base [base]; underscores are skipped. *)
Fixpoint readDigits (base acc : Z) (s : string) : Z :=
  match s with
  | String c s' =>
      if Ascii.eqb c "_" then readDigits base acc s'
      else readDigits base (base * acc + hexVal c) s'
  | EmptyString => acc
  end.

Fixpoint digitCount (s : string) : nat :=
  match s with
  | String c s' => if Ascii.eqb c "_" then digitCount s' else S (digitCount s')
  | EmptyString => O
  end.

(** The digits of an exponent: beyond 10000 the exponent stops growing. *)
Fixpoint readExpDigits (e : Z) (s : string) : Z :=
  match s with
  | String c s' =>
      if Ascii.eqb c "_" then readExpDigits e s'
      else readExpDigits (if e <? 10000 then 10 * e + digitVal c else e) s'
  | EmptyString => e
  end.

Definition readSign (s : string) : bool * string :=
  match s with
  | String c s' =>
      if Ascii.eqb c "+" then (false, s')
      else if Ascii.eqb c "-" then (true, s')
      else (false, s)
  | EmptyString => (false, s)
  end.

(** [special]: the names of the infinities and of NaN, in any case. *)
Definition toLower (c : ascii) : ascii :=
  if textscanner.between "A" "Z" c then ascii_of_N (N_of_ascii c + 32) else c.

Fixpoint lowered (s : string) : string :=
  match s with
  | String c s' => String (toLower c) (lowered s')
  | EmptyString => EmptyString
  end.

Definition isInf (s : string) : bool :=
  String.eqb (lowered s) "inf" || String.eqb (lowered s) "infinity".

Definition special (s : string) : option float64 :=
  match s with
  | String c s' =>
      if Ascii.eqb c "+" || Ascii.eqb c "-" then
        if isInf s' then Some (S754_infinity (Ascii.eqb c "-")) else None
      else if isInf s then Some (S754_infinity false)
      else if String.eqb (lowered s) "nan" then Some S754_nan
      else None
  | EmptyString => None
  end.

(** [underscoreOK]: an underscore stands between two digits, or between
    a base prefix and a digit.  [saw] is the last character seen: [0]
    for a digit or a prefix, [_] for an underscore, [!] for another
    character, [^] at the start. *)
Fixpoint underscoreLoop (hex : bool) (saw : ascii) (s : string) : bool :=
  match s with
  | String c s' =>
      if textscanner.isDecimal c || (hex && textscanner.between "a" "f" (textscanner.lower c))
      then underscoreLoop hex "0" s'
      else if Ascii.eqb c "_" then
        if Ascii.eqb saw "0" then underscoreLoop hex "_" s' else false
      else if Ascii.eqb saw "_" then false
      else underscoreLoop hex "!" s'
  | EmptyString => negb (Ascii.eqb saw "_")
  end.

Definition underscoreOK (s : string) : bool :=
  let s := snd (readSign s) in
  match s with
  | String c0 (String c1 rest) =>
      if Ascii.eqb c0 "0" &&
         (Ascii.eqb (textscanner.lower c1) "b" || Ascii.eqb (textscanner.lower c1) "o"
          || Ascii.eqb (textscanner.lower c1) "x")
      then underscoreLoop (Ascii.eqb (textscanner.lower c1) "x") "0" rest
      else underscoreLoop false "^" s
  | _ => underscoreLoop false "^" s
  end.

Fixpoint hasUnderscore (s : string) : bool :=
  match s with
  | String c s' => Ascii.eqb c "_" || hasUnderscore s'
  | EmptyString => false
  end.

(** The prefix [0x], which counts only when a character follows it. *)
Definition readBase (s : string) : bool * string :=
  match s with
  | String c0 (String c1 (String c2 rest)) =>
      if Ascii.eqb c0 "0" && Ascii.eqb (textscanner.lower c1) "x"
      then (true, String c2 rest) else (false, s)
  | _ => (false, s)
  end.

Definition isMantissaChar (hex : bool) (c : ascii) : bool :=
  (if hex then textscanner.isHex c else textscanner.isDecimal c) || Ascii.eqb c "_".

(** The fraction of a mantissa: its digits and the rest. *)
Definition readFraction (hex : bool) (s : string) : string * string :=
  match s with
  | String c s' =>
      if Ascii.eqb c "." then textscanner.span (isMantissaChar hex) s'
      else (EmptyString, s)
  | EmptyString => (EmptyString, s)
  end.

(** The exponent, which ends the text: [None] when it is malformed, when
    something follows it, or when a hexadecimal mantissa has none. *)
Definition readExponent (hex : bool) (s : string) : option Z :=
  match s with
  | EmptyString => if hex then None else Some 0
  | String c s1 =>
      if Ascii.eqb (textscanner.lower c) (if hex then "p" else "e")%char then
        let (eneg, s2) := readSign s1 in
        match s2 with
        | String d _ =>
            if textscanner.isDecimal d then
              let (ds, s3) :=
                textscanner.span (fun c => textscanner.isDecimal c || Ascii.eqb c "_") s2 in
              match s3 with
              | EmptyString =>
                  Some (if eneg then - readExpDigits 0 ds else readExpDigits 0 ds)
              | String _ _ => None
              end
            else None
        | EmptyString => None
        end
      else None
  end.

(** The float64 nearest to [m * 10^e], [m > 0]. *)
Definition round10 (neg : bool) (m : positive) (e : Z) : float64 :=
  match e with
  | Zneg p =>
      let x := SFdiv F64.prec F64.emax
                 (S754_finite false m 0)
                 (S754_finite false (Z.to_pos (10 ^ Zpos p)) 0) in
      if neg then SFopp x else x
  | _ => binary_normalize F64.prec F64.emax
           (if neg then - (Zpos m * 10 ^ e) else Zpos m * 10 ^ e) 0 false
  end.

(** The float64 nearest to [m * 2^e], [m > 0]. *)
Definition round2 (neg : bool) (m : positive) (e : Z) : float64 :=
  let x := binary_normalize F64.prec F64.emax (Zpos m) e false in
  if neg then SFopp x else x.

Definition ParseFloat (s : string) : float64 * option NumError :=
  match special s with
  | Some f => (f, None)
  | None =>
      let (neg, s0) := readSign s in
      let (hex, s1) := readBase s0 in
      let (ip, s2) := textscanner.span (isMantissaChar hex) s1 in
      let (fr, s3) := readFraction hex s2 in
      if Nat.eqb (digitCount ip + digitCount fr) 0 then (F64.zero, Some ErrSyntax)
      else
        match readExponent hex s3 with
        | None => (F64.zero, Some ErrSyntax)
        | Some e =>
            if hasUnderscore s && negb (underscoreOK s) then (F64.zero, Some ErrSyntax)
            else
              match readDigits (if hex then 16 else 10) 0 (ip ++ fr) with
              | Zpos m =>
                  match
                    (if hex then round2 neg m (e - 4 * Z.of_nat (digitCount fr))
                     else round10 neg m (e - Z.of_nat (digitCount fr)))
                  with
                  | S754_infinity sg => (S754_infinity sg, Some ErrRange)
                  | f => (f, None)
                  end
              | _ => (S754_zero neg, None)
              end
        end
  end.

End strconv.

(* ================================================================== *)
(** ** main.go

    What [main] does between opening the input and printing the result.
    The flags are arguments, the reader is the stream of tokens it will
    give, and the profiles, which only write files besides, are left
    out. *)

Section Main.

Variable ParseFloat : string -> float64 * option NumError.

Definition parseInput (reader : list tok) (useEval : bool) : outcome :=
  if useEval then EvalParse ParseFloat reader else Parse ParseFloat reader.

(** The two calls of [Printf] in [printResult], by their arguments. *)
Inductive printed : Type :=
| WithExpr (exp : Expr) (res : float64)    (* "Eval(%v) = %.2f\n" *)
| ValueOnly (res : float64).               (* "Eval() = %.2f\n" *)

Definition printResult (exp : Expr) (res : float64) : printed :=
  if Len exp <=? 1000 then WithExpr exp res else ValueOnly res.

(** How a run ends: in one of the two calls of [log.Fatalf], in
    [printResult], or in what [parseInput] does other than returning. *)
Inductive ending : Type :=
| FatalParse (err : ParseError)     (* "Could not parse expression: %v" *)
| FatalEval (err : EvalError)       (* "Failed evaluation: %v" *)
| Output (p : printed)
| Crash
| Unfinished.

Definition main (useEval : bool) (reader : list tok) : ending :=
  match parseInput reader useEval with
  | Failed err => FatalParse err
  | Returned exp =>
      match Eval exp with
      | (_, Some err) => FatalEval err
      | (res, None) => Output (printResult exp res)
      end
  | Panicked => Crash
  | Exhausted => Unfinished
  end.

End Main.

(** The number a run prints. *)
Definition shown (p : printed) : float64 :=
  match p with
  | WithExpr _ res | ValueOnly res => res
  end.

(* ================================================================== *)
(** ** Notions used to state the properties *)

(** The lexer after the first [lex.next()] on a fresh scanner, and
    equally after any later one: the look-ahead is the first token still
    to come. *)
Definition lexOf (r : list tok) : lexer := next (newLexer r).

Definition isNumber (t : tok) : bool :=
  match t with
  | TInt _ | TFloat _ => true
  | _ => false
  end.

Definition isOperator (t : tok) : bool :=
  match t with
  | TRune c => 1 <=? priority (Z.of_N c)
  | _ => false
  end.

Definition tLParen : tok := TRune (N_of_ascii "(").
Definition tRParen : tok := TRune (N_of_ascii ")").

Definition countIf (p : tok -> bool) (r : list tok) : Z :=
  Z.of_nat (List.length (filter p r)).

(** Number of nodes of a tree, without the bound of [int]. *)
Fixpoint nodes (e : Expr) : Z :=
  match e with
  | num _ => 1
  | unary _ x => nodes x + 1
  | binary _ x y => nodes x + nodes y + 1
  end.

(** The value the eager parser computes for the tree the tree-building
    parser returns: every node is evaluated on its own, on operands that
    are literals already, and an error leaves Go's zero value. *)
Fixpoint eagerValue (e : Expr) : float64 :=
  match e with
  | num f => f
  | unary op x => evalDropErr (unary op (num (eagerValue x)))
  | binary op x y => evalDropErr (binary op (num (eagerValue x)) (num (eagerValue y)))
  end.

(** An error that passed through the parenthesis case of [parsePrimary]. *)
Fixpoint throughParen (err : ParseError) : bool :=
  match err with
  | Unexpected _ | WantParen _ | BadFloat _ _ => false
  | InSymbol _ _ => true
  | InUnary _ cause | CouldNotParse _ cause => throughParen cause
  end.

Local Open Scope list_scope.

Section Reading.

Variable ParseFloat : string -> float64 * option NumError.

(** [Reads r e]: the tokens [r], read in order, spell the tree [e]: a
    number for a literal, a sign before its operand, an operator between
    its operands, and parentheses around a tree without a node of
    their own. *)
Inductive Reads : list tok -> Expr -> Prop :=
| ReadsNum t f :
    isNumber t = true -> ParseFloat (tok_text t) = (f, None) ->
    Reads [t] (num f)
| ReadsUnary c r x :
    priority (Z.of_N c) = 1 -> Reads r x ->
    Reads (TRune c :: r) (unary (Z.of_N c) x)
| ReadsBinary c r1 r2 x y :
    1 <= priority (Z.of_N c) -> Reads r1 x -> Reads r2 y ->
    Reads (r1 ++ TRune c :: r2) (binary (Z.of_N c) x y)
| ReadsParen r e :
    Reads r e -> Reads (tLParen :: r ++ [tRParen]) e.

End Reading.

Section Views.

Variable ParseFloat : string -> float64 * option NumError.

(** How the literals of two trees are to correspond. *)
Variable Rlit : float64 -> float64 -> Prop.

(** Two tokens the parser cannot tell apart: two numbers, the second
    read by [ParseFloat] whenever the first is, with corresponding
    values; or the same token twice. *)
Definition looksLike (t t' : tok) : Prop :=
  if isNumber t then
    isNumber t' = true /\
    forall f, ParseFloat (tok_text t) = (f, None) ->
              exists f', ParseFloat (tok_text t') = (f', None) /\ Rlit f f'
  else t' = t.

Definition alike (r r' : list tok) : Prop := Forall2 looksLike r r'.

(** Trees of the same shape, with the same operators and corresponding
    literals. *)
Inductive similar : Expr -> Expr -> Prop :=
| similar_num f f' : Rlit f f' -> similar (num f) (num f')
| similar_unary op x x' : similar x x' -> similar (unary op x) (unary op x')
| similar_binary op x x' y y' :
    similar x x' -> similar y y' -> similar (binary op x y) (binary op x' y').

(** A continuation of the input at which an expression ends as it does
    at the end of the input. *)
Definition closes (sfx : list tok) : Prop :=
  match sfx with
  | [] => True
  | x :: _ => priority (tok_rune x) = 0
  end.

End Views.

(** How a result of the eager parser answers a result of the
    tree-building parser on the same lexer: the same lexer is left, the
    expressions are related by [P], the errors are equal, except that an
    error that passed through a parenthesis is a panic. *)
Definition agree (P : Expr -> Expr -> Prop) (r r' : result) : Prop :=
  match r, r' with
  | Ok e lex, Ok e' lex' => lex' = lex /\ P e e'
  | Err err lex, Err err' lex' => err' = err /\ lex' = lex /\ throughParen err = false
  | Err err _, Panic => throughParen err = true
  | OutOfFuel, OutOfFuel => True
  | _, _ => False
  end.

Definition collapsed (e e' : Expr) : Prop := e' = num (eagerValue e).

Definition sameValue (e e' : Expr) : Prop := evalDropErr e' = eagerValue e.

(** [Parse] and [EvalParse] on a reader over the text [s], with the
    scanner and [ParseFloat] described above. *)
Definition ParseText (s : string) : option outcome :=
  option_map (Parse strconv.ParseFloat) (textscanner.tokens s).

Definition EvalParseText (s : string) : option outcome :=
  option_map (EvalParse strconv.ParseFloat) (textscanner.tokens s).

(** The literal of an integer. *)
Definition lit (z : Z) : Expr := num (F64.of_Z z).

(** The operators of the grammar, as runes. *)
Definition opAdd : rune := rune_of "+".
Definition opSub : rune := rune_of "-".
Definition opMul : rune := rune_of "*".
Definition opDiv : rune := rune_of "/".

(** *** Printing a tree and reading it again *)

(** The tokens of the text [Expr_String] prints, for a tree whose
    literals print as unsigned decimals. *)
Fixpoint toks (e : Expr) : list tok :=
  match e with
  | num f => [TFloat (fmt.Sprintf_2f f)]
  | unary op x => TRune (Z.to_N op) :: toks x
  | binary op x y => toks x ++ TRune (Z.to_N op) :: toks y
  end.

(** [f'] is what [ParseFloat] reads in the two decimals printed for [f]. *)
Definition rereads (f f' : float64) : Prop :=
  strconv.ParseFloat (fmt.Sprintf_2f f) = (f', None).

(** The tree with every literal printed and read again; [None] when
    [ParseFloat] refuses one of the printed literals. *)
Fixpoint readBack (e : Expr) : option Expr :=
  match e with
  | num f =>
      match strconv.ParseFloat (fmt.Sprintf_2f f) with
      | (f', None) => Some (num f')
      | (_, Some _) => None
      end
  | unary op x => option_map (unary op) (readBack x)
  | binary op x y =>
      match readBack x, readBack y with
      | Some x', Some y' => Some (binary op x' y')
      | _, _ => None
      end
  end.

(** A float that is finite and not negative: what [ParseFloat] returns
    without an error for a text that has no sign. *)
Definition plain (f : float64) : Prop :=
  match f with
  | S754_zero false | S754_finite false _ _ => True
  | _ => False
  end.

Fixpoint plainLits (e : Expr) : Prop :=
  match e with
  | num f => plain f
  | unary _ x => plainLits x
  | binary _ x y => plainLits x /\ plainLits y
  end.

(** A text that starts like an unsigned number. *)
Definition unsignedText (s : string) : Prop :=
  match s with
  | String c _ => textscanner.isDecimal c || Ascii.eqb c "." = true
  | EmptyString => False
  end.

(** [Scans s r]: successive calls of [Scan] on [s] return the tokens [r]
    and then the end of the input. *)
Inductive Scans : string -> list tok -> Prop :=
| Scans_end s : textscanner.Scan s = None -> Scans s []
| Scans_tok s t s' r :
    textscanner.Scan s = Some (t, s') -> Scans s' r -> Scans s (t :: r).

(** What may follow a printed literal: the end of the text, or a space. *)
Definition boundary (rest : string) : Prop :=
  match rest with
  | EmptyString => True
  | String c _ => c = " "%char
  end.

Fixpoint allDecimal (s : string) : Prop :=
  match s with
  | String c s' => textscanner.isDecimal c = true /\ allDecimal s'
  | EmptyString => True
  end.

(** A text at which a run of digits stops. *)
Definition stops (rest : string) : Prop :=
  match rest with
  | EmptyString => True
  | String c _ => textscanner.isDecimal c || Ascii.eqb c "_" = false
  end.

(** A tree [Expr_String] prints as a text that reads as tokens again:
    its operators are operators of the grammar and its literals are
    finite and not negative. *)
Fixpoint printable (e : Expr) : Prop :=
  match e with
  | num f => plain f
  | unary op x => 1 <= priority op /\ printable x
  | binary op x y => 1 <= priority op /\ printable x /\ printable y
  end.

(** Case analysis on the eight bits of a character. *)
Ltac ascii_cases c := destruct c as [[|] [|] [|] [|] [|] [|] [|] [|]].

(** Side conditions on powers of two. *)
Ltac pw := first [lia | apply Z.pow_pos_nonneg; lia | apply Z.pow_nonzero; lia | apply Z.pow_nonneg; lia ].

(** A float is within the range of float64 when its mantissa has at most
    53 bits and its exponent is at most 971. *)
Definition inRange (f : float64) : Prop :=
  match f with
  | S754_finite _ m e => Z.pos m < 2 ^ 53 /\ e <= 971
  | _ => True
  end.

(** A zero, a finite number or an infinity of the given sign; not a NaN. *)
Definition signedAs (sx : bool) (f : float64) : Prop :=
  match f with
  | S754_zero s | S754_finite s _ _ | S754_infinity s => s = sx
  | S754_nan => False
  end.

(* ------------------------------------------------------------------ *)
(** *** Notions on trees, errors and streams *)

(** The error at the bottom of the chain of operands [Eval] wraps it in. *)
Fixpoint rootCause (err : EvalError) : EvalError :=
  match err with
  | UnaryOperandFailed _ cause | BinaryXFailed _ cause | BinaryYFailed _ cause =>
      rootCause cause
  | _ => err
  end.

(** A tree whose signs are [+] or [-] and whose binary operators are
    operators of the grammar. *)
Fixpoint grammarOps (e : Expr) : Prop :=
  match e with
  | num _ => True
  | unary op x => priority op = 1 /\ grammarOps x
  | binary op x y => 1 <= priority op /\ grammarOps x /\ grammarOps y
  end.

(** The three levels of a tree read without parentheses: a literal under
    signs; a chain of [*] and [/] that grows to the left, with such
    operands on the right; a chain of [+] and [-] that grows to the
    left, with chains of [*] and [/] on the right. *)
Fixpoint signedLiteral (e : Expr) : Prop :=
  match e with
  | num _ => True
  | unary _ x => signedLiteral x
  | binary _ _ _ => False
  end.

Fixpoint productChain (e : Expr) : Prop :=
  match e with
  | binary op x y => priority op = 2 /\ productChain x /\ signedLiteral y
  | _ => signedLiteral e
  end.

Fixpoint sumChain (e : Expr) : Prop :=
  match e with
  | binary op x y =>
      (priority op = 1 /\ sumChain x /\ productChain y) \/
      (priority op = 2 /\ productChain x /\ signedLiteral y)
  | _ => signedLiteral e
  end.

(** What [parseBinary] returns when called with [prio0 = p]. *)
Definition shaped (p : Z) (e : Expr) : Prop :=
  if 3 <=? p then signedLiteral e
  else if 2 <=? p then productChain e
  else sumChain e.

Section Growing.

Variable ParseFloat : string -> float64 * option NumError.

(** [grows p l tl e]: the tokens [tl] spell operators of priority [p],
    each followed by a right operand of the next level written without
    parentheses, and [e] is [l] with these operators applied to it from
    left to right. *)
Inductive grows (p : Z) : Expr -> list tok -> Expr -> Prop :=
| grows_end l : grows p l [] l
| grows_step l c ry y tl e :
    priority (Z.of_N c) = p ->
    Reads ParseFloat ry y -> ~ In tLParen ry -> shaped (p + 1) y ->
    grows p (binary (Z.of_N c) l y) tl e ->
    grows p l (TRune c :: ry ++ tl) e.

End Growing.

(** The signs [cs], first to last, before [e]. *)
Definition signChain (cs : list N) (e : Expr) : Expr :=
  fold_right (fun c x => unary (Z.of_N c) x) e cs.

Definition minuses (cs : list N) : nat :=
  List.length (filter (N.eqb (N_of_ascii "-")) cs).

Definition isLParen (t : tok) : bool :=
  match t with
  | TRune c => N.eqb c (N_of_ascii "(")
  | _ => false
  end.

Definition isRParen (t : tok) : bool :=
  match t with
  | TRune c => N.eqb c (N_of_ascii ")")
  | _ => false
  end.

Definition isSign (t : tok) : bool :=
  match t with
  | TRune c => priority (Z.of_N c) =? 1
  | _ => false
  end.

(** The tokens of the grammar; what an expression may start with and
    what it may end with. *)
Definition grammarTok (t : tok) : bool :=
  isNumber t || isOperator t || isLParen t || isRParen t.

Definition startsExpr (t : tok) : bool := isNumber t || isSign t || isLParen t.

Definition endsExpr (t : tok) : bool := isNumber t || isRParen t.

(** [nesting d r]: read after [d] parentheses were opened, [r] closes
    none that is not open and leaves none open. *)
Fixpoint nesting (d : nat) (r : list tok) : bool :=
  match r with
  | [] => Nat.eqb d 0
  | t :: r =>
      if isLParen t then nesting (S d) r
      else if isRParen t then
        match d with
        | O => false
        | S d => nesting d r
        end
      else nesting d r
  end.

(** The literals and operators of a tree, from left to right, and those
    of a stream of tokens. *)
Inductive item : Type :=
| Lit (f : float64)
| Op (op : rune).

Fixpoint inorder (e : Expr) : list item :=
  match e with
  | num f => [Lit f]
  | unary op x => Op op :: inorder x
  | binary op x y => inorder x ++ Op op :: inorder y
  end.

Definition itemOf (ParseFloat : string -> float64 * option NumError) (t : tok) : list item :=
  match t with
  | TInt s | TFloat s => [Lit (fst (ParseFloat s))]
  | TRune c => if isLParen t || isRParen t then [] else [Op (Z.of_N c)]
  | TIdent _ => []
  end.

Definition items (ParseFloat : string -> float64 * option NumError) (r : list tok) : list item :=
  flat_map (itemOf ParseFloat) r.

(** An error every layer of which names the token [d]. *)
Fixpoint namesOnly (d : lexDesc) (err : ParseError) : Prop :=
  match err with
  | Unexpected a | WantParen a | BadFloat a _ => a = d
  | InSymbol a cause | InUnary a cause | CouldNotParse a cause =>
      a = d /\ namesOnly d cause
  end.

(** The lexer a parsing function leaves behind. *)
Definition lexerLeft (res : result) : option lexer :=
  match res with
  | Ok _ lex | Err _ lex => Some lex
  | _ => None
  end.

(** The same result, with another lexer left behind. *)
Definition relocate (res : result) (lex : lexer) : result :=
  match res with
  | Ok e _ => Ok e lex
  | Err err _ => Err err lex
  | _ => res
  end.

(* ================================================================== *)
(** * Properties *)

(** ** The lexer *)

Lemma next_lexOf_cons t r : next (lexOf (t :: r)) = lexOf r.
Proof. reflexivity. Qed.

Lemma next_lexOf_nil : next (lexOf []) = lexOf [].
Proof. reflexivity. Qed.

Lemma token_lexOf_nil : token (lexOf []) = scanner.EOF.
Proof. reflexivity. Qed.

Lemma token_lexOf_cons t r : token (lexOf (t :: r)) = tok_rune t.
Proof. reflexivity. Qed.

Lemma text_lexOf_cons t r : text (lexOf (t :: r)) = tok_text t.
Proof. reflexivity. Qed.

Lemma tok_rune_not_EOF t : tok_rune t <> scanner.EOF.
Proof. destruct t; cbn; unfold scanner.EOF; try discriminate; lia. Qed.

Lemma token_lexOf_EOF r : token (lexOf r) = scanner.EOF -> r = [].
Proof.
  destruct r as [|t r]; [reflexivity|].
  rewrite token_lexOf_cons. intros H. now apply tok_rune_not_EOF in H.
Qed.

Lemma priority_range op : 0 <= priority op <= 2.
Proof.
  unfold priority.
  destruct ((op =? rune_of "*") || (op =? rune_of "/")); [lia|].
  destruct ((op =? rune_of "+") || (op =? rune_of "-")); lia.
Qed.

Lemma priority_EOF : priority scanner.EOF = 0.
Proof. reflexivity. Qed.

(** ** The descent, one call at a time *)

Section Unfolding.

Variable ParseFloat : string -> float64 * option NumError.

Lemma parseBinary_S fuel lex prio0 :
  parseBinary ParseFloat (S fuel) lex prio0 =
  match parseUnary ParseFloat fuel lex with
  | Ok left_ lex => forPrio ParseFloat fuel lex prio0 (priority (token lex)) left_
  | Err err lex => Err (InUnary (lexString lex) err) lex
  | Panic => Panic
  | OutOfFuel => OutOfFuel
  end.
Proof. reflexivity. Qed.

Lemma forPrio_S fuel lex prio0 prio left_ :
  forPrio ParseFloat (S fuel) lex prio0 prio left_ =
  if prio >=? prio0 then
    match forSame ParseFloat fuel lex prio left_ with
    | Ok left_ lex => forPrio ParseFloat fuel lex prio0 (prio - 1) left_
    | r => r
    end
  else Ok left_ lex.
Proof. reflexivity. Qed.

Lemma forSame_S fuel lex prio left_ :
  forSame ParseFloat (S fuel) lex prio left_ =
  if priority (token lex) =? prio then
    match parseBinary ParseFloat fuel (next lex) (prio + 1) with
    | Ok right_ lex' => forSame ParseFloat fuel lex' prio (binary (token lex) left_ right_)
    | Err err lex' => Err (InUnary (lexString lex') err) lex'
    | Panic => Panic
    | OutOfFuel => OutOfFuel
    end
  else Ok left_ lex.
Proof. reflexivity. Qed.

Lemma parseUnary_S fuel lex :
  parseUnary ParseFloat (S fuel) lex =
  if (token lex =? rune_of "+") || (token lex =? rune_of "-") then
    match parseUnary ParseFloat fuel (next lex) with
    | Ok e lex' => Ok (unary (token lex) e) lex'
    | Err err lex' => Err (InUnary (lexString lex') err) lex'
    | Panic => Panic
    | OutOfFuel => OutOfFuel
    end
  else parsePrimary ParseFloat fuel lex.
Proof. reflexivity. Qed.

Lemma parsePrimary_S fuel lex :
  parsePrimary ParseFloat (S fuel) lex =
  if (token lex =? scanner.Int) || (token lex =? scanner.Float) then
    match ParseFloat (text lex) with
    | (_, Some err) => Err (BadFloat (lexString lex) err) lex
    | (f, None) => Ok (num f) (next lex)
    end
  else if token lex =? rune_of "(" then
    match parseExpr ParseFloat fuel (next lex) with
    | Ok e lex' =>
        if negb (token lex' =? rune_of ")") then Err (WantParen (lexString lex')) lex'
        else Ok e (next lex')
    | Err err lex' => Err (InSymbol (lexString lex') err) lex'
    | Panic => Panic
    | OutOfFuel => OutOfFuel
    end
  else Err (Unexpected (lexString lex)) lex.
Proof. reflexivity. Qed.

Lemma parseExpr_S fuel lex :
  parseExpr ParseFloat (S fuel) lex = parseBinary ParseFloat fuel lex 1.
Proof. reflexivity. Qed.

(** One more unit of fuel changes nothing once a call has an answer. *)
Lemma fuel_step fuel :
  (forall lex p, parseBinary ParseFloat fuel lex p <> OutOfFuel ->
     parseBinary ParseFloat (S fuel) lex p = parseBinary ParseFloat fuel lex p) /\
  (forall lex p0 p l, forPrio ParseFloat fuel lex p0 p l <> OutOfFuel ->
     forPrio ParseFloat (S fuel) lex p0 p l = forPrio ParseFloat fuel lex p0 p l) /\
  (forall lex p l, forSame ParseFloat fuel lex p l <> OutOfFuel ->
     forSame ParseFloat (S fuel) lex p l = forSame ParseFloat fuel lex p l) /\
  (forall lex, parseUnary ParseFloat fuel lex <> OutOfFuel ->
     parseUnary ParseFloat (S fuel) lex = parseUnary ParseFloat fuel lex) /\
  (forall lex, parsePrimary ParseFloat fuel lex <> OutOfFuel ->
     parsePrimary ParseFloat (S fuel) lex = parsePrimary ParseFloat fuel lex) /\
  (forall lex, parseExpr ParseFloat fuel lex <> OutOfFuel ->
     parseExpr ParseFloat (S fuel) lex = parseExpr ParseFloat fuel lex).
Proof.
  induction fuel as [|fuel IH].
  - repeat split; intros; exfalso; auto.
  - destruct IH as (IHB & IHFP & IHFS & IHU & IHP & IHE).
    repeat split.
    + intros lex p H.
      rewrite parseBinary_S in H. rewrite (parseBinary_S (S fuel) lex p), (parseBinary_S fuel lex p).
      destruct (parseUnary ParseFloat fuel lex) as [e l|err l| |] eqn:E;
        try (rewrite IHU, E by (rewrite E; discriminate)); try reflexivity.
      * apply IHFP; exact H.
      * elim H; reflexivity.
    + intros lex p0 p l H.
      rewrite forPrio_S in H. rewrite (forPrio_S (S fuel) lex p0 p l), (forPrio_S fuel lex p0 p l).
      destruct (p >=? p0); [|reflexivity].
      destruct (forSame ParseFloat fuel lex p l) as [e l'|err l'| |] eqn:E;
        try (rewrite IHFS, E by (rewrite E; discriminate)); try reflexivity.
      * apply IHFP; exact H.
      * elim H; reflexivity.
    + intros lex p l H.
      rewrite forSame_S in H. rewrite (forSame_S (S fuel) lex p l), (forSame_S fuel lex p l).
      destruct (priority (token lex) =? p); [|reflexivity].
      destruct (parseBinary ParseFloat fuel (next lex) (p + 1)) as [e l'|err l'| |] eqn:E;
        try (rewrite IHB, E by (rewrite E; discriminate)); try reflexivity.
      * apply IHFS; exact H.
      * elim H; reflexivity.
    + intros lex H.
      rewrite parseUnary_S in H. rewrite (parseUnary_S (S fuel) lex), (parseUnary_S fuel lex).
      destruct ((token lex =? rune_of "+") || (token lex =? rune_of "-")).
      * destruct (parseUnary ParseFloat fuel (next lex)) as [e l'|err l'| |] eqn:E;
          try (rewrite IHU, E by (rewrite E; discriminate)); try reflexivity.
        elim H; reflexivity.
      * apply IHP; exact H.
    + intros lex H.
      rewrite parsePrimary_S in H. rewrite (parsePrimary_S (S fuel) lex), (parsePrimary_S fuel lex).
      destruct ((token lex =? scanner.Int) || (token lex =? scanner.Float)); [reflexivity|].
      destruct (token lex =? rune_of "("); [|reflexivity].
      destruct (parseExpr ParseFloat fuel (next lex)) as [e l'|err l'| |] eqn:E;
        try (rewrite IHE, E by (rewrite E; discriminate)); try reflexivity.
      elim H; reflexivity.
    + intros lex H.
      rewrite parseExpr_S in H. rewrite (parseExpr_S (S fuel) lex), (parseExpr_S fuel lex).
      apply IHB; exact H.
Qed.

Lemma parseExpr_fuel_mono fuel fuel' lex :
  (fuel <= fuel')%nat ->
  parseExpr ParseFloat fuel lex <> OutOfFuel ->
  parseExpr ParseFloat fuel' lex = parseExpr ParseFloat fuel lex.
Proof.
  induction 1 as [|fuel' Hle IH]; [reflexivity|].
  intros H. rewrite <- (IH H).
  apply fuel_step. now rewrite (IH H).
Qed.

End Unfolding.

(** ** What the look-ahead tells about the stream *)

Lemma token_rune_inv r (a : ascii) :
  token (lexOf r) = rune_of a ->
  exists r', r = TRune (N_of_ascii a) :: r'.
Proof.
  destruct r as [|t r].
  { rewrite token_lexOf_nil. unfold rune_of, scanner.EOF. lia. }
  rewrite token_lexOf_cons. unfold rune_of.
  destruct t; cbn; unfold scanner.Ident, scanner.Int, scanner.Float; try lia.
  intros H. apply N2Z.inj in H. subst. now exists r.
Qed.

Lemma token_operator_inv r :
  1 <= priority (token (lexOf r)) ->
  exists c r', r = TRune c :: r' /\ token (lexOf r) = Z.of_N c.
Proof.
  destruct r as [|t r]; [cbn; lia|].
  rewrite token_lexOf_cons.
  destruct t; cbn; try lia.
  intros _. now exists c, r.
Qed.

Lemma token_number_inv r :
  (token (lexOf r) =? scanner.Int) || (token (lexOf r) =? scanner.Float) = true ->
  exists t r', r = t :: r' /\ isNumber t = true.
Proof.
  destruct r as [|t r]; [discriminate|].
  rewrite token_lexOf_cons. intros H.
  exists t, r. split; [reflexivity|].
  destruct t; cbn in *; try reflexivity; try discriminate.
  unfold scanner.Int, scanner.Float in H.
  apply orb_true_iff in H. destruct H as [H|H]; apply Z.eqb_eq in H; lia.
Qed.

Lemma sign_priority op :
  (op =? rune_of "+") || (op =? rune_of "-") = true -> priority op = 1.
Proof.
  intros H. unfold priority. rewrite H.
  destruct ((op =? rune_of "*") || (op =? rune_of "/")) eqn:E; [|reflexivity].
  apply orb_true_iff in H, E. unfold rune_of in *. cbn in *.
  destruct H as [H|H], E as [E|E]; apply Z.eqb_eq in H, E; lia.
Qed.

(** ** A successful descent reads the tokens it consumes *)

Section Consumption.

Variable ParseFloat : string -> float64 * option NumError.

Lemma Reads_nonempty r e : Reads ParseFloat r e -> r <> [].
Proof.
  induction 1; try discriminate.
  destruct r1; discriminate.
Qed.

Lemma descent_reads fuel :
  (forall r p e lex', 1 <= p ->
     parseBinary ParseFloat fuel (lexOf r) p = Ok e lex' ->
     exists pre r', r = pre ++ r' /\ lex' = lexOf r' /\ Reads ParseFloat pre e) /\
  (forall r p0 p l e lex', 1 <= p0 ->
     forPrio ParseFloat fuel (lexOf r) p0 p l = Ok e lex' ->
     exists pre r', r = pre ++ r' /\ lex' = lexOf r' /\
       forall r0, Reads ParseFloat r0 l -> Reads ParseFloat (r0 ++ pre) e) /\
  (forall r p l e lex', 1 <= p ->
     forSame ParseFloat fuel (lexOf r) p l = Ok e lex' ->
     exists pre r', r = pre ++ r' /\ lex' = lexOf r' /\
       forall r0, Reads ParseFloat r0 l -> Reads ParseFloat (r0 ++ pre) e) /\
  (forall r e lex',
     parseUnary ParseFloat fuel (lexOf r) = Ok e lex' ->
     exists pre r', r = pre ++ r' /\ lex' = lexOf r' /\ Reads ParseFloat pre e) /\
  (forall r e lex',
     parsePrimary ParseFloat fuel (lexOf r) = Ok e lex' ->
     exists pre r', r = pre ++ r' /\ lex' = lexOf r' /\ Reads ParseFloat pre e) /\
  (forall r e lex',
     parseExpr ParseFloat fuel (lexOf r) = Ok e lex' ->
     exists pre r', r = pre ++ r' /\ lex' = lexOf r' /\ Reads ParseFloat pre e).
Proof.
  induction fuel as [|fuel IH].
  - repeat split; intros; discriminate.
  - destruct IH as (IHB & IHFP & IHFS & IHU & IHP & IHE).
    repeat split.
    + (* parseBinary *)
      intros r p e lex' Hp H. rewrite parseBinary_S in H.
      destruct (parseUnary ParseFloat fuel (lexOf r)) as [l l1| | |] eqn:E; try discriminate.
      destruct (IHU _ _ _ E) as (pre1 & r1 & -> & -> & R1).
      destruct (IHFP _ _ _ _ _ _ Hp H) as (pre2 & r2 & -> & -> & R2).
      exists (pre1 ++ pre2), r2. rewrite app_assoc. auto.
    + (* forPrio *)
      intros r p0 p l e lex' Hp H. rewrite forPrio_S in H.
      destruct (p >=? p0) eqn:G.
      * destruct (forSame ParseFloat fuel (lexOf r) p l) as [l1 lex1| | |] eqn:E; try discriminate.
        assert (Hp1 : 1 <= p) by lia.
        destruct (IHFS _ _ _ _ _ Hp1 E) as (pre1 & r1 & -> & -> & R1).
        destruct (IHFP _ _ _ _ _ _ Hp H) as (pre2 & r2 & -> & -> & R2).
        exists (pre1 ++ pre2), r2. rewrite !app_assoc. repeat split.
        intros r0 R0. rewrite app_assoc. auto.
      * injection H as <- <-. exists [], r. repeat split.
        intros r0 R0. now rewrite app_nil_r.
    + (* forSame *)
      intros r p l e lex' Hp H. rewrite forSame_S in H.
      destruct (priority (token (lexOf r)) =? p) eqn:G.
      * apply Z.eqb_eq in G.
        destruct (token_operator_inv r) as (c & r1 & -> & Hc); [lia|].
        rewrite next_lexOf_cons in H.
        destruct (parseBinary ParseFloat fuel (lexOf r1) (p + 1)) as [y lex1| | |] eqn:E;
          try discriminate.
        assert (Hp2 : 1 <= p + 1) by lia.
        destruct (IHB _ _ _ _ Hp2 E) as (pre1 & r2 & -> & -> & R1).
        destruct (IHFS _ _ _ _ _ Hp H) as (pre2 & r3 & -> & -> & R2).
        exists (TRune c :: pre1 ++ pre2), r3.
        repeat split.
        -- cbn. now rewrite app_assoc.
        -- intros r0 R0.
           replace (r0 ++ TRune c :: pre1 ++ pre2) with ((r0 ++ TRune c :: pre1) ++ pre2)
             by (rewrite <- app_assoc; reflexivity).
           apply R2. rewrite Hc. constructor; auto. rewrite <- Hc. lia.
      * injection H as <- <-. exists [], r. repeat split.
        intros r0 R0. now rewrite app_nil_r.
    + (* parseUnary *)
      intros r e lex' H. rewrite parseUnary_S in H.
      destruct ((token (lexOf r) =? rune_of "+") || (token (lexOf r) =? rune_of "-")) eqn:G.
      * pose proof (sign_priority _ G) as Hs.
        destruct (token_operator_inv r) as (c & r1 & -> & Hc); [lia|].
        rewrite next_lexOf_cons in H.
        destruct (parseUnary ParseFloat fuel (lexOf r1)) as [x lex1| | |] eqn:E; try discriminate.
        destruct (IHU _ _ _ E) as (pre1 & r2 & -> & -> & R1).
        injection H as <- <-.
        exists (TRune c :: pre1), r2. repeat split.
        constructor; [|assumption]. rewrite <- Hc. exact Hs.
      * eauto.
    + (* parsePrimary *)
      intros r e lex' H. rewrite parsePrimary_S in H.
      destruct ((token (lexOf r) =? scanner.Int) || (token (lexOf r) =? scanner.Float)) eqn:G.
      * destruct (token_number_inv r G) as (t & r1 & -> & Ht).
        rewrite text_lexOf_cons, next_lexOf_cons in H.
        destruct (ParseFloat (tok_text t)) as [f [err|]] eqn:Ef; try discriminate.
        injection H as <- <-.
        exists [t], r1. repeat split. now constructor.
      * destruct (token (lexOf r) =? rune_of "(") eqn:G1; try discriminate.
        apply Z.eqb_eq in G1. destruct (token_rune_inv _ _ G1) as (r1 & ->).
        rewrite next_lexOf_cons in H.
        destruct (parseExpr ParseFloat fuel (lexOf r1)) as [x lex1| | |] eqn:E; try discriminate.
        destruct (IHE _ _ _ E) as (pre1 & r2 & -> & -> & R1).
        destruct (token (lexOf r2) =? rune_of ")") eqn:G2; try discriminate.
        apply Z.eqb_eq in G2. destruct (token_rune_inv _ _ G2) as (r3 & ->).
        cbn [negb] in H. rewrite next_lexOf_cons in H.
        injection H as <- <-.
        exists (tLParen :: pre1 ++ [tRParen]), r3. repeat split.
        -- cbn. now rewrite <- app_assoc.
        -- now constructor.
    + (* parseExpr *)
      intros r e lex' H. rewrite parseExpr_S in H.
      eapply IHB; [|exact H]. lia.
Qed.

End Consumption.

(** ** Streams that look alike are parsed alike *)

Section Simulation.

Variable ParseFloat : string -> float64 * option NumError.
Variable Rlit : float64 -> float64 -> Prop.

Lemma looksLike_rune c t : looksLike ParseFloat Rlit (TRune c) t -> t = TRune c.
Proof. unfold looksLike. cbn [isNumber]. auto. Qed.

Lemma looksLike_number t t' :
  looksLike ParseFloat Rlit t t' -> isNumber t = true ->
  isNumber t' = true /\
  forall f, ParseFloat (tok_text t) = (f, None) ->
            exists f', ParseFloat (tok_text t') = (f', None) /\ Rlit f f'.
Proof. unfold looksLike. intros H Ht. now rewrite Ht in H. Qed.

Lemma looksLike_priority t t' :
  looksLike ParseFloat Rlit t t' -> priority (tok_rune t') = priority (tok_rune t).
Proof.
  unfold looksLike. destruct (isNumber t) eqn:Ht.
  - intros [Ht' _]. destruct t, t'; try discriminate; reflexivity.
  - now intros ->.
Qed.

(** The look-ahead on both sides. *)
Lemma alike_look r r' sfx :
  alike ParseFloat Rlit r r' -> closes sfx ->
  (r = [] /\ r' = [] /\ priority (token (lexOf (r' ++ sfx))) = 0) \/
  (exists t t' r1 r1', r = t :: r1 /\ r' = t' :: r1' /\
     looksLike ParseFloat Rlit t t' /\ alike ParseFloat Rlit r1 r1').
Proof.
  intros [|t t' r1 r1' Hv Hr] Hs.
  - left. repeat split. cbn [app]. destruct sfx as [|x sfx]; [reflexivity|].
    rewrite token_lexOf_cons. exact Hs.
  - right. now exists t, t', r1, r1'.
Qed.

Lemma alike_operator r r' sfx c r1 :
  alike ParseFloat Rlit r r' -> r = TRune c :: r1 ->
  exists r1', r' = TRune c :: r1' /\ alike ParseFloat Rlit r1 r1' /\
    token (lexOf (r' ++ sfx)) = Z.of_N c.
Proof.
  intros H ->. inversion H as [|t t' r0 r1' Hv Hr]; subst.
  apply looksLike_rune in Hv. subst. exists r1'. now repeat split.
Qed.

Lemma alike_priority r r' sfx :
  alike ParseFloat Rlit r r' -> closes sfx ->
  priority (token (lexOf (r' ++ sfx))) = priority (token (lexOf r)).
Proof.
  intros H Hs.
  destruct (alike_look _ _ _ H Hs) as [(-> & -> & E)|(t & t' & r1 & r1' & -> & -> & Hv & _)].
  - exact E.
  - cbn [app]. rewrite !token_lexOf_cons. now apply looksLike_priority.
Qed.

Lemma alike_token r r' sfx (a : ascii) :
  alike ParseFloat Rlit r r' -> closes sfx -> 1 <= priority (rune_of a) ->
  (token (lexOf (r' ++ sfx)) =? rune_of a) = (token (lexOf r) =? rune_of a).
Proof.
  intros H Hs Ha.
  pose proof (alike_priority _ _ _ H Hs) as Hp.
  destruct (token (lexOf r) =? rune_of a) eqn:E.
  - apply Z.eqb_eq in E. destruct (token_rune_inv _ _ E) as (r1 & ->).
    destruct (alike_operator _ _ sfx _ _ H eq_refl) as (r1' & E1 & _ & E2).
    rewrite E2. apply Z.eqb_refl.
  - destruct (token (lexOf (r' ++ sfx)) =? rune_of a) eqn:E'; [|reflexivity].
    apply Z.eqb_eq in E'. apply Z.eqb_neq in E.
    rewrite E' in Hp. rewrite Hp in Ha.
    destruct (token_operator_inv r Ha) as (c & r1 & -> & Hc).
    destruct (alike_operator _ _ sfx _ _ H eq_refl) as (r1' & E1 & _ & E2).
    rewrite E2 in E'. rewrite Hc in E. now elim E.
Qed.

Lemma number_token t r :
  isNumber t = true ->
  (token (lexOf (t :: r)) =? scanner.Int) || (token (lexOf (t :: r)) =? scanner.Float) = true.
Proof. rewrite token_lexOf_cons. destruct t; try discriminate; reflexivity. Qed.

Variable sfx : list tok.
Hypothesis Hsfx : closes sfx.

Lemma descent_alike fuel :
  (forall r r' p e lex', 1 <= p -> alike ParseFloat Rlit r r' ->
     parseBinary ParseFloat fuel (lexOf r) p = Ok e lex' ->
     exists r1 r1' e', lex' = lexOf r1 /\ alike ParseFloat Rlit r1 r1' /\ similar Rlit e e' /\
       parseBinary ParseFloat fuel (lexOf (r' ++ sfx)) p = Ok e' (lexOf (r1' ++ sfx))) /\
  (forall r r' p0 p l l' e lex', 1 <= p0 -> alike ParseFloat Rlit r r' -> similar Rlit l l' ->
     forPrio ParseFloat fuel (lexOf r) p0 p l = Ok e lex' ->
     exists r1 r1' e', lex' = lexOf r1 /\ alike ParseFloat Rlit r1 r1' /\ similar Rlit e e' /\
       forPrio ParseFloat fuel (lexOf (r' ++ sfx)) p0 p l' = Ok e' (lexOf (r1' ++ sfx))) /\
  (forall r r' p l l' e lex', 1 <= p -> alike ParseFloat Rlit r r' -> similar Rlit l l' ->
     forSame ParseFloat fuel (lexOf r) p l = Ok e lex' ->
     exists r1 r1' e', lex' = lexOf r1 /\ alike ParseFloat Rlit r1 r1' /\ similar Rlit e e' /\
       forSame ParseFloat fuel (lexOf (r' ++ sfx)) p l' = Ok e' (lexOf (r1' ++ sfx))) /\
  (forall r r' e lex', alike ParseFloat Rlit r r' ->
     parseUnary ParseFloat fuel (lexOf r) = Ok e lex' ->
     exists r1 r1' e', lex' = lexOf r1 /\ alike ParseFloat Rlit r1 r1' /\ similar Rlit e e' /\
       parseUnary ParseFloat fuel (lexOf (r' ++ sfx)) = Ok e' (lexOf (r1' ++ sfx))) /\
  (forall r r' e lex', alike ParseFloat Rlit r r' ->
     parsePrimary ParseFloat fuel (lexOf r) = Ok e lex' ->
     exists r1 r1' e', lex' = lexOf r1 /\ alike ParseFloat Rlit r1 r1' /\ similar Rlit e e' /\
       parsePrimary ParseFloat fuel (lexOf (r' ++ sfx)) = Ok e' (lexOf (r1' ++ sfx))) /\
  (forall r r' e lex', alike ParseFloat Rlit r r' ->
     parseExpr ParseFloat fuel (lexOf r) = Ok e lex' ->
     exists r1 r1' e', lex' = lexOf r1 /\ alike ParseFloat Rlit r1 r1' /\ similar Rlit e e' /\
       parseExpr ParseFloat fuel (lexOf (r' ++ sfx)) = Ok e' (lexOf (r1' ++ sfx))).
Proof.
  induction fuel as [|fuel IH].
  - repeat split; intros; discriminate.
  - destruct IH as (IHB & IHFP & IHFS & IHU & IHP & IHE).
    repeat split.
    + (* parseBinary *)
      intros r r' p e lex' Hp A H. rewrite parseBinary_S in H |- *.
      destruct (parseUnary ParseFloat fuel (lexOf r)) as [l l1| | |] eqn:E; try discriminate.
      destruct (IHU _ _ _ _ A E) as (r1 & r1' & l' & -> & A1 & S1 & ->).
      rewrite (alike_priority _ _ _ A1 Hsfx).
      now apply IHFP with (r := r1) (l := l).
    + (* forPrio *)
      intros r r' p0 p l l' e lex' Hp A S0 H. rewrite forPrio_S in H |- *.
      destruct (p >=? p0) eqn:G.
      * destruct (forSame ParseFloat fuel (lexOf r) p l) as [l1 lex1| | |] eqn:E; try discriminate.
        assert (Hp1 : 1 <= p) by lia.
        destruct (IHFS _ _ _ _ _ _ _ Hp1 A S0 E) as (r1 & r1' & l1' & -> & A1 & S1 & ->).
        now apply IHFP with (r := r1) (l := l1).
      * injection H as <- <-. now exists r, r', l'.
    + (* forSame *)
      intros r r' p l l' e lex' Hp A S0 H. rewrite forSame_S in H |- *.
      rewrite (alike_priority _ _ _ A Hsfx).
      destruct (priority (token (lexOf r)) =? p) eqn:G.
      * apply Z.eqb_eq in G.
        destruct (token_operator_inv r) as (c & r0 & -> & Hc); [lia|].
        destruct (alike_operator _ _ sfx _ _ A eq_refl) as (r0' & -> & A0 & Hc').
        rewrite Hc'. rewrite Hc in H. cbn [app]. rewrite next_lexOf_cons in H |- *.
        destruct (parseBinary ParseFloat fuel (lexOf r0) (p + 1)) as [y lex1| | |] eqn:E;
          try discriminate.
        assert (Hp2 : 1 <= p + 1) by lia.
        destruct (IHB _ _ _ _ _ Hp2 A0 E) as (r1 & r1' & y' & -> & A1 & S1 & ->).
        apply IHFS with (r := r1) (l := binary (Z.of_N c) l y); auto.
        now constructor.
      * injection H as <- <-. now exists r, r', l'.
    + (* parseUnary *)
      intros r r' e lex' A H. rewrite parseUnary_S in H |- *.
      rewrite !(alike_token _ _ _ _ A Hsfx) by (cbn; lia).
      destruct ((token (lexOf r) =? rune_of "+") || (token (lexOf r) =? rune_of "-")) eqn:G.
      * pose proof (sign_priority _ G) as Hs.
        destruct (token_operator_inv r) as (c & r0 & -> & Hc); [lia|].
        destruct (alike_operator _ _ sfx _ _ A eq_refl) as (r0' & -> & A0 & Hc').
        rewrite Hc'. rewrite Hc in H. cbn [app]. rewrite next_lexOf_cons in H |- *.
        destruct (parseUnary ParseFloat fuel (lexOf r0)) as [x lex1| | |] eqn:E; try discriminate.
        destruct (IHU _ _ _ _ A0 E) as (r1 & r1' & x' & -> & A1 & S1 & ->).
        injection H as <- <-. exists r1, r1', (unary (Z.of_N c) x').
        repeat split; auto. now constructor.
      * now apply IHP with (r := r).
    + (* parsePrimary *)
      intros r r' e lex' A H. rewrite parsePrimary_S in H |- *.
      destruct ((token (lexOf r) =? scanner.Int) || (token (lexOf r) =? scanner.Float)) eqn:G.
      * destruct (token_number_inv r G) as (t & r0 & -> & Ht).
        inversion A as [|? t' ? r0' Hv A0]; subst.
        destruct (looksLike_number _ _ Hv Ht) as [Ht' Hf].
        cbn [app]. rewrite (number_token _ _ Ht').
        rewrite text_lexOf_cons, next_lexOf_cons in H |- *.
        destruct (ParseFloat (tok_text t)) as [f [err|]]; try discriminate.
        destruct (Hf f eq_refl) as (f' & -> & Rf).
        injection H as <- <-. exists r0, r0', (num f').
        repeat split; auto. now constructor.
      * destruct (token (lexOf r) =? rune_of "(") eqn:G1; try discriminate.
        apply Z.eqb_eq in G1. destruct (token_rune_inv _ _ G1) as (r0 & ->).
        destruct (alike_operator _ _ sfx _ _ A eq_refl) as (r0' & -> & A0 & Hc').
        rewrite Hc'. cbn [app]. rewrite next_lexOf_cons in H |- *.
        replace ((Z.of_N (N_of_ascii "(") =? scanner.Int) || (Z.of_N (N_of_ascii "(") =? scanner.Float))
          with false by reflexivity.
        replace (Z.of_N (N_of_ascii "(") =? rune_of "(") with true by reflexivity.
        destruct (parseExpr ParseFloat fuel (lexOf r0)) as [x lex1| | |] eqn:E; try discriminate.
        destruct (IHE _ _ _ _ A0 E) as (r1 & r1' & x' & -> & A1 & S1 & ->).
        destruct (token (lexOf r1) =? rune_of ")") eqn:G2; try discriminate.
        apply Z.eqb_eq in G2. destruct (token_rune_inv _ _ G2) as (r2 & ->).
        destruct (alike_operator _ _ sfx _ _ A1 eq_refl) as (r2' & -> & A2 & Hc2).
        rewrite Hc2. cbn [app]. rewrite next_lexOf_cons in H |- *.
        replace (negb (Z.of_N (N_of_ascii ")") =? rune_of ")")) with false by reflexivity.
        cbn [negb] in H. injection H as <- <-. now exists r2, r2', x'.
    + (* parseExpr *)
      intros r r' e lex' A H. rewrite parseExpr_S in H |- *.
      now apply IHB with (r := r).
Qed.

End Simulation.

(** The same stream on both sides. *)
Lemma alike_refl ParseFloat r : alike ParseFloat eq r r.
Proof.
  induction r as [|t r IH]; constructor; auto.
  unfold looksLike. destruct (isNumber t); [|reflexivity].
  split; [reflexivity|]. intros f Hf. now exists f.
Qed.

Lemma similar_eq e e' : similar eq e e' -> e' = e.
Proof. induction 1; congruence. Qed.

(** ** The eager parser against the tree-building parser *)

Section Eager.

Variable ParseFloat : string -> float64 * option NumError.

Lemma evalparseBinary_S fuel lex prio0 :
  evalparseBinary ParseFloat (S fuel) lex prio0 =
  match evalparseUnary ParseFloat fuel lex with
  | Ok left_ lex => evalForPrio ParseFloat fuel lex prio0 (priority (token lex)) left_
  | Err err lex => Err (InUnary (lexString lex) err) lex
  | Panic => Panic
  | OutOfFuel => OutOfFuel
  end.
Proof. reflexivity. Qed.

Lemma evalForPrio_S fuel lex prio0 prio left_ :
  evalForPrio ParseFloat (S fuel) lex prio0 prio left_ =
  if prio >=? prio0 then
    match evalForSame ParseFloat fuel lex prio left_ with
    | Ok left_ lex => evalForPrio ParseFloat fuel lex prio0 (prio - 1) left_
    | r => r
    end
  else Ok (num (evalDropErr left_)) lex.
Proof. reflexivity. Qed.

Lemma evalForSame_S fuel lex prio left_ :
  evalForSame ParseFloat (S fuel) lex prio left_ =
  if priority (token lex) =? prio then
    match evalparseBinary ParseFloat fuel (next lex) (prio + 1) with
    | Ok right_ lex' =>
        evalForSame ParseFloat fuel lex' prio
          (binary (token lex) (num (evalDropErr left_)) right_)
    | Err err lex' => Err (InUnary (lexString lex') err) lex'
    | Panic => Panic
    | OutOfFuel => OutOfFuel
    end
  else Ok left_ lex.
Proof. reflexivity. Qed.

Lemma evalparseUnary_S fuel lex :
  evalparseUnary ParseFloat (S fuel) lex =
  if (token lex =? rune_of "+") || (token lex =? rune_of "-") then
    match evalparseUnary ParseFloat fuel (next lex) with
    | Ok e lex' => Ok (unary (token lex) (num (evalDropErr e))) lex'
    | Err err lex' => Err (InUnary (lexString lex') err) lex'
    | Panic => Panic
    | OutOfFuel => OutOfFuel
    end
  else evalparsePrimary ParseFloat fuel lex.
Proof. reflexivity. Qed.

Lemma evalparsePrimary_S fuel lex :
  evalparsePrimary ParseFloat (S fuel) lex =
  if (token lex =? scanner.Int) || (token lex =? scanner.Float) then
    match ParseFloat (text lex) with
    | (_, Some err) => Err (BadFloat (lexString lex) err) lex
    | (f, None) => Ok (num f) (next lex)
    end
  else if token lex =? rune_of "(" then
    match evalparseExpr ParseFloat fuel (next lex) with
    | Ok e lex' =>
        if negb (token lex' =? rune_of ")") then Err (WantParen (lexString lex')) lex'
        else Ok (num (evalDropErr e)) (next lex')
    | Err _ _ => Panic
    | Panic => Panic
    | OutOfFuel => OutOfFuel
    end
  else Err (Unexpected (lexString lex)) lex.
Proof. reflexivity. Qed.

Lemma evalparseExpr_S fuel lex :
  evalparseExpr ParseFloat (S fuel) lex = evalparseBinary ParseFloat fuel lex 1.
Proof. reflexivity. Qed.

Lemma collapsed_sameValue e e' : collapsed e e' -> sameValue e e'.
Proof. unfold collapsed, sameValue. now intros ->. Qed.

Lemma agree_weaken (P Q : Expr -> Expr -> Prop) r r' :
  (forall e e', P e e' -> Q e e') -> agree P r r' -> agree Q r r'.
Proof.
  intros HPQ. destruct r, r'; cbn; auto.
  intros [-> H]. auto.
Qed.

Lemma eager_agrees fuel :
  (forall lex p,
     agree collapsed (parseBinary ParseFloat fuel lex p)
                     (evalparseBinary ParseFloat fuel lex p)) /\
  (forall lex p0 p l l', sameValue l l' ->
     agree collapsed (forPrio ParseFloat fuel lex p0 p l)
                     (evalForPrio ParseFloat fuel lex p0 p l')) /\
  (forall lex p l l', sameValue l l' ->
     agree sameValue (forSame ParseFloat fuel lex p l)
                     (evalForSame ParseFloat fuel lex p l')) /\
  (forall lex,
     agree sameValue (parseUnary ParseFloat fuel lex)
                     (evalparseUnary ParseFloat fuel lex)) /\
  (forall lex,
     agree collapsed (parsePrimary ParseFloat fuel lex)
                     (evalparsePrimary ParseFloat fuel lex)) /\
  (forall lex,
     agree collapsed (parseExpr ParseFloat fuel lex)
                     (evalparseExpr ParseFloat fuel lex)).
Proof.
  induction fuel as [|fuel IH].
  - repeat split; intros; exact I.
  - destruct IH as (IHB & IHFP & IHFS & IHU & IHP & IHE).
    repeat split.
    + (* parseBinary *)
      intros lex p. rewrite parseBinary_S, evalparseBinary_S.
      pose proof (IHU lex) as A.
      destruct (parseUnary ParseFloat fuel lex) as [l l1|err l1| |],
               (evalparseUnary ParseFloat fuel lex) as [l' l1'|err' l1'| |];
        cbn [agree] in A |- *; try contradiction; auto.
      * destruct A as [-> A]. now apply IHFP.
      * destruct A as (-> & -> & A). repeat split. exact A.
    + (* forPrio *)
      intros lex p0 p l l' V. rewrite forPrio_S, evalForPrio_S.
      destruct (p >=? p0).
      * pose proof (IHFS lex p l l' V) as A.
        destruct (forSame ParseFloat fuel lex p l) as [l1 lex1|err lex1| |],
                 (evalForSame ParseFloat fuel lex p l') as [l1' lex1'|err' lex1'| |];
          cbn [agree] in A |- *; try contradiction; auto.
        destruct A as [-> A]. now apply IHFP.
      * cbn [agree]. split; [reflexivity|]. unfold collapsed. now rewrite V.
    + (* forSame *)
      intros lex p l l' V. rewrite forSame_S, evalForSame_S.
      destruct (priority (token lex) =? p).
      * pose proof (IHB (next lex) (p + 1)) as A.
        destruct (parseBinary ParseFloat fuel (next lex) (p + 1)) as [y lex1|err lex1| |],
                 (evalparseBinary ParseFloat fuel (next lex) (p + 1)) as [y' lex1'|err' lex1'| |];
          cbn [agree] in A |- *; try contradiction; auto.
        -- destruct A as [-> A]. apply IHFS.
           unfold collapsed in A. subst y'. unfold sameValue in *.
           rewrite V. reflexivity.
        -- destruct A as (-> & -> & A). repeat split. exact A.
      * cbn [agree]. now split.
    + (* parseUnary *)
      intros lex. rewrite parseUnary_S, evalparseUnary_S.
      destruct ((token lex =? rune_of "+") || (token lex =? rune_of "-")).
      * pose proof (IHU (next lex)) as A.
        destruct (parseUnary ParseFloat fuel (next lex)) as [x lex1|err lex1| |],
                 (evalparseUnary ParseFloat fuel (next lex)) as [x' lex1'|err' lex1'| |];
          cbn [agree] in A |- *; try contradiction; auto.
        -- destruct A as [-> A]. split; [reflexivity|].
           unfold sameValue in *. rewrite A. reflexivity.
        -- destruct A as (-> & -> & A). repeat split. exact A.
      * eapply agree_weaken; [exact collapsed_sameValue|apply IHP].
    + (* parsePrimary *)
      intros lex. rewrite parsePrimary_S, evalparsePrimary_S.
      destruct ((token lex =? scanner.Int) || (token lex =? scanner.Float)).
      * destruct (ParseFloat (text lex)) as [f [err|]]; cbn [agree throughParen].
        -- now repeat split.
        -- now split.
      * destruct (token lex =? rune_of "(").
        -- pose proof (IHE (next lex)) as A.
           destruct (parseExpr ParseFloat fuel (next lex)) as [x lex1|err lex1| |],
                    (evalparseExpr ParseFloat fuel (next lex)) as [x' lex1'|err' lex1'| |];
             cbn [agree] in A |- *; try contradiction; auto.
           destruct A as [-> A].
           destruct (negb (token lex1 =? rune_of ")")); cbn [agree throughParen].
           ++ now repeat split.
           ++ split; [reflexivity|]. unfold collapsed in *. now subst x'.
        -- cbn [agree throughParen]. now repeat split.
    + (* parseExpr *)
      intros lex. rewrite parseExpr_S, evalparseExpr_S. apply IHB.
Qed.

End Eager.

(** ** The bound on the depth is never reached *)

Section Depth.

Variable ParseFloat : string -> float64 * option NumError.

Lemma Reads_length r e : Reads ParseFloat r e -> (1 <= List.length r)%nat.
Proof.
  intros H. apply Reads_nonempty in H. destruct r; [contradiction|cbn; lia].
Qed.

Lemma descent_terminates fuel :
  (forall r p, 1 <= p -> (4 * List.length r + 4 <= fuel)%nat ->
     parseBinary ParseFloat fuel (lexOf r) p <> OutOfFuel) /\
  (forall r p0 p l, 1 <= p0 ->
     (4 * List.length r + 2 + Z.to_nat (p - p0 + 1) <= fuel)%nat ->
     forPrio ParseFloat fuel (lexOf r) p0 p l <> OutOfFuel) /\
  (forall r p l, 1 <= p -> (4 * List.length r + 1 <= fuel)%nat ->
     forSame ParseFloat fuel (lexOf r) p l <> OutOfFuel) /\
  (forall r, (4 * List.length r + 3 <= fuel)%nat ->
     parseUnary ParseFloat fuel (lexOf r) <> OutOfFuel) /\
  (forall r, (4 * List.length r + 2 <= fuel)%nat ->
     parsePrimary ParseFloat fuel (lexOf r) <> OutOfFuel) /\
  (forall r, (4 * List.length r + 5 <= fuel)%nat ->
     parseExpr ParseFloat fuel (lexOf r) <> OutOfFuel).
Proof.
  induction fuel as [|fuel IH].
  - repeat split; intros; lia.
  - destruct IH as (IHB & IHFP & IHFS & IHU & IHP & IHE).
    repeat split.
    + (* parseBinary *)
      intros r p Hp Hf. rewrite parseBinary_S.
      destruct (parseUnary ParseFloat fuel (lexOf r)) as [l l1| | |] eqn:E; try discriminate.
      * destruct (proj1 (proj2 (proj2 (proj2 (descent_reads ParseFloat fuel)))) _ _ _ E)
          as (pre & r1 & -> & -> & R).
        apply Reads_length in R. rewrite length_app in Hf.
        apply IHFP; [exact Hp|].
        pose proof (priority_range (token (lexOf r1))). lia.
      * exfalso. revert E. apply IHU. lia.
    + (* forPrio *)
      intros r p0 p l Hp Hf. rewrite forPrio_S.
      destruct (p >=? p0) eqn:G; [|discriminate].
      destruct (forSame ParseFloat fuel (lexOf r) p l) as [l1 lex1| | |] eqn:E; try discriminate.
      * assert (Hp1 : 1 <= p) by lia.
        destruct (proj1 (proj2 (proj2 (descent_reads ParseFloat fuel))) _ _ _ _ _ Hp1 E)
          as (pre & r1 & -> & -> & _).
        rewrite length_app in Hf. apply IHFP; [exact Hp|]. lia.
      * exfalso. revert E. apply IHFS; lia.
    + (* forSame *)
      intros r p l Hp Hf. rewrite forSame_S.
      destruct (priority (token (lexOf r)) =? p) eqn:G; [|discriminate].
      apply Z.eqb_eq in G.
      destruct (token_operator_inv r) as (c & r1 & -> & Hc); [lia|].
      rewrite next_lexOf_cons. cbn [List.length] in Hf.
      destruct (parseBinary ParseFloat fuel (lexOf r1) (p + 1)) as [y lex1| | |] eqn:E;
        try discriminate.
      * assert (Hp2 : 1 <= p + 1) by lia.
        destruct (proj1 (descent_reads ParseFloat fuel) _ _ _ _ Hp2 E)
          as (pre & r2 & -> & -> & R).
        rewrite length_app in Hf. apply IHFS; [exact Hp|]. lia.
      * exfalso. revert E. apply IHB; lia.
    + (* parseUnary *)
      intros r Hf. rewrite parseUnary_S.
      destruct ((token (lexOf r) =? rune_of "+") || (token (lexOf r) =? rune_of "-")) eqn:G.
      * pose proof (sign_priority _ G) as Hs.
        destruct (token_operator_inv r) as (c & r1 & -> & Hc); [lia|].
        rewrite next_lexOf_cons. cbn [List.length] in Hf.
        destruct (parseUnary ParseFloat fuel (lexOf r1)) as [x lex1| | |] eqn:E; try discriminate.
        exfalso. revert E. apply IHU; lia.
      * apply IHP. lia.
    + (* parsePrimary *)
      intros r Hf. rewrite parsePrimary_S.
      destruct ((token (lexOf r) =? scanner.Int) || (token (lexOf r) =? scanner.Float)).
      * destruct (ParseFloat (text (lexOf r))) as [f [err|]]; discriminate.
      * destruct (token (lexOf r) =? rune_of "(") eqn:G1; try discriminate.
        apply Z.eqb_eq in G1. destruct (token_rune_inv _ _ G1) as (r1 & ->).
        rewrite next_lexOf_cons. cbn [List.length] in Hf.
        destruct (parseExpr ParseFloat fuel (lexOf r1)) as [x lex1| | |] eqn:E; try discriminate.
        -- destruct (negb (token lex1 =? rune_of ")")); discriminate.
        -- exfalso. revert E. apply IHE; lia.
    + (* parseExpr *)
      intros r Hf. rewrite parseExpr_S. apply IHB; lia.
Qed.

(** [Parse] always answers: an expression or an error. *)
Lemma Parse_total r :
  (exists e, Parse ParseFloat r = Returned e) \/
  (exists err, Parse ParseFloat r = Failed err).
Proof.
  unfold Parse. fold (lexOf r).
  pose proof (proj2 (proj2 (proj2 (proj2 (proj2 (descent_terminates (depth (List.length r)))))))
                r) as T.
  pose proof (proj2 (proj2 (proj2 (proj2 (proj2 (eager_agrees ParseFloat (depth (List.length r)))))))
                (lexOf r)) as A.
  destruct (parseExpr ParseFloat (depth (List.length r)) (lexOf r)) as [e l|err l| |] eqn:E.
  - destruct (negb (token l =? scanner.EOF)); eauto.
  - eauto.
  - destruct (evalparseExpr ParseFloat (depth (List.length r)) (lexOf r)); contradiction.
  - exfalso. apply T; [unfold depth; lia|reflexivity].
Qed.

(** [EvalParse] answers too, unless it panics. *)
Lemma EvalParse_total r :
  (exists e, EvalParse ParseFloat r = Returned e) \/
  (exists err, EvalParse ParseFloat r = Failed err) \/
  EvalParse ParseFloat r = Panicked.
Proof.
  unfold EvalParse. fold (lexOf r).
  pose proof (proj2 (proj2 (proj2 (proj2 (proj2 (descent_terminates (depth (List.length r)))))))
                r) as T.
  pose proof (proj2 (proj2 (proj2 (proj2 (proj2 (eager_agrees ParseFloat (depth (List.length r)))))))
                (lexOf r)) as A.
  destruct (evalparseExpr ParseFloat (depth (List.length r)) (lexOf r)) as [e l|err l| |] eqn:E.
  - destruct (negb (token l =? scanner.EOF)); eauto.
  - eauto.
  - auto.
  - exfalso.
    destruct (parseExpr ParseFloat (depth (List.length r)) (lexOf r)) eqn:E'; try contradiction.
    apply T; [unfold depth; lia|reflexivity].
Qed.

End Depth.

(** ** [Parse] and [EvalParse] as a whole *)

Section TopLevel.

Variable ParseFloat : string -> float64 * option NumError.

Lemma Parse_inv r e :
  Parse ParseFloat r = Returned e ->
  parseExpr ParseFloat (depth (List.length r)) (lexOf r) = Ok e (lexOf []).
Proof.
  unfold Parse. fold (lexOf r). intros H.
  destruct (parseExpr ParseFloat (depth (List.length r)) (lexOf r)) as [e' l|err l| |] eqn:E;
    try discriminate.
  destruct (proj2 (proj2 (proj2 (proj2 (proj2 (descent_reads ParseFloat _))))) _ _ _ E)
    as (pre & r1 & -> & -> & R).
  destruct (token (lexOf r1) =? scanner.EOF) eqn:G; try discriminate.
  apply Z.eqb_eq, token_lexOf_EOF in G. subst r1.
  cbn [negb] in H. now injection H as ->.
Qed.

Lemma Parse_intro r e :
  parseExpr ParseFloat (depth (List.length r)) (lexOf r) = Ok e (lexOf []) ->
  Parse ParseFloat r = Returned e.
Proof.
  unfold Parse. fold (lexOf r). now intros ->.
Qed.

(** The tree [Parse] returns is a reading of the whole input. *)
Lemma Parse_reads r e :
  Parse ParseFloat r = Returned e -> Reads ParseFloat r e.
Proof.
  intros H. apply Parse_inv in H.
  destruct (proj2 (proj2 (proj2 (proj2 (proj2 (descent_reads ParseFloat _))))) _ _ _ H)
    as (pre & r1 & E & E1 & R).
  assert (r1 = []) as ->.
  { apply token_lexOf_EOF. now rewrite <- E1. }
  rewrite app_nil_r in E. now subst.
Qed.

(** Where the tree-building parser returns a tree, the eager parser
    returns the literal of its eager value. *)
Lemma EvalParse_of_Parse r e :
  Parse ParseFloat r = Returned e ->
  EvalParse ParseFloat r = Returned (num (eagerValue e)).
Proof.
  intros H. apply Parse_inv in H.
  unfold EvalParse. fold (lexOf r).
  pose proof (proj2 (proj2 (proj2 (proj2 (proj2 (eager_agrees ParseFloat (depth (List.length r)))))))
                (lexOf r)) as A.
  rewrite H in A.
  destruct (evalparseExpr ParseFloat (depth (List.length r)) (lexOf r)); try contradiction.
  destruct A as [-> ->]. reflexivity.
Qed.

Lemma Parse_of_EvalParse r e' :
  EvalParse ParseFloat r = Returned e' ->
  exists e, Parse ParseFloat r = Returned e /\ e' = num (eagerValue e).
Proof.
  unfold EvalParse, Parse. fold (lexOf r). intros H.
  pose proof (proj2 (proj2 (proj2 (proj2 (proj2 (eager_agrees ParseFloat (depth (List.length r)))))))
                (lexOf r)) as A.
  destruct (evalparseExpr ParseFloat (depth (List.length r)) (lexOf r)) as [x l| | |];
    try discriminate.
  destruct (parseExpr ParseFloat (depth (List.length r)) (lexOf r)) as [y l'| | |];
    try contradiction.
  destruct A as [-> A].
  destruct (negb (token l' =? scanner.EOF)); try discriminate.
  injection H as <-. now exists y.
Qed.

(** Parentheses around a whole input. *)
Lemma Parse_parenthesized r e :
  Parse ParseFloat r = Returned e ->
  Parse ParseFloat (tLParen :: r ++ [tRParen]) = Returned e.
Proof.
  intros H. apply Parse_inv in H. apply Parse_intro.
  assert (Hs : closes [tRParen]) by reflexivity.
  destruct (proj2 (proj2 (proj2 (proj2 (proj2
              (descent_alike ParseFloat eq [tRParen] Hs (depth (List.length r)))))))
              r r e _ (alike_refl _ r) H) as (r1 & r1' & e' & E1 & A1 & S1 & H').
  apply similar_eq in S1. subst e'.
  assert (r1 = []) as ->.
  { apply token_lexOf_EOF. now rewrite <- E1. }
  inversion A1; subst. cbn [app] in H'.
  replace (depth (List.length (tLParen :: r ++ [tRParen])))
    with (S (S (S (S (depth (List.length r) + 4)))))
    by (cbn [List.length]; rewrite length_app; cbn [List.length]; unfold depth; lia).
  rewrite parseExpr_S, parseBinary_S, parseUnary_S.
  change ((token (lexOf (tLParen :: r ++ [tRParen])) =? rune_of "+")
          || (token (lexOf (tLParen :: r ++ [tRParen])) =? rune_of "-")) with false.
  cbv iota. rewrite parsePrimary_S.
  change ((token (lexOf (tLParen :: r ++ [tRParen])) =? scanner.Int)
          || (token (lexOf (tLParen :: r ++ [tRParen])) =? scanner.Float)) with false.
  change (token (lexOf (tLParen :: r ++ [tRParen])) =? rune_of "(") with true.
  cbv iota. rewrite next_lexOf_cons.
  rewrite (parseExpr_fuel_mono ParseFloat (depth (List.length r)))
    by (try lia; rewrite H'; discriminate).
  rewrite H'. reflexivity.
Qed.

End TopLevel.

(** ** Evaluation *)

Lemma Eval_num f : Eval (num f) = (f, None).
Proof. reflexivity. Qed.

(** What [binary.Eval] does at a division whose operands have values. *)
Lemma Eval_division x y a b :
  Eval x = (a, None) -> Eval y = (b, None) ->
  Eval (binary opDiv x y) =
  if F64.eqb b F64.zero then (F64.zero, Some DivisionByZero) else (F64.div a b, None).
Proof. intros Hx Hy. cbn [Eval]. rewrite Hx, Hy. reflexivity. Qed.

(** Where the tree evaluates without an error, its eager value is its
    value. *)
Lemma eagerValue_Eval e v : Eval e = (v, None) -> eagerValue e = v.
Proof.
  revert v. induction e as [f|op x IHx|op x IHx y IHy]; intros v H.
  - now injection H.
  - cbn [Eval] in H. cbn [eagerValue]. unfold evalDropErr. cbn [Eval].
    destruct (Eval x) as [x' [err|]]; [discriminate|].
    rewrite (IHx x' eq_refl). now rewrite H.
  - cbn [Eval] in H. cbn [eagerValue]. unfold evalDropErr. cbn [Eval].
    destruct (Eval x) as [x' [err|]]; [discriminate|].
    destruct (Eval y) as [y' [err|]]; [discriminate|].
    rewrite (IHx x' eq_refl), (IHy y' eq_refl). now rewrite H.
Qed.

(** The two modes agree on every input whose tree evaluates without an
    error: the literal holds exactly the value of the tree. *)
Lemma modes_agree_on_values ParseFloat r t v :
  Parse ParseFloat r = Returned t -> Eval t = (v, None) ->
  EvalParse ParseFloat r = Returned (num v).
Proof.
  intros HP HE. rewrite (EvalParse_of_Parse _ _ _ HP).
  now rewrite (eagerValue_Eval _ _ HE).
Qed.

(** ** Size *)

Lemma wrap_int_spec z : exists k, wrap_int z = z + k * 2 ^ 64.
Proof.
  exists (- ((z + 2 ^ 63) / 2 ^ 64)). unfold wrap_int.
  pose proof (Z.div_mod (z + 2 ^ 63) (2 ^ 64)). lia.
Qed.

Lemma wrap_int_shift z k : wrap_int (z + k * 2 ^ 64) = wrap_int z.
Proof.
  unfold wrap_int.
  replace (z + k * 2 ^ 64 + 2 ^ 63) with (z + 2 ^ 63 + k * 2 ^ 64) by lia.
  now rewrite Z_mod_plus_full.
Qed.

Lemma wrap_int_small z : - 2 ^ 63 <= z < 2 ^ 63 -> wrap_int z = z.
Proof.
  intros H. unfold wrap_int. rewrite Z.mod_small; lia.
Qed.

(** [Len] counts the nodes, in the arithmetic of [int]. *)
Lemma Len_nodes e : Len e = wrap_int (nodes e).
Proof.
  induction e as [f|op x IHx|op x IHx y IHy]; cbn [Len nodes].
  - reflexivity.
  - rewrite IHx. destruct (wrap_int_spec (nodes x)) as [k ->].
    replace (nodes x + k * 2 ^ 64 + 1) with (nodes x + 1 + k * 2 ^ 64) by lia.
    apply wrap_int_shift.
  - rewrite IHx, IHy.
    destruct (wrap_int_spec (nodes x)) as [k ->].
    destruct (wrap_int_spec (nodes y)) as [k' ->].
    destruct (wrap_int_spec (nodes x + k * 2 ^ 64 + (nodes y + k' * 2 ^ 64))) as [k'' ->].
    replace (nodes x + k * 2 ^ 64 + (nodes y + k' * 2 ^ 64) + k'' * 2 ^ 64 + 1)
      with (nodes x + nodes y + 1 + (k + k' + k'') * 2 ^ 64) by lia.
    apply wrap_int_shift.
Qed.

Lemma countIf_app p r1 r2 : countIf p (r1 ++ r2) = countIf p r1 + countIf p r2.
Proof. unfold countIf. rewrite filter_app, length_app. lia. Qed.

Lemma countIf_cons p t r :
  countIf p (t :: r) = (if p t then 1 else 0) + countIf p r.
Proof. unfold countIf. cbn [filter]. destruct (p t); cbn [List.length]; lia. Qed.

Lemma countIf_nil p : countIf p [] = 0.
Proof. reflexivity. Qed.

Lemma Reads_nodes ParseFloat r e :
  Reads ParseFloat r e ->
  nodes e = countIf isNumber r + countIf isOperator r.
Proof.
  induction 1 as [t f Ht Hf|c r x Hc R IH|c r1 r2 x y Hc R1 IH1 R2 IH2|r e R IH];
    cbn [nodes].
  - rewrite !countIf_cons, !countIf_nil, Ht.
    destruct t; try discriminate; reflexivity.
  - rewrite !countIf_cons, IH. cbn [isNumber isOperator]. rewrite Hc.
    change (1 <=? 1) with true. cbv iota. lia.
  - rewrite !countIf_app, !countIf_cons, IH1, IH2. cbn [isNumber isOperator].
    destruct (1 <=? priority (Z.of_N c)) eqn:E; [lia|]. apply Z.leb_gt in E. lia.
  - rewrite !countIf_cons, !countIf_app, !countIf_cons, !countIf_nil, IH.
    change (isNumber tLParen) with false. change (isNumber tRParen) with false.
    change (isOperator tLParen) with false. change (isOperator tRParen) with false.
    cbv iota. lia.
Qed.

(** ** Strings *)

Lemma sapp_assoc (a b c : string) : ((a ++ b) ++ c = a ++ (b ++ c))%string.
Proof. induction a as [|x a IH]; cbn; [reflexivity|now rewrite IH]. Qed.

Lemma sapp_nil_r (a : string) : (a ++ EmptyString)%string = a.
Proof. induction a as [|x a IH]; cbn; [reflexivity|now rewrite IH]. Qed.

Lemma slength_app (a b : string) :
  String.length (a ++ b)%string = (String.length a + String.length b)%nat.
Proof. induction a as [|x a IH]; cbn; [reflexivity|now rewrite IH]. Qed.

(** ** Characters, as the scanner classifies them *)

Lemma decimal_not_space c :
  textscanner.isDecimal c = true -> textscanner.isWhitespace c = false.
Proof. ascii_cases c; intros H; try discriminate H; reflexivity. Qed.

Lemma decimal_not_ident c :
  textscanner.isDecimal c = true -> textscanner.isIdentRune c 0 = false.
Proof. ascii_cases c; intros H; try discriminate H; reflexivity. Qed.

Lemma decimal_not_point c :
  textscanner.isDecimal c = true -> Ascii.eqb c "." = false.
Proof. ascii_cases c; intros H; try discriminate H; reflexivity. Qed.

Lemma decimal_not_sign c :
  textscanner.isDecimal c = true -> Ascii.eqb c "+" = false /\ Ascii.eqb c "-" = false.
Proof. ascii_cases c; intros H; try discriminate H; split; reflexivity. Qed.

Lemma decimal_not_radix c :
  textscanner.isDecimal c = true ->
  Ascii.eqb (textscanner.lower c) "x" = false /\
  Ascii.eqb (textscanner.lower c) "o" || Ascii.eqb (textscanner.lower c) "b" = false.
Proof. ascii_cases c; intros H; try discriminate H; split; reflexivity. Qed.

Lemma decimal_is_ascii c :
  textscanner.isDecimal c = true -> (N_of_ascii c <? 128)%N = true.
Proof. ascii_cases c; intros H; try discriminate H; reflexivity. Qed.

Lemma digit_isDecimal z : 0 <= z < 10 -> textscanner.isDecimal (fmt.digit z) = true.
Proof.
  intros H.
  assert (z = 0 \/ z = 1 \/ z = 2 \/ z = 3 \/ z = 4 \/ z = 5 \/ z = 6 \/ z = 7 \/ z = 8 \/ z = 9)
    as E by lia.
  repeat (destruct E as [->|E]; [reflexivity|]). now subst.
Qed.

Lemma boundary_stops rest : boundary rest -> stops rest.
Proof. destruct rest as [|c rest]; cbn; [auto|now intros ->]. Qed.

Lemma digits_run ds rest :
  allDecimal ds -> stops rest ->
  textscanner.digits false (ds ++ rest)%string = (ds, rest).
Proof.
  unfold textscanner.digits. intros Hd Hs.
  induction ds as [|c ds IH]; cbn [String.append textscanner.span].
  - destruct rest as [|c rest]; [reflexivity|].
    cbn [textscanner.span]. cbn in Hs. now rewrite Hs.
  - destruct Hd as [Hc Hd]. rewrite Hc. cbn [orb]. now rewrite (IH Hd).
Qed.

Lemma decimal_run ds rest :
  allDecimal ds ->
  match rest with
  | EmptyString => True
  | String c _ => textscanner.isDecimal c = false
  end ->
  textscanner.span textscanner.isDecimal (ds ++ rest)%string = (ds, rest).
Proof.
  intros Hd Hs.
  induction ds as [|c ds IH]; cbn [String.append textscanner.span].
  - destruct rest as [|c rest]; [reflexivity|].
    cbn [textscanner.span]. now rewrite Hs.
  - destruct Hd as [Hc Hd]. rewrite Hc. now rewrite (IH Hd).
Qed.

(** ** Scanning a printed literal, an operator, a space *)

(** The integer part of a number made of decimal digits and followed by
    a point. *)
Lemma scan_integer_part c ds tail :
  textscanner.isDecimal c = true -> allDecimal ds ->
  exists pre s1 ip,
    textscanner.scanPrefix (String c (ds ++ String "." tail)) = (pre, false, s1) /\
    textscanner.digits false s1 = (ip, String "." tail) /\
    (pre ++ ip)%string = String c ds.
Proof.
  intros Hc Hd. unfold textscanner.scanPrefix.
  assert (Hp : stops (String "." tail)) by reflexivity.
  destruct (Ascii.eqb c "0") eqn:E0.
  - exists (String c EmptyString), (ds ++ String "." tail)%string, ds.
    split; [|split; [now apply digits_run|reflexivity]].
    destruct ds as [|c' ds]; cbn [String.append]; [reflexivity|].
    destruct Hd as [Hc' _]. destruct (decimal_not_radix _ Hc') as [-> ->]. reflexivity.
  - exists EmptyString, (String c (ds ++ String "." tail)), (String c ds).
    split; [reflexivity|]. split; [|reflexivity].
    change (String c (ds ++ String "." tail))%string
      with (String c ds ++ String "." tail)%string.
    apply digits_run; [now split|exact Hp].
Qed.

Lemma scanExponent_boundary rest :
  boundary rest -> textscanner.scanExponent rest = (EmptyString, rest, false).
Proof. destruct rest as [|c rest]; cbn; [reflexivity|now intros ->]. Qed.

(** A run of digits, a point and two digits are one Float token. *)
Lemma Scan_fixed c ds d1 d2 rest :
  textscanner.isDecimal c = true -> allDecimal ds ->
  textscanner.isDecimal d1 = true -> textscanner.isDecimal d2 = true ->
  boundary rest ->
  textscanner.Scan
    ((String c ds ++ String "." (String d1 (String d2 EmptyString))) ++ rest)%string
  = Some (TFloat (String c ds ++ String "." (String d1 (String d2 EmptyString)))%string, rest).
Proof.
  intros Hc Hd H1 H2 Hb.
  rewrite sapp_assoc. cbn [String.append].
  unfold textscanner.Scan. cbn [textscanner.skipWhitespace].
  rewrite (decimal_not_space _ Hc), (decimal_not_ident _ Hc), Hc.
  unfold textscanner.scanNumber.
  destruct (scan_integer_part c ds (String d1 (String d2 rest)) Hc Hd)
    as (pre & s1 & ip & -> & -> & E).
  unfold textscanner.scanFraction.
  change (Ascii.eqb "." ".") with true. cbv iota.
  change (String d1 (String d2 rest))
    with (String d1 (String d2 EmptyString) ++ rest)%string.
  rewrite digits_run; [|cbn; auto|now apply boundary_stops].
  rewrite (scanExponent_boundary _ Hb).
  cbn [orb]. f_equal. f_equal. f_equal.
  rewrite <- sapp_assoc, E. now rewrite sapp_nil_r.
Qed.

Lemma Scan_zero rest :
  boundary rest -> textscanner.Scan ("0.00" ++ rest)%string = Some (TFloat "0.00", rest).
Proof.
  intros Hb.
  exact (Scan_fixed "0" EmptyString "0" "0" rest eq_refl I eq_refl eq_refl Hb).
Qed.

Lemma Scan_space s : textscanner.Scan (String " " s) = textscanner.Scan s.
Proof. reflexivity. Qed.

Lemma dropBOM_ascii c s :
  (N_of_ascii c <? 128)%N = true -> textscanner.dropBOM (String c s) = None.
Proof.
  intros H. destruct s as [|b [|d r]]; cbn [textscanner.dropBOM]; try reflexivity.
  destruct (N.eqb_spec (N_of_ascii c) 239) as [E|_]; [|reflexivity].
  rewrite E in H. discriminate H.
Qed.

(** The ASCII characters [Scan] returns as themselves. *)
Lemma Scan_rune c s :
  textscanner.isWhitespace c = false -> textscanner.isIdentRune c 0 = false ->
  textscanner.isDecimal c = false -> Ascii.eqb c "." = false ->
  (N_of_ascii c <? 128)%N = true ->
  textscanner.Scan (String c s) = Some (TRune (N_of_ascii c), s).
Proof.
  intros Hw Hi Hd Hp Ha. unfold textscanner.Scan.
  cbn [textscanner.skipWhitespace]. rewrite Hw, Hi, Hd, Hp.
  now rewrite (dropBOM_ascii c s Ha).
Qed.

(** Among them the four operators. *)
Lemma Scan_operator op s :
  1 <= priority (Z.of_N op) ->
  textscanner.Scan (fmt.string_of_rune (Z.of_N op) ++ s)%string = Some (TRune op, s).
Proof.
  intros H. unfold priority, rune_of in H.
  destruct ((Z.of_N op =? Z.of_N (N_of_ascii "*")) || (Z.of_N op =? Z.of_N (N_of_ascii "/"))) eqn:E2.
  - apply orb_true_iff in E2.
    destruct E2 as [E|E]; apply Z.eqb_eq, N2Z.inj in E; subst op; now apply Scan_rune.
  - destruct ((Z.of_N op =? Z.of_N (N_of_ascii "+")) || (Z.of_N op =? Z.of_N (N_of_ascii "-"))) eqn:E1;
      [|lia].
    apply orb_true_iff in E1.
    destruct E1 as [E|E]; apply Z.eqb_eq, N2Z.inj in E; subst op; now apply Scan_rune.
Qed.

(** ** What [Sprintf] prints for a literal *)

Lemma uint_allDecimal d : allDecimal (DecimalString.NilEmpty.string_of_uint d).
Proof. induction d; cbn; auto. Qed.

Lemma decimal_shape n :
  exists c ds, fmt.decimal n = String c ds /\
    textscanner.isDecimal c = true /\ allDecimal ds.
Proof.
  unfold fmt.decimal, DecimalString.NilZero.string_of_uint.
  pose proof (uint_allDecimal (N.to_uint n)) as H.
  destruct (N.to_uint n) as [|d|d|d|d|d|d|d|d|d|d];
    cbn [DecimalString.NilEmpty.string_of_uint] in *;
    eexists _, _; (split; [reflexivity|]); cbn in H; try tauto; now split.
Qed.

Lemma Sprintf_plain f :
  plain f ->
  exists c ds d1 d2,
    fmt.Sprintf_2f f = (String c ds ++ String "." (String d1 (String d2 EmptyString)))%string /\
    textscanner.isDecimal c = true /\ allDecimal ds /\
    textscanner.isDecimal d1 = true /\ textscanner.isDecimal d2 = true.
Proof.
  destruct f as [[|]| | |[|] m e]; cbn [plain]; try contradiction; intros _.
  - exists "0"%char, EmptyString, "0"%char, "0"%char. now repeat split.
  - cbn [fmt.Sprintf_2f fmt.sign String.append]. unfold fmt.fixed2.
    set (q := fmt.hundredths m e).
    destruct (decimal_shape (Z.to_N (q / 100))) as (c & ds & -> & Hc & Hd).
    exists c, ds, (fmt.digit (q mod 100 / 10)), (fmt.digit (q mod 10)).
    pose proof (Z.mod_pos_bound q 100 eq_refl).
    pose proof (Z.mod_pos_bound q 10 eq_refl).
    repeat split; auto; apply digit_isDecimal; [|lia].
    split; [apply Z.div_pos; lia|apply Z.div_lt_upper_bound; lia].
Qed.

Lemma Scan_literal f rest :
  plain f -> boundary rest ->
  textscanner.Scan (fmt.Sprintf_2f f ++ rest)%string = Some (TFloat (fmt.Sprintf_2f f), rest).
Proof.
  intros Hf Hb.
  destruct (Sprintf_plain f Hf) as (c & ds & d1 & d2 & -> & Hc & Hd & H1 & H2).
  now apply Scan_fixed.
Qed.

(** ** Scanning the text of a tree *)

Lemma operator_rune op : 1 <= priority op -> Z.of_N (Z.to_N op) = op.
Proof.
  intros H. apply Z2N.id. unfold priority, rune_of in H. cbn in H.
  destruct ((op =? 42) || (op =? 47)) eqn:E2.
  - apply orb_true_iff in E2. destruct E2 as [E|E]; apply Z.eqb_eq in E; lia.
  - destruct ((op =? 43) || (op =? 45)) eqn:E1; [|lia].
    apply orb_true_iff in E1. destruct E1 as [E|E]; apply Z.eqb_eq in E; lia.
Qed.

Lemma Scans_space s r : Scans s r -> Scans (String " " s) r.
Proof.
  intros H. inversion H; subst.
  - apply Scans_end. now rewrite Scan_space.
  - eapply Scans_tok; [|eassumption]. now rewrite Scan_space.
Qed.

Lemma Scans_String e :
  printable e ->
  forall rest r', boundary rest -> Scans rest r' ->
  Scans (Expr_String e ++ rest)%string (toks e ++ r').
Proof.
  induction e as [f|op x IHx|op x IHx y IHy]; cbn [printable Expr_String toks].
  - intros Hf rest r' Hb Hr. cbn [app].
    eapply Scans_tok; [now apply Scan_literal|exact Hr].
  - intros [Hop Hx] rest r' Hb Hr. cbn [app].
    rewrite sapp_assoc. rewrite <- (operator_rune op Hop) at 1.
    eapply Scans_tok.
    + apply Scan_operator. now rewrite operator_rune.
    + now apply IHx.
  - intros (Hop & Hx & Hy) rest r' Hb Hr.
    rewrite <- app_assoc. cbn [app].
    rewrite !sapp_assoc. cbn [String.append].
    apply IHx; [exact Hx|reflexivity|].
    apply Scans_space.
    rewrite <- (operator_rune op Hop) at 1.
    eapply Scans_tok.
    + apply Scan_operator. now rewrite operator_rune.
    + apply Scans_space. now apply IHy.
Qed.

Lemma scanAll_Scans s r :
  Scans s r -> forall fuel, (List.length r <= fuel)%nat -> textscanner.scanAll fuel s = r.
Proof.
  induction 1 as [s H|s t s' r H HS IH]; intros fuel Hf.
  - destruct fuel; cbn [textscanner.scanAll]; [reflexivity|now rewrite H].
  - destruct fuel as [|fuel]; [cbn in Hf; lia|].
    cbn [textscanner.scanAll]. rewrite H. f_equal. apply IH. cbn in Hf. lia.
Qed.

Lemma isASCII_app a b :
  textscanner.isASCII (a ++ b)%string = textscanner.isASCII a && textscanner.isASCII b.
Proof.
  induction a as [|c a IH]; cbn; [reflexivity|]. rewrite IH. now rewrite andb_assoc.
Qed.

Lemma isASCII_supported s :
  textscanner.isASCII s = true ->
  textscanner.supported s = true /\ textscanner.afterBOM s = s.
Proof.
  intros H. split.
  - induction s as [|c s IH]; [reflexivity|].
    cbn [textscanner.isASCII] in H. apply andb_true_iff in H. destruct H as [Hc Hs].
    cbn [textscanner.supported]. rewrite Hc. now apply IH.
  - unfold textscanner.afterBOM. destruct s as [|c s]; [reflexivity|].
    cbn [textscanner.isASCII] in H. apply andb_true_iff in H. destruct H as [Hc _].
    now rewrite (dropBOM_ascii c s Hc).
Qed.

Lemma allDecimal_ASCII ds : allDecimal ds -> textscanner.isASCII ds = true.
Proof.
  induction ds as [|c ds IH]; cbn; [reflexivity|].
  intros [Hc Hd]. now rewrite (decimal_is_ascii _ Hc), IH.
Qed.

Lemma operator_text op :
  1 <= priority op ->
  textscanner.isASCII (fmt.string_of_rune op) = true /\
  String.length (fmt.string_of_rune op) = 1%nat.
Proof.
  intros H. unfold priority, rune_of in H. cbn in H.
  destruct ((op =? 42) || (op =? 47)) eqn:E2.
  - apply orb_true_iff in E2.
    destruct E2 as [E|E]; apply Z.eqb_eq in E; subst op; split; reflexivity.
  - destruct ((op =? 43) || (op =? 45)) eqn:E1; [|lia].
    apply orb_true_iff in E1.
    destruct E1 as [E|E]; apply Z.eqb_eq in E; subst op; split; reflexivity.
Qed.

Lemma printable_text e :
  printable e ->
  textscanner.isASCII (Expr_String e) = true /\
  (List.length (toks e) <= String.length (Expr_String e))%nat.
Proof.
  induction e as [f|op x IHx|op x IHx y IHy]; cbn [printable Expr_String toks].
  - intros Hf.
    destruct (Sprintf_plain f Hf) as (c & ds & d1 & d2 & -> & Hc & Hd & H1 & H2).
    split.
    + rewrite isASCII_app. cbn [textscanner.isASCII].
      rewrite (decimal_is_ascii _ Hc), (decimal_is_ascii _ H1), (decimal_is_ascii _ H2).
      now rewrite (allDecimal_ASCII _ Hd).
    + cbn. lia.
  - intros [Hop Hx]. destruct (IHx Hx) as [A L]. destruct (operator_text op Hop) as [A1 L1].
    split.
    + now rewrite isASCII_app, A1, A.
    + rewrite slength_app, L1. cbn [List.length]. lia.
  - intros (Hop & Hx & Hy).
    destruct (IHx Hx) as [Ax Lx]. destruct (IHy Hy) as [Ay Ly].
    destruct (operator_text op Hop) as [A1 L1].
    split.
    + rewrite !isASCII_app, Ax, A1, Ay. reflexivity.
    + rewrite !slength_app, L1, length_app. cbn [List.length String.length]. lia.
Qed.

(** The scanner reads the text of a printable tree as its tokens. *)
Lemma tokens_String e :
  printable e -> textscanner.tokens (Expr_String e) = Some (toks e).
Proof.
  intros H. destruct (printable_text e H) as [A L].
  destruct (isASCII_supported _ A) as [A1 A2].
  unfold textscanner.tokens. rewrite A1, A2. f_equal.
  apply scanAll_Scans; [|exact L].
  rewrite <- (sapp_nil_r (Expr_String e)), <- (app_nil_r (toks e)).
  apply Scans_String; [exact H|exact I|].
  now apply Scans_end.
Qed.

(** ** The literals of a parsed text are finite and not negative *)

Lemma shr_1_nonneg mrs : 0 <= shr_m mrs -> 0 <= shr_m (shr_1 mrs).
Proof.
  destruct mrs as [m r s0]. cbn [shr_m]. intros H.
  destruct m as [|p|p]; [cbn; lia| |lia].
  destruct p; cbn; lia.
Qed.

Lemma iter_shr_1_nonneg p mrs :
  0 <= shr_m mrs -> 0 <= shr_m (iter_pos shr_1 p mrs).
Proof.
  revert mrs. induction p as [p IH|p IH|]; intros mrs H; cbn [iter_pos].
  - apply IH, IH, shr_1_nonneg, H.
  - apply IH, IH, H.
  - apply shr_1_nonneg, H.
Qed.

Lemma shr_fexp_nonneg m e l :
  0 <= m -> 0 <= shr_m (fst (shr_fexp F64.prec F64.emax m e l)).
Proof.
  intros H. unfold shr_fexp, shr.
  assert (H0 : 0 <= shr_m (shr_record_of_loc m l)) by (destruct l as [|[]]; exact H).
  destruct (fexp F64.prec F64.emax (Zdigits2 m + e) - e) as [|p|p]; cbn [fst]; auto.
  now apply iter_shr_1_nonneg.
Qed.

Lemma round_nearest_even_nonneg m l : 0 <= m -> 0 <= round_nearest_even m l.
Proof.
  intros H. destruct l as [|[]]; cbn [round_nearest_even]; try lia.
  destruct (Z.even m); lia.
Qed.

(** Rounding a mantissa that is not negative never gives a NaN, and keeps
    the sign. *)
Lemma binary_round_aux_signed sx mx ex lx :
  0 <= mx -> signedAs sx (binary_round_aux F64.prec F64.emax sx mx ex lx).
Proof.
  intros H. unfold binary_round_aux.
  pose proof (shr_fexp_nonneg mx ex lx H) as H1.
  destruct (shr_fexp F64.prec F64.emax mx ex lx) as [mrs' e'].
  cbn [fst] in H1.
  pose proof (shr_fexp_nonneg _ e' loc_Exact
                (round_nearest_even_nonneg _ (loc_of_shr_record mrs') H1)) as H2.
  destruct (shr_fexp F64.prec F64.emax
              (round_nearest_even (shr_m mrs') (loc_of_shr_record mrs')) e' loc_Exact)
    as [mrs'' e''].
  cbn [fst] in H2.
  destruct (shr_m mrs'') as [|p|p]; cbn [signedAs]; try reflexivity; [|lia].
  destruct (e'' <=? F64.emax - F64.prec); reflexivity.
Qed.

Lemma normalize_signed q e :
  0 < q -> signedAs false (binary_normalize F64.prec F64.emax q e false).
Proof.
  intros Hp. destruct q as [|q|q]; try lia.
  unfold binary_normalize, binary_round.
  destruct (shl_align q e (fexp F64.prec F64.emax (Z.pos (digits2_pos q) + e))) as [mz ez].
  apply binary_round_aux_signed. lia.
Qed.

Lemma round10_signed m e : signedAs false (strconv.round10 false m e).
Proof.
  unfold strconv.round10.
  assert (Hpos : forall k, 0 <= k -> signedAs false
            (binary_normalize F64.prec F64.emax (Z.pos m * 10 ^ k) 0 false)).
  { intros k Hk. apply normalize_signed.
    apply Z.mul_pos_pos; [lia|apply Z.pow_pos_nonneg; lia]. }
  destruct e as [|p|p].
  - apply (Hpos 0). lia.
  - apply (Hpos (Z.pos p)). lia.
  - unfold SFdiv, SFdiv_core_binary.
    set (m' := match _ - _ - _ with Z.pos _ => _ | Z0 => _ | Z.neg _ => _ end).
    assert (0 <= m') as Hm.
    { subst m'. destruct (_ - _ - _); try lia. rewrite Z.shiftl_mul_pow2; lia. }
    pose proof (Z.div_pos m' (Z.pos (Z.to_pos (10 ^ Z.pos p))) Hm eq_refl) as Hq.
    unfold Z.div in Hq.
    destruct (Z.div_eucl m' (Z.pos (Z.to_pos (10 ^ Z.pos p)))) as [q r].
    cbn [fst] in Hq. now apply binary_round_aux_signed.
Qed.

Lemma round2_signed m e : signedAs false (strconv.round2 false m e).
Proof. unfold strconv.round2. now apply normalize_signed. Qed.

Lemma readSign_unsigned txt : unsignedText txt -> strconv.readSign txt = (false, txt).
Proof.
  destruct txt as [|c txt]; cbn [unsignedText]; [contradiction|].
  intros H. unfold strconv.readSign.
  apply orb_true_iff in H. destruct H as [H|H].
  - destruct (decimal_not_sign _ H) as [-> ->]. reflexivity.
  - apply Ascii.eqb_eq in H. subst c. reflexivity.
Qed.

(** An unsigned text is not the name of an infinity or of NaN. *)
Lemma special_unsigned txt : unsignedText txt -> strconv.special txt = None.
Proof.
  destruct txt as [|c txt]; cbn [unsignedText]; [contradiction|].
  intros H. unfold strconv.special, strconv.isInf. cbn [strconv.lowered String.eqb].
  apply orb_true_iff in H. destruct H as [H|H].
  - ascii_cases c; try discriminate H; reflexivity.
  - apply Ascii.eqb_eq in H. subst c. reflexivity.
Qed.

(** What [ParseFloat] returns without an error for an unsigned text. *)
Lemma ParseFloat_plain txt f :
  unsignedText txt -> strconv.ParseFloat txt = (f, None) -> plain f.
Proof.
  intros Hu. unfold strconv.ParseFloat.
  rewrite (special_unsigned _ Hu), (readSign_unsigned _ Hu).
  destruct (strconv.readBase txt) as [hex s1].
  destruct (textscanner.span (strconv.isMantissaChar hex) s1) as [ip s2].
  destruct (strconv.readFraction hex s2) as [fr s3].
  destruct (Nat.eqb (strconv.digitCount ip + strconv.digitCount fr) 0); [discriminate|].
  destruct (strconv.readExponent hex s3) as [e|]; [|discriminate].
  destruct (strconv.hasUnderscore txt && negb (strconv.underscoreOK txt)); [discriminate|].
  destruct (strconv.readDigits (if hex then 16 else 10) 0 (ip ++ fr)) as [|m|m].
  - intros H. injection H as <-. exact I.
  - assert (Hs : signedAs false
                   (if hex then strconv.round2 false m (e - 4 * Z.of_nat (strconv.digitCount fr))
                    else strconv.round10 false m (e - Z.of_nat (strconv.digitCount fr)))).
    { destruct hex; [apply round2_signed|apply round10_signed]. }
    destruct (if hex then strconv.round2 false m (e - 4 * Z.of_nat (strconv.digitCount fr))
              else strconv.round10 false m (e - Z.of_nat (strconv.digitCount fr)))
      as [s0|s0| |s0 m0 e0];
      cbn [signedAs] in Hs; try contradiction; intros H; try discriminate H;
      injection H as <-; subst s0; exact I.
  - intros H. injection H as <-. exact I.
Qed.

(** ** The size of a rounded mantissa *)

Lemma digits2_pos_bounds p :
  2 ^ (Z.pos (digits2_pos p) - 1) <= Z.pos p < 2 ^ Z.pos (digits2_pos p).
Proof.
  induction p as [p IH|p IH|]; cbn [digits2_pos].
  - rewrite Pos2Z.inj_succ, Z.pow_succ_r by lia.
    replace (Z.succ (Z.pos (digits2_pos p)) - 1) with (Z.succ (Z.pos (digits2_pos p) - 1)) by lia.
    rewrite Z.pow_succ_r by lia. lia.
  - rewrite Pos2Z.inj_succ, Z.pow_succ_r by lia.
    replace (Z.succ (Z.pos (digits2_pos p)) - 1) with (Z.succ (Z.pos (digits2_pos p) - 1)) by lia.
    rewrite Z.pow_succ_r by lia. lia.
  - cbn. lia.
Qed.

Lemma Zdigits2_nonneg x : 0 <= Zdigits2 x.
Proof. destruct x; cbn; lia. Qed.

Lemma Zdigits2_upper x : 0 <= x -> x < 2 ^ Zdigits2 x.
Proof.
  destruct x as [|p|p]; cbn [Zdigits2]; try lia.
  intros _. apply digits2_pos_bounds.
Qed.

Lemma Zdigits2_lower x : 0 < x -> 2 ^ (Zdigits2 x - 1) <= x.
Proof.
  destruct x as [|p|p]; cbn [Zdigits2]; try lia.
  intros _. apply digits2_pos_bounds.
Qed.

Lemma Zdigits2_le x k : 0 <= x -> 0 <= k -> x < 2 ^ k -> Zdigits2 x <= k.
Proof.
  intros Hx Hk H.
  destruct (Z.eq_dec x 0) as [->|Hn]; [cbn; lia|].
  pose proof (Zdigits2_lower x ltac:(lia)) as L.
  destruct (Z_le_gt_dec (Zdigits2 x) k) as [|G]; [assumption|exfalso].
  assert (2 ^ k <= 2 ^ (Zdigits2 x - 1)) by (apply Z.pow_le_mono_r; lia).
  lia.
Qed.

Lemma Zdigits2_unique x d : 0 < x -> 2 ^ (d - 1) <= x < 2 ^ d -> Zdigits2 x = d.
Proof.
  intros Hx [L U].
  assert (0 < d).
  { destruct (Z_lt_le_dec 0 d); [assumption|exfalso].
    assert (2 ^ d <= 2 ^ 0) by (apply Z.pow_le_mono_r; lia). cbn in *. lia. }
  pose proof (Zdigits2_lower x Hx) as L'. pose proof (Zdigits2_upper x ltac:(lia)) as U'.
  pose proof (Zdigits2_nonneg x).
  destruct (Z.lt_trichotomy (Zdigits2 x) d) as [G|[G|G]]; [exfalso|assumption|exfalso].
  - assert (2 ^ Zdigits2 x <= 2 ^ (d - 1)) by (apply Z.pow_le_mono_r; lia). lia.
  - assert (2 ^ d <= 2 ^ (Zdigits2 x - 1)) by (apply Z.pow_le_mono_r; lia). lia.
Qed.

Lemma Zdigits2_shift x k : 0 < x -> 0 <= k -> Zdigits2 (x * 2 ^ k) = Zdigits2 x + k.
Proof.
  intros Hx Hk.
  pose proof (Zdigits2_lower x Hx) as L. pose proof (Zdigits2_upper x ltac:(lia)) as U.
  assert (0 < Zdigits2 x).
  { destruct x; cbn; lia. }
  apply Zdigits2_unique.
  - apply Z.mul_pos_pos; [lia|apply Z.pow_pos_nonneg; lia].
  - replace (Zdigits2 x + k - 1) with ((Zdigits2 x - 1) + k) by lia.
    rewrite !Z.pow_add_r by lia.
    assert (0 < 2 ^ k) by (apply Z.pow_pos_nonneg; lia). nia.
Qed.

(** [shr_1] halves the mantissa. *)
Lemma shr_1_half mrs : 0 <= shr_m mrs -> shr_m (shr_1 mrs) = shr_m mrs / 2.
Proof.
  destruct mrs as [m r s0]. cbn [shr_m]. intros H.
  destruct m as [|p|p]; [reflexivity| |lia].
  destruct p as [p|p|]; cbn [shr_1 shr_m].
  - rewrite Pos2Z.inj_xI. apply (Z.div_unique _ 2 _ 1); lia.
  - rewrite Pos2Z.inj_xO. apply (Z.div_unique _ 2 _ 0); lia.
  - reflexivity.
Qed.

Lemma iter_shr_1_div p mrs :
  0 <= shr_m mrs -> shr_m (iter_pos shr_1 p mrs) = shr_m mrs / 2 ^ Z.pos p.
Proof.
  revert mrs. induction p as [p IH|p IH|]; intros mrs H; cbn [iter_pos].
  - pose proof (shr_1_nonneg _ H) as H1.
    pose proof (iter_shr_1_nonneg p _ H1) as H2.
    rewrite (IH _ H2), (IH _ H1), (shr_1_half _ H).
    rewrite !Z.div_div by pw.
    f_equal. change 2 with (2 ^ 1) at 1.
    rewrite <- !Z.pow_add_r by lia. f_equal. lia.
  - pose proof (iter_shr_1_nonneg p _ H) as H2.
    rewrite (IH _ H2), (IH _ H).
    rewrite !Z.div_div by pw.
    f_equal. rewrite <- !Z.pow_add_r by lia. f_equal. lia.
  - rewrite (shr_1_half _ H). reflexivity.
Qed.

Lemma shr_record_of_loc_m m l : shr_m (shr_record_of_loc m l) = m.
Proof. destruct l as [|[]]; reflexivity. Qed.

(** What [shr_fexp] leaves: the mantissa, shifted, and the exponent. *)
Lemma shr_fexp_spec m e l :
  0 <= m ->
  let n := fexp F64.prec F64.emax (Zdigits2 m + e) - e in
  shr_m (fst (shr_fexp F64.prec F64.emax m e l)) = (if 0 <? n then m / 2 ^ n else m) /\
  snd (shr_fexp F64.prec F64.emax m e l) = (if 0 <? n then e + n else e).
Proof.
  intros H n. unfold shr_fexp, shr. fold n.
  destruct n as [|p|p]; cbn [fst snd Z.ltb Z.compare]; rewrite ?shr_record_of_loc_m; auto.
  split; [|reflexivity].
  rewrite iter_shr_1_div by (now rewrite shr_record_of_loc_m).
  now rewrite shr_record_of_loc_m.
Qed.

Lemma round_nearest_even_le m l : m <= round_nearest_even m l <= m + 1.
Proof.
  destruct l as [|[]]; cbn [round_nearest_even]; try lia.
  destruct (Z.even m); lia.
Qed.

Lemma binary_round_aux_inRange sx mx ex lx :
  0 <= mx -> inRange (binary_round_aux F64.prec F64.emax sx mx ex lx).
Proof.
  intros H. unfold binary_round_aux.
  pose proof (shr_fexp_nonneg mx ex lx H) as H1.
  destruct (shr_fexp F64.prec F64.emax mx ex lx) as [mrs' e'].
  cbn [fst] in H1.
  set (mr := round_nearest_even (shr_m mrs') (loc_of_shr_record mrs')).
  assert (Hr : 0 <= mr) by (apply round_nearest_even_nonneg, H1).
  pose proof (shr_fexp_spec mr e' loc_Exact Hr) as [S1 S2].
  destruct (shr_fexp F64.prec F64.emax mr e' loc_Exact) as [mrs'' e''].
  cbn [fst snd] in S1, S2.
  destruct (shr_m mrs'') as [|p|p] eqn:Em; cbn [inRange]; auto.
  destruct (e'' <=? F64.emax - F64.prec) eqn:Ee; cbn [inRange]; auto.
  apply Z.leb_le in Ee. split; [|exact Ee].
  pose proof (Zdigits2_upper mr Hr) as U.
  pose proof (Zdigits2_nonneg mr) as N.
  unfold fexp, F64.prec, F64.emax, emin in S1, S2.
  destruct (0 <? Z.max (Zdigits2 mr + e' - 53) (3 - 1024 - 53) - e') eqn:G.
  - apply Z.ltb_lt in G.
    set (n := Z.max (Zdigits2 mr + e' - 53) (3 - 1024 - 53) - e') in *.
    assert (Zdigits2 mr - 53 <= n) by lia.
    assert (mr / 2 ^ n < 2 ^ 53).
    { apply Z.div_lt_upper_bound; [apply Z.pow_pos_nonneg; lia|].
      rewrite <- Z.pow_add_r by lia.
      assert (2 ^ Zdigits2 mr <= 2 ^ (n + 53)) by (apply Z.pow_le_mono_r; lia). lia. }
    lia.
  - apply Z.ltb_ge in G.
    assert (Zdigits2 mr <= 53) by lia.
    assert (2 ^ Zdigits2 mr <= 2 ^ 53) by (apply Z.pow_le_mono_r; lia). lia.
Qed.

(** ** Rounding without overflow *)

(** A mantissa and exponent well below the largest float64 do not round
    to an infinity. *)
Lemma rounded_small sx mx ex lx s :
  0 <= mx -> Zdigits2 mx + ex <= 1022 -> ex <= 969 ->
  binary_round_aux F64.prec F64.emax sx mx ex lx <> S754_infinity s.
Proof.
  intros H Hd He. unfold binary_round_aux.
  pose proof (shr_fexp_nonneg mx ex lx H) as H1.
  pose proof (shr_fexp_spec mx ex lx H) as [S1 S2].
  destruct (shr_fexp F64.prec F64.emax mx ex lx) as [mrs' e'].
  cbn [fst snd] in H1, S1, S2.
  set (mr := round_nearest_even (shr_m mrs') (loc_of_shr_record mrs')).
  assert (Hr : 0 <= mr) by (apply round_nearest_even_nonneg, H1).
  pose proof (round_nearest_even_le (shr_m mrs') (loc_of_shr_record mrs')) as Hle.
  fold mr in Hle.
  pose proof (shr_fexp_spec mr e' loc_Exact Hr) as [T1 T2].
  destruct (shr_fexp F64.prec F64.emax mr e' loc_Exact) as [mrs'' e''].
  cbn [fst snd] in T1, T2.
  destruct (shr_m mrs'') as [|p|p]; try discriminate.
  assert (Ee : e'' <= 971); [|apply Z.leb_le in Ee; unfold F64.emax, F64.prec;
                               change (1024 - 53) with 971; now rewrite Ee].
  pose proof (Zdigits2_nonneg mx) as N0.
  pose proof (Zdigits2_upper mx H) as U0.
  unfold fexp, F64.prec, F64.emax, emin in S1, S2, T1, T2.
  change (3 - 1024 - 53) with (-1074) in *.
  set (d := Zdigits2 mx) in *.
  set (m1 := shr_m mrs') in *.
  assert (D1 : Zdigits2 m1 + e' <= Z.max (d + ex) e').
  { destruct (0 <? Z.max (d + ex - 53) (-1074) - ex) eqn:G.
    - apply Z.ltb_lt in G. set (n := Z.max (d + ex - 53) (-1074) - ex) in *.
      destruct (Z_le_gt_dec n d) as [L|L].
      + assert (m1 < 2 ^ (d - n)).
        { rewrite S1. apply Z.div_lt_upper_bound; [pw|].
          rewrite <- Z.pow_add_r by lia. now replace (n + (d - n)) with d by lia. }
        pose proof (Zdigits2_le m1 (d - n) H1 ltac:(lia) ltac:(assumption)). lia.
      + assert (m1 = 0).
        { rewrite S1. apply Z.div_small. split; [lia|].
          assert (2 ^ d <= 2 ^ n) by (apply Z.pow_le_mono_r; lia). lia. }
        replace m1 with 0 by lia. cbn [Zdigits2]. lia.
    - rewrite S1, S2. fold d. lia. }
  assert (E1 : e' <= 969).
  { destruct (0 <? Z.max (d + ex - 53) (-1074) - ex); lia. }
  assert (D2 : Zdigits2 mr <= Zdigits2 m1 + 1).
  { pose proof (Zdigits2_nonneg m1). pose proof (Zdigits2_upper m1 H1).
    apply Zdigits2_le; [lia|lia|].
    rewrite Z.pow_add_r by lia. change (2 ^ 1) with 2. lia. }
  destruct (0 <? Z.max (Zdigits2 mr + e' - 53) (-1074) - e'); lia.
Qed.

(** Shifting out zeros is exact. *)
Lemma shr_1_even b :
  0 <= b -> shr_1 (Build_shr_record (2 * b) false false) = Build_shr_record b false false.
Proof. destruct b as [|p|p]; [reflexivity|reflexivity|lia]. Qed.

Lemma iter_shr_1_exact p : forall a,
  0 <= a ->
  iter_pos shr_1 p (Build_shr_record (a * 2 ^ Z.pos p) false false)
  = Build_shr_record a false false.
Proof.
  induction p as [p IH|p IH|]; intros a Ha; cbn [iter_pos].
  - replace (a * 2 ^ Z.pos p~1) with (2 * ((a * 2 ^ Z.pos p) * 2 ^ Z.pos p)).
    + rewrite shr_1_even by (apply Z.mul_nonneg_nonneg; [apply Z.mul_nonneg_nonneg|]; pw).
      rewrite IH by (apply Z.mul_nonneg_nonneg; pw). now apply IH.
    + replace (Z.pos p~1) with (1 + Z.pos p + Z.pos p) by lia.
      rewrite !Z.pow_add_r by lia. change (2 ^ 1) with 2. ring.
  - replace (a * 2 ^ Z.pos p~0) with ((a * 2 ^ Z.pos p) * 2 ^ Z.pos p).
    + rewrite IH by (apply Z.mul_nonneg_nonneg; pw). now apply IH.
    + replace (Z.pos p~0) with (Z.pos p + Z.pos p) by lia.
      rewrite !Z.pow_add_r by lia. ring.
  - change (2 ^ 1) with 2. replace (a * 2) with (2 * a) by ring. now apply shr_1_even.
Qed.

Lemma shr_fexp_exact a n e :
  0 <= a -> 0 < n ->
  fexp F64.prec F64.emax (Zdigits2 (a * 2 ^ n) + e) - e = n ->
  shr_fexp F64.prec F64.emax (a * 2 ^ n) e loc_Exact = (Build_shr_record a false false, e + n).
Proof.
  intros Ha Hn E. unfold shr_fexp, shr. rewrite E.
  destruct n as [|p|p]; try lia.
  cbn [shr_record_of_loc]. now rewrite iter_shr_1_exact.
Qed.

Lemma shr_fexp_keep m e l :
  fexp F64.prec F64.emax (Zdigits2 m + e) - e <= 0 ->
  shr_fexp F64.prec F64.emax m e l = (shr_record_of_loc m l, e).
Proof.
  intros E. unfold shr_fexp, shr.
  destruct (fexp F64.prec F64.emax (Zdigits2 m + e) - e); try reflexivity. lia.
Qed.

(** A number a float64 holds, written with a larger mantissa, rounds to
    a finite float. *)
Lemma rounded_exact sx m e k s :
  Z.pos m < 2 ^ 53 -> 0 <= e <= 971 -> 0 <= k ->
  binary_round_aux F64.prec F64.emax sx (Z.pos m * 2 ^ (e + k)) (- k) loc_Exact
  <> S754_infinity s.
Proof.
  intros Hm He Hk.
  pose proof (Zdigits2_shift (Z.pos m) (e + k) ltac:(lia) ltac:(lia)) as D.
  pose proof (Zdigits2_le (Z.pos m) 53 ltac:(lia) ltac:(lia) Hm) as D53.
  assert (D1 : 1 <= Zdigits2 (Z.pos m)) by (cbn; lia).
  set (dm := Zdigits2 (Z.pos m)) in *.
  assert (F : fexp F64.prec F64.emax (Zdigits2 (Z.pos m * 2 ^ (e + k)) + - k) - - k
              = dm + e - 53 + k).
  { rewrite D. unfold fexp, F64.prec, F64.emax, emin. lia. }
  unfold binary_round_aux.
  destruct (Z_le_gt_dec (dm + e - 53 + k) 0) as [G|G].
  - rewrite shr_fexp_keep by lia. cbn [shr_record_of_loc shr_m loc_of_shr_record round_nearest_even].
    rewrite shr_fexp_keep by lia. cbn [shr_record_of_loc shr_m].
    assert (0 < Z.pos m * 2 ^ (e + k)) as P by (apply Z.mul_pos_pos; pw).
    destruct (Z.pos m * 2 ^ (e + k)) as [|q|q]; try lia.
    assert (Ee : (- k <=? F64.emax - F64.prec) = true) by (apply Z.leb_le; unfold F64.emax, F64.prec; lia).
    rewrite Ee. discriminate.
  - set (n := dm + e - 53 + k) in *.
    assert (Hsplit : Z.pos m * 2 ^ (e + k) = (Z.pos m * 2 ^ (e + k - n)) * 2 ^ n).
    { rewrite <- Z.mul_assoc, <- Z.pow_add_r by lia. f_equal. f_equal. lia. }
    rewrite Hsplit in F |- *.
    rewrite (shr_fexp_exact _ n (- k)) by (try apply Z.mul_nonneg_nonneg; try pw; exact F).
    cbn [shr_m loc_of_shr_record round_nearest_even].
    pose proof (Zdigits2_shift (Z.pos m) (e + k - n) ltac:(lia) ltac:(lia)) as D'.
    fold dm in D'.
    rewrite shr_fexp_keep by (rewrite D'; unfold fexp, F64.prec, F64.emax, emin; lia).
    cbn [shr_record_of_loc shr_m].
    assert (0 < Z.pos m * 2 ^ (e + k - n)) as P by (apply Z.mul_pos_pos; pw).
    destruct (Z.pos m * 2 ^ (e + k - n)) as [|q|q]; try lia.
    assert (Ee : (- k + n <=? F64.emax - F64.prec) = true)
      by (apply Z.leb_le; unfold F64.emax, F64.prec; lia).
    rewrite Ee. discriminate.
Qed.

(** The quotient and the remainder [SFdiv] rounds, for a division by 100. *)
Lemma div_by_100 q :
  0 < q ->
  exists k, 0 <= k /\
    SFdiv_core_binary F64.prec F64.emax q 0 100 0
    = (q * 2 ^ k / 100, - k, new_location 100 ((q * 2 ^ k) mod 100)).
Proof.
  intros Hq. unfold SFdiv_core_binary.
  set (e' := Z.min _ _).
  assert (He : e' <= 0) by (subst e'; apply Z.le_min_r).
  exists (- e'). split; [lia|].
  replace (0 - 0 - e') with (- e') by lia.
  assert (Hm : match - e' with Z.pos _ => Z.shiftl q (- e') | Z0 => q | Z.neg _ => 0 end
               = q * 2 ^ (- e')).
  { destruct (- e') as [|p|p] eqn:E; [cbn; lia| |lia].
    now rewrite Z.shiftl_mul_pow2 by lia. }
  rewrite Hm.
  assert (Hd : Z.div_eucl (q * 2 ^ (- e')) 100
               = (q * 2 ^ (- e') / 100, (q * 2 ^ (- e')) mod 100)).
  { unfold Z.div, Z.modulo. now destruct (Z.div_eucl (q * 2 ^ (- e')) 100). }
  rewrite Hd. f_equal. f_equal. lia.
Qed.

Lemma hundredths_small m p : fmt.hundredths m (Z.neg p) <= 50 * Z.pos m + 1.
Proof.
  unfold fmt.hundredths.
  assert (Hd : 2 <= 2 ^ Z.pos p).
  { change 2 with (2 ^ 1) at 1. apply Z.pow_le_mono_r; lia. }
  assert (Hq : Z.pos m * 100 / 2 ^ Z.pos p <= 50 * Z.pos m).
  { apply Z.div_le_upper_bound; [lia|]. nia. }
  cbv zeta. destruct (2 * ((Z.pos m * 100) mod 2 ^ Z.pos p) ?= 2 ^ Z.pos p); try lia.
  destruct (Z.even _); lia.
Qed.

(** The two decimals printed for a float64 do not read as an infinity. *)
Lemma reread_in_range m e q s :
  Z.pos m < 2 ^ 53 -> e <= 971 -> fmt.hundredths m e = Z.pos q ->
  strconv.round10 false q (- 2) <> S754_infinity s.
Proof.
  intros Hm He Hq. unfold strconv.round10.
  change (- 2) with (Z.neg 2). cbv iota.
  change (Z.to_pos (10 ^ 2)) with 100%positive.
  unfold SFdiv. cbn [xorb].
  destruct (div_by_100 (Z.pos q) ltac:(lia)) as (k & Hk & ->).
  destruct e as [|pe|pe].
  - (* m * 100 *)
    cbn [fmt.hundredths] in Hq.
    assert (Hx : Z.pos q * 2 ^ k = (Z.pos m * 2 ^ (0 + k)) * 100).
    { rewrite <- Hq. cbn [Z.add]. change (2 ^ 0) with 1. ring. }
    rewrite Hx, Z.div_mul, Z.mod_mul by lia.
    change (new_location 100 0) with loc_Exact.
    apply rounded_exact; lia.
  - cbn [fmt.hundredths] in Hq.
    assert (Hx : Z.pos q * 2 ^ k = (Z.pos m * 2 ^ (Z.pos pe + k)) * 100).
    { rewrite <- Hq, Z.pow_add_r by lia. ring. }
    rewrite Hx, Z.div_mul, Z.mod_mul by lia.
    change (new_location 100 0) with loc_Exact.
    apply rounded_exact; lia.
  - pose proof (hundredths_small m pe) as Hs. rewrite Hq in Hs.
    assert (Hq59 : Z.pos q < 2 ^ 59).
    { change (2 ^ 59) with (64 * 2 ^ 53). lia. }
    assert (P : 0 < 2 ^ k) by pw.
    assert (Hn : 0 <= Z.pos q * 2 ^ k / 100) by (apply Z.div_pos; lia).
    apply rounded_small; [exact Hn| |lia].
    assert (Z.pos q * 2 ^ k / 100 < 2 ^ (59 + k)).
    { apply Z.div_lt_upper_bound; [lia|]. rewrite Z.pow_add_r by lia. nia. }
    pose proof (Zdigits2_le _ (59 + k) Hn ltac:(lia) H). lia.
Qed.

(** ** What [ParseFloat] returns is within the range of float64 *)

Lemma normalize_inRange q e : inRange (binary_normalize F64.prec F64.emax q e false).
Proof.
  destruct q as [|q|q]; cbn [binary_normalize inRange]; auto; unfold binary_round;
    destruct (shl_align q e (fexp F64.prec F64.emax (Z.pos (digits2_pos q) + e))) as [mz ez];
    apply binary_round_aux_inRange; lia.
Qed.

Lemma round10_inRange m e : inRange (strconv.round10 false m e).
Proof.
  unfold strconv.round10.
  destruct e as [|p|p]; try apply normalize_inRange.
  unfold SFdiv, SFdiv_core_binary.
  set (m' := match _ - _ - _ with Z.pos _ => _ | Z0 => _ | Z.neg _ => _ end).
  assert (0 <= m') as Hm.
  { subst m'. destruct (_ - _ - _); try lia. rewrite Z.shiftl_mul_pow2; lia. }
  pose proof (Z.div_pos m' (Z.pos (Z.to_pos (10 ^ Z.pos p))) Hm eq_refl) as Hq.
  unfold Z.div in Hq.
  destruct (Z.div_eucl m' (Z.pos (Z.to_pos (10 ^ Z.pos p)))) as [q r].
  cbn [fst] in Hq. now apply binary_round_aux_inRange.
Qed.

Lemma round2_inRange m e : inRange (strconv.round2 false m e).
Proof. unfold strconv.round2. apply normalize_inRange. Qed.

Lemma ParseFloat_inRange txt f :
  unsignedText txt -> strconv.ParseFloat txt = (f, None) -> inRange f.
Proof.
  intros Hu. unfold strconv.ParseFloat.
  rewrite (special_unsigned _ Hu), (readSign_unsigned _ Hu).
  destruct (strconv.readBase txt) as [hex s1].
  destruct (textscanner.span (strconv.isMantissaChar hex) s1) as [ip s2].
  destruct (strconv.readFraction hex s2) as [fr s3].
  destruct (Nat.eqb (strconv.digitCount ip + strconv.digitCount fr) 0); [discriminate|].
  destruct (strconv.readExponent hex s3) as [e|]; [|discriminate].
  destruct (strconv.hasUnderscore txt && negb (strconv.underscoreOK txt)); [discriminate|].
  destruct (strconv.readDigits (if hex then 16 else 10) 0 (ip ++ fr)) as [|m|m].
  - intros H. injection H as <-. exact I.
  - assert (Hs : inRange
                   (if hex then strconv.round2 false m (e - 4 * Z.of_nat (strconv.digitCount fr))
                    else strconv.round10 false m (e - Z.of_nat (strconv.digitCount fr)))).
    { destruct hex; [apply round2_inRange|apply round10_inRange]. }
    destruct (if hex then strconv.round2 false m (e - 4 * Z.of_nat (strconv.digitCount fr))
              else strconv.round10 false m (e - Z.of_nat (strconv.digitCount fr)))
      as [s0|s0| |s0 m0 e0];
      intros H; try discriminate H; injection H as <-; exact Hs.
  - intros H. injection H as <-. exact I.
Qed.

(** ** Reading the two decimals [Sprintf] prints *)

Lemma readDigits_app base acc a b :
  strconv.readDigits base acc (a ++ b)
  = strconv.readDigits base (strconv.readDigits base acc a) b.
Proof.
  revert acc. induction a as [|c a IH]; intros acc; cbn [String.append strconv.readDigits];
    [reflexivity|].
  destruct (Ascii.eqb c "_"); apply IH.
Qed.

Lemma readDigits_uint_acc d : forall a,
  strconv.readDigits 10 (Z.pos a) (DecimalString.NilEmpty.string_of_uint d)
  = Z.pos (Pos.of_uint_acc d a).
Proof.
  induction d; intros a;
    cbn [DecimalString.NilEmpty.string_of_uint strconv.readDigits Pos.of_uint_acc];
    try reflexivity;
    match goal with
    | |- context [Ascii.eqb ?c "_"] => change (Ascii.eqb c "_") with false; cbv iota
    end;
    match goal with
    | |- context [strconv.hexVal ?c] =>
        let v := eval vm_compute in (strconv.hexVal c) in
        change (strconv.hexVal c) with v
    end;
    rewrite <- IHd; f_equal; lia.
Qed.

Lemma readDigits_uint d :
  strconv.readDigits 10 0 (DecimalString.NilEmpty.string_of_uint d) = Z.of_N (Pos.of_uint d).
Proof.
  induction d;
    cbn [DecimalString.NilEmpty.string_of_uint strconv.readDigits Pos.of_uint];
    try reflexivity;
    match goal with
    | |- context [Ascii.eqb ?c "_"] => change (Ascii.eqb c "_") with false; cbv iota
    end;
    match goal with
    | |- context [strconv.hexVal ?c] =>
        let v := eval vm_compute in (strconv.hexVal c) in
        change (strconv.hexVal c) with v
    end;
    change (10 * 0 + 0) with 0; try exact IHd;
    match goal with
    | |- strconv.readDigits 10 (10 * 0 + ?k) _ = _ =>
        change (10 * 0 + k) with k; apply readDigits_uint_acc
    end.
Qed.

Lemma readDigits_decimal n : strconv.readDigits 10 0 (fmt.decimal n) = Z.of_N n.
Proof.
  unfold fmt.decimal, DecimalString.NilZero.string_of_uint.
  rewrite <- (DecimalN.Unsigned.of_to n) at 2. unfold N.of_uint.
  destruct (N.to_uint n) eqn:E; rewrite <- readDigits_uint; reflexivity.
Qed.

Lemma digit_value z :
  0 <= z < 10 -> Ascii.eqb (fmt.digit z) "_" = false /\ strconv.hexVal (fmt.digit z) = z.
Proof.
  intros H.
  assert (z = 0 \/ z = 1 \/ z = 2 \/ z = 3 \/ z = 4 \/ z = 5 \/ z = 6 \/ z = 7 \/ z = 8 \/ z = 9)
    as E by lia.
  repeat (destruct E as [->|E]; [split; reflexivity|]). subst. split; reflexivity.
Qed.

Lemma readDigits_fixed2 q :
  0 <= q ->
  strconv.readDigits 10 0
    (fmt.decimal (Z.to_N (q / 100)) ++
     String (fmt.digit (q mod 100 / 10)) (String (fmt.digit (q mod 10)) EmptyString)) = q.
Proof.
  intros Hq. rewrite readDigits_app, readDigits_decimal.
  assert (H1 : 0 <= q mod 100 / 10 < 10) by (Z.div_mod_to_equations; lia).
  assert (H2 : 0 <= q mod 10 < 10) by (Z.div_mod_to_equations; lia).
  destruct (digit_value _ H1) as [U1 V1]. destruct (digit_value _ H2) as [U2 V2].
  cbn [strconv.readDigits]. rewrite U1, U2, V1, V2.
  rewrite Z2N.id by (Z.div_mod_to_equations; lia).
  Z.div_mod_to_equations. lia.
Qed.

Lemma digitCount_decimal ds : allDecimal ds -> strconv.digitCount ds = String.length ds.
Proof.
  induction ds as [|c ds IH]; cbn [allDecimal strconv.digitCount String.length]; [reflexivity|].
  intros [Hc Hd].
  assert (Ascii.eqb c "_" = false) as -> by (ascii_cases c; try discriminate Hc; reflexivity).
  now rewrite IH.
Qed.

Lemma hasUnderscore_app a b :
  strconv.hasUnderscore (a ++ b) = strconv.hasUnderscore a || strconv.hasUnderscore b.
Proof.
  induction a as [|c a IH]; cbn [String.append strconv.hasUnderscore]; [reflexivity|].
  now rewrite IH, orb_assoc.
Qed.

Lemma hasUnderscore_decimal ds : allDecimal ds -> strconv.hasUnderscore ds = false.
Proof.
  induction ds as [|c ds IH]; cbn [allDecimal strconv.hasUnderscore]; [reflexivity|].
  intros [Hc Hd].
  assert (Ascii.eqb c "_" = false) as -> by (ascii_cases c; try discriminate Hc; reflexivity).
  now apply IH.
Qed.

Lemma readBase_decimal c ds tail :
  textscanner.isDecimal c = true -> allDecimal ds ->
  strconv.readBase (String c ds ++ String "." tail)
  = (false, (String c ds ++ String "." tail)%string).
Proof.
  intros Hc Hd. cbn [String.append]. unfold strconv.readBase.
  destruct ds as [|c1 ds]; cbn [String.append].
  - destruct tail; [reflexivity|]. now rewrite andb_false_r.
  - destruct Hd as [Hc1 Hd]. destruct (decimal_not_radix _ Hc1) as [E _].
    rewrite E, andb_false_r. now destruct ds.
Qed.

(** [ParseFloat] on digits, a point and two digits. *)
Lemma ParseFloat_fixed c ds d1 d2 :
  textscanner.isDecimal c = true -> allDecimal ds ->
  textscanner.isDecimal d1 = true -> textscanner.isDecimal d2 = true ->
  strconv.ParseFloat (String c ds ++ String "." (String d1 (String d2 EmptyString)))
  = match strconv.readDigits 10 0 (String c ds ++ String d1 (String d2 EmptyString)) with
    | Z.pos m =>
        match strconv.round10 false m (- 2) with
        | S754_infinity sg => (S754_infinity sg, Some ErrRange)
        | f => (f, None)
        end
    | _ => (S754_zero false, None)
    end.
Proof.
  intros Hc Hd H1 H2.
  set (fr := String d1 (String d2 EmptyString)).
  assert (Hfr : allDecimal fr) by (cbn; auto).
  assert (Hu : unsignedText (String c ds ++ String "." fr)).
  { cbn [String.append unsignedText]. now rewrite Hc. }
  unfold strconv.ParseFloat.
  rewrite (special_unsigned _ Hu), (readSign_unsigned _ Hu), (readBase_decimal c ds fr Hc Hd).
  change (textscanner.span (strconv.isMantissaChar false)) with (textscanner.digits false).
  rewrite (digits_run (String c ds) (String "." fr)); [|now split|reflexivity].
  unfold strconv.readFraction. change (Ascii.eqb "." ".") with true. cbv iota.
  change (textscanner.span (strconv.isMantissaChar false)) with (textscanner.digits false).
  pose proof (digits_run fr EmptyString Hfr I) as E. rewrite sapp_nil_r in E. rewrite E.
  rewrite (digitCount_decimal (String c ds)) by now split.
  rewrite (digitCount_decimal fr Hfr).
  change (String.length fr) with 2%nat.
  change (String.length (String c ds)) with (S (String.length ds)).
  change (strconv.readExponent false EmptyString) with (Some 0).
  change (S (String.length ds) + 2 =? 0)%nat with false.
  cbv iota.
  rewrite hasUnderscore_app, (hasUnderscore_decimal (String c ds)) by now split.
  change (strconv.hasUnderscore (String "." fr)) with (strconv.hasUnderscore fr).
  rewrite (hasUnderscore_decimal fr Hfr).
  reflexivity.
Qed.

(** The two decimals printed for a float64 that is not negative are read
    by [ParseFloat]. *)
Lemma hundredths_nonneg m e : 0 <= fmt.hundredths m e.
Proof.
  unfold fmt.hundredths. destruct e as [|p|p]; try lia.
  assert (0 <= Z.pos m * 100 / 2 ^ Z.pos p) by (apply Z.div_pos; pw).
  cbv zeta. destruct (_ ?= _); try lia. destruct (Z.even _); lia.
Qed.

Lemma reread_zero : rereads (S754_zero false) (S754_zero false).
Proof. vm_compute. reflexivity. Qed.

Lemma reread_fixed2 q :
  0 <= q ->
  strconv.ParseFloat (fmt.fixed2 q)
  = match q with
    | Z.pos m =>
        match strconv.round10 false m (- 2) with
        | S754_infinity sg => (S754_infinity sg, Some ErrRange)
        | f => (f, None)
        end
    | _ => (S754_zero false, None)
    end.
Proof.
  intros Hq. unfold fmt.fixed2.
  pose proof (readDigits_fixed2 q Hq) as Hr.
  destruct (decimal_shape (Z.to_N (q / 100))) as (c & ds & E & Hc & Hd).
  rewrite E in Hr |- *.
  assert (H1 : 0 <= q mod 100 / 10 < 10) by (Z.div_mod_to_equations; lia).
  assert (H2 : 0 <= q mod 10 < 10) by (Z.div_mod_to_equations; lia).
  rewrite (ParseFloat_fixed c ds _ _ Hc Hd (digit_isDecimal _ H1) (digit_isDecimal _ H2)).
  rewrite Hr. reflexivity.
Qed.

Lemma reread_total f :
  plain f -> inRange f -> exists f', rereads f f'.
Proof.
  destruct f as [[|]| | |[|] m e]; cbn [plain inRange]; try contradiction; intros _ R.
  - exists (S754_zero false). exact reread_zero.
  - unfold rereads. cbn [fmt.Sprintf_2f fmt.sign String.append].
    rewrite (reread_fixed2 _ (hundredths_nonneg m e)).
    pose proof (hundredths_nonneg m e) as Hq.
    destruct (fmt.hundredths m e) as [|mq|mq] eqn:Eq; [eexists; reflexivity| |lia].
    destruct R as [Rm Re].
    pose proof (reread_in_range m e mq) as N.
    destruct (strconv.round10 false mq (- 2)) as [s0|s0| |s0 m0 e0];
      try (eexists; reflexivity).
    exfalso. exact (N s0 Rm Re Eq eq_refl).
Qed.

(** The numbers the scanner returns have unsigned texts. *)
Lemma scanNumber_text c s :
  textscanner.isDecimal c = true ->
  exists tail, tok_text (fst (textscanner.scanNumber (String c s) false)) = String c tail.
Proof.
  intros Hc. unfold textscanner.scanNumber.
  assert (Hd : forall b rest, exists a r, textscanner.digits b (String c rest) = (String c a, r)).
  { intros b rest.
    assert (Hh : textscanner.isHex c = true).
    { unfold textscanner.isHex. unfold textscanner.isDecimal in Hc. now rewrite Hc. }
    unfold textscanner.digits.
    destruct b; cbn [textscanner.span]; rewrite ?Hh, ?Hc; cbn [orb];
      match goal with |- context [textscanner.span ?p rest] =>
        destruct (textscanner.span p rest) as [a r] end; now exists a, r. }
  assert (Hpre : (exists pre b s1, textscanner.scanPrefix (String c s) = (String c pre, b, s1)) \/
                 textscanner.scanPrefix (String c s) = (EmptyString, false, String c s)).
  { unfold textscanner.scanPrefix. destruct (Ascii.eqb c "0"); [left|now right].
    destruct s as [|c' s']; [now eexists _, _, _|].
    destruct (Ascii.eqb (textscanner.lower c') "x"); [now eexists _, _, _|].
    destruct (Ascii.eqb (textscanner.lower c') "o" || Ascii.eqb (textscanner.lower c') "b");
      now eexists _, _, _. }
  destruct Hpre as [(pre & b & s1 & ->)| ->].
  - destruct (textscanner.digits b s1) as [ip s2].
    destruct (textscanner.scanFraction b s2) as [[fr isFrac] s3].
    destruct (textscanner.scanExponent s3) as [[ex s4] isExp].
    cbn [fst]. destruct (isFrac || isExp); cbn [tok_text String.append]; now eexists.
  - destruct (Hd false s) as (a & r & ->).
    destruct (textscanner.scanFraction false r) as [[fr isFrac] s3].
    destruct (textscanner.scanExponent s3) as [[ex s4] isExp].
    cbn [fst]. destruct (isFrac || isExp); cbn [tok_text String.append]; now eexists.
Qed.

Lemma Scan_unsigned s t s' :
  textscanner.Scan s = Some (t, s') -> isNumber t = true -> unsignedText (tok_text t).
Proof.
  unfold textscanner.Scan.
  destruct (textscanner.skipWhitespace s) as [|c s0]; [discriminate|].
  destruct (textscanner.isIdentRune c 0).
  { destruct (textscanner.span _ s0). intros H. injection H as <- _. discriminate. }
  destruct (textscanner.isDecimal c) eqn:Hc.
  { destruct (scanNumber_text c s0 Hc) as (tail & E).
    destruct (textscanner.scanNumber (String c s0) false) as [t0 s0'].
    cbn [fst] in E. intros H _. injection H as <- _.
    rewrite E. cbn [unsignedText]. now rewrite Hc. }
  destruct (Ascii.eqb c ".").
  - destruct s0 as [|d s1]; [intros H; injection H as <- _; discriminate|].
    destruct (textscanner.isDecimal d); [|intros H; injection H as <- _; discriminate].
    unfold textscanner.scanNumber.
    destruct (textscanner.digits false (String d s1)) as [fr s2].
    destruct (textscanner.scanExponent s2) as [[ex s3] isExp].
    intros H _. injection H as <- _. reflexivity.
  - destruct (textscanner.dropBOM (String c s0));
      intros H; injection H as <- _; discriminate.
Qed.

Lemma tokens_unsigned s r :
  textscanner.tokens s = Some r ->
  Forall (fun t => isNumber t = true -> unsignedText (tok_text t)) r.
Proof.
  unfold textscanner.tokens. destruct (textscanner.supported s); [|discriminate].
  intros H. injection H as <-.
  generalize (String.length s) as fuel. generalize (textscanner.afterBOM s) as s0.
  intros s0 fuel. clear s. revert s0.
  induction fuel as [|fuel IH]; intros s; cbn [textscanner.scanAll]; [constructor|].
  destruct (textscanner.Scan s) as [[t s']|] eqn:E; [|constructor].
  constructor; [|apply IH].
  now apply (Scan_unsigned s t s').
Qed.

(** ** Printing a parsed tree and parsing the text again *)

Lemma Reads_printable r t :
  Reads strconv.ParseFloat r t ->
  Forall (fun tk => isNumber tk = true -> unsignedText (tok_text tk)) r ->
  printable t.
Proof.
  induction 1 as [tk f Ht Hf|c r x Hc R IH|c r1 r2 x y Hc R1 IH1 R2 IH2|r e R IH];
    intros HF; cbn [printable].
  - inversion HF as [|? ? Hu _]; subst.
    exact (ParseFloat_plain _ _ (Hu Ht) Hf).
  - inversion HF; subst. split; [lia|auto].
  - apply Forall_app in HF. destruct HF as [HF1 HF2]. inversion HF2; subst. auto.
  - inversion HF as [|? ? _ HF']; subst. apply Forall_app in HF'. now apply IH.
Qed.

Lemma similar_readBack t t' t'' :
  similar rereads t t'' -> readBack t = Some t' -> t'' = t'.
Proof.
  intros S. revert t'.
  induction S as [f f' Hf|op x x' S IH|op x x' y y' Sx IHx Sy IHy]; intros t' Hb;
    cbn [readBack] in Hb.
  - unfold rereads in Hf. rewrite Hf in Hb. now injection Hb.
  - destruct (readBack x) as [x0|]; [|discriminate].
    injection Hb as <-. f_equal. now apply IH.
  - destruct (readBack x) as [x0|]; [|discriminate].
    destruct (readBack y) as [y0|]; [|discriminate].
    injection Hb as <-. f_equal; auto.
Qed.

Lemma readBack_similar t t' : readBack t = Some t' -> similar rereads t t'.
Proof.
  revert t'. induction t as [f|op x IHx|op x IHx y IHy]; intros t' Hb; cbn [readBack] in Hb.
  - destruct (strconv.ParseFloat (fmt.Sprintf_2f f)) as [f' [err|]] eqn:E; [discriminate|].
    injection Hb as <-. now constructor.
  - destruct (readBack x) as [x0|]; [|discriminate].
    injection Hb as <-. constructor. now apply IHx.
  - destruct (readBack x) as [x0|]; [|discriminate].
    destruct (readBack y) as [y0|]; [|discriminate].
    injection Hb as <-. constructor; auto.
Qed.

(** ** Scanning a text between parentheses *)

Lemma span_closing p s :
  p ")"%char = false ->
  textscanner.span p (s ++ ")")%string
  = (fst (textscanner.span p s), (snd (textscanner.span p s) ++ ")")%string).
Proof.
  intros Hp. induction s as [|c s IH]; cbn [String.append textscanner.span].
  - now rewrite Hp.
  - destruct (p c); [|reflexivity].
    rewrite IH. now destruct (textscanner.span p s).
Qed.

Lemma skipWhitespace_closing s :
  textscanner.skipWhitespace (s ++ ")")%string
  = (textscanner.skipWhitespace s ++ ")")%string.
Proof.
  induction s as [|c s IH]; cbn [String.append textscanner.skipWhitespace]; [reflexivity|].
  now destruct (textscanner.isWhitespace c).
Qed.

Lemma digits_closing b s :
  textscanner.digits b (s ++ ")")%string
  = (fst (textscanner.digits b s), (snd (textscanner.digits b s) ++ ")")%string).
Proof. unfold textscanner.digits. destruct b; now apply span_closing. Qed.

Lemma scanExponent_closing s :
  textscanner.scanExponent (s ++ ")")%string
  = let '(ex, r, seen) := textscanner.scanExponent s in (ex, (r ++ ")")%string, seen).
Proof.
  destruct s as [|c s1]; [reflexivity|].
  cbn [String.append]. unfold textscanner.scanExponent.
  destruct (Ascii.eqb (textscanner.lower c) "e" || Ascii.eqb (textscanner.lower c) "p");
    [|reflexivity].
  destruct s1 as [|d s2]; [reflexivity|].
  cbn [String.append].
  destruct (Ascii.eqb d "+" || Ascii.eqb d "-").
  - rewrite digits_closing. now destruct (textscanner.digits false s2).
  - change (String d (s2 ++ ")"))%string with (String d s2 ++ ")")%string.
    rewrite digits_closing. now destruct (textscanner.digits false (String d s2)).
Qed.

Lemma scanPrefix_closing s :
  textscanner.scanPrefix (s ++ ")")%string
  = let '(pre, b, r) := textscanner.scanPrefix s in (pre, b, (r ++ ")")%string).
Proof.
  destruct s as [|c s1]; [reflexivity|].
  cbn [String.append]. unfold textscanner.scanPrefix.
  destruct (Ascii.eqb c "0"); [|reflexivity].
  destruct s1 as [|c' s2]; [reflexivity|].
  cbn [String.append].
  destruct (Ascii.eqb (textscanner.lower c') "x"); [reflexivity|].
  now destruct (Ascii.eqb (textscanner.lower c') "o" || Ascii.eqb (textscanner.lower c') "b").
Qed.

Lemma scanFraction_closing b s :
  textscanner.scanFraction b (s ++ ")")%string
  = let '(fr, seen, r) := textscanner.scanFraction b s in (fr, seen, (r ++ ")")%string).
Proof.
  destruct s as [|c s1]; [reflexivity|].
  cbn [String.append]. unfold textscanner.scanFraction.
  destruct (Ascii.eqb c "."); [|reflexivity].
  rewrite digits_closing. now destruct (textscanner.digits b s1).
Qed.

Lemma scanNumber_closing s seenDot :
  textscanner.scanNumber (s ++ ")")%string seenDot
  = (fst (textscanner.scanNumber s seenDot),
     (snd (textscanner.scanNumber s seenDot) ++ ")")%string).
Proof.
  unfold textscanner.scanNumber. destruct seenDot.
  - rewrite digits_closing. destruct (textscanner.digits false s) as [fr s1]. cbn [fst snd].
    rewrite scanExponent_closing. now destruct (textscanner.scanExponent s1) as [[ex s2] seen].
  - rewrite scanPrefix_closing. destruct (textscanner.scanPrefix s) as [[pre b] s1].
    rewrite digits_closing. destruct (textscanner.digits b s1) as [ip s2]. cbn [fst snd].
    rewrite scanFraction_closing. destruct (textscanner.scanFraction b s2) as [[fr isFrac] s3].
    rewrite scanExponent_closing. now destruct (textscanner.scanExponent s3) as [[ex s4] isExp].
Qed.

Lemma dropBOM_closing s :
  textscanner.dropBOM (s ++ ")")%string
  = option_map (fun rest => (rest ++ ")")%string) (textscanner.dropBOM s).
Proof.
  destruct s as [|a [|b [|c rest]]]; cbn [String.append textscanner.dropBOM option_map];
    try reflexivity.
  - now rewrite andb_false_r.
  - now destruct ((N_of_ascii a =? 239)%N && (N_of_ascii b =? 187)%N && (N_of_ascii c =? 191)%N).
Qed.

Lemma dropBOM_length s rest :
  textscanner.dropBOM s = Some rest -> String.length s = (3 + String.length rest)%nat.
Proof.
  destruct s as [|a [|b [|c r]]]; cbn [textscanner.dropBOM]; try discriminate.
  destruct ((N_of_ascii a =? 239)%N && (N_of_ascii b =? 187)%N && (N_of_ascii c =? 191)%N);
    [|discriminate].
  intros H. injection H as <-. reflexivity.
Qed.

(** A closing parenthesis after the text is one more token after its
    tokens. *)
Lemma Scan_closing s :
  textscanner.Scan (s ++ ")")%string
  = match textscanner.Scan s with
    | Some (t, s') => Some (t, (s' ++ ")")%string)
    | None => Some (tRParen, EmptyString)
    end.
Proof.
  unfold textscanner.Scan. rewrite skipWhitespace_closing.
  destruct (textscanner.skipWhitespace s) as [|c s0]; [reflexivity|].
  cbn [String.append].
  destruct (textscanner.isIdentRune c 0).
  { rewrite span_closing by reflexivity. now destruct (textscanner.span _ s0). }
  destruct (textscanner.isDecimal c).
  { change (String c (s0 ++ ")"))%string with (String c s0 ++ ")")%string.
    rewrite scanNumber_closing. now destruct (textscanner.scanNumber (String c s0) false). }
  destruct (Ascii.eqb c ".").
  - destruct s0 as [|d s1]; [reflexivity|].
    cbn [String.append]. destruct (textscanner.isDecimal d); [|reflexivity].
    change (String d (s1 ++ ")"))%string with (String d s1 ++ ")")%string.
    rewrite scanNumber_closing. now destruct (textscanner.scanNumber (String d s1) true).
  - change (String c (s0 ++ ")"))%string with (String c s0 ++ ")")%string.
    rewrite dropBOM_closing. now destruct (textscanner.dropBOM (String c s0)).
Qed.

(** Every token takes at least one character. *)
Lemma span_length p s :
  String.length s
  = (String.length (fst (textscanner.span p s)) + String.length (snd (textscanner.span p s)))%nat.
Proof.
  induction s as [|c s IH]; cbn [textscanner.span]; [reflexivity|].
  destruct (p c); [|reflexivity].
  destruct (textscanner.span p s) as [a b]. cbn [fst snd String.length] in *. lia.
Qed.

Lemma span_shorter p s :
  (String.length (snd (textscanner.span p s)) <= String.length s)%nat.
Proof. pose proof (span_length p s). lia. Qed.

Lemma digits_shorter b s :
  (String.length (snd (textscanner.digits b s)) <= String.length s)%nat.
Proof. unfold textscanner.digits. destruct b; apply span_shorter. Qed.

Lemma skipWhitespace_shorter s :
  (String.length (textscanner.skipWhitespace s) <= String.length s)%nat.
Proof.
  induction s as [|c s IH]; cbn [textscanner.skipWhitespace]; [lia|].
  destruct (textscanner.isWhitespace c); cbn [String.length]; lia.
Qed.

Lemma scanExponent_shorter s :
  (String.length (snd (fst (textscanner.scanExponent s))) <= String.length s)%nat.
Proof.
  destruct s as [|c s1]; [cbn; lia|]. unfold textscanner.scanExponent.
  destruct (Ascii.eqb (textscanner.lower c) "e" || Ascii.eqb (textscanner.lower c) "p");
    [|cbn; lia].
  destruct s1 as [|d s2].
  - cbn. lia.
  - destruct (Ascii.eqb d "+" || Ascii.eqb d "-").
    + pose proof (digits_shorter false s2).
      destruct (textscanner.digits false s2). cbn [fst snd String.length] in *. lia.
    + pose proof (digits_shorter false (String d s2)).
      destruct (textscanner.digits false (String d s2)). cbn [fst snd String.length] in *. lia.
Qed.

Lemma scanFraction_shorter b s :
  (String.length (snd (textscanner.scanFraction b s)) <= String.length s)%nat.
Proof.
  destruct s as [|c s1]; [cbn; lia|]. unfold textscanner.scanFraction.
  destruct (Ascii.eqb c "."); [|cbn; lia].
  pose proof (digits_shorter b s1).
  destruct (textscanner.digits b s1). cbn [fst snd String.length] in *. lia.
Qed.

(** After the prefix and the digits of a number, its first digit is
    behind. *)
Lemma integer_part_shorter c s :
  textscanner.isDecimal c = true ->
  let '(pre, b, s1) := textscanner.scanPrefix (String c s) in
  (String.length (snd (textscanner.digits b s1)) <= String.length s)%nat.
Proof.
  intros Hc. unfold textscanner.scanPrefix.
  destruct (Ascii.eqb c "0").
  - destruct s as [|c' s']; [cbn; lia|].
    destruct (Ascii.eqb (textscanner.lower c') "x");
      [pose proof (digits_shorter true s'); cbn [String.length]; lia|].
    destruct (Ascii.eqb (textscanner.lower c') "o" || Ascii.eqb (textscanner.lower c') "b");
      [pose proof (digits_shorter false s'); cbn [String.length]; lia|].
    apply digits_shorter.
  - unfold textscanner.digits. cbn [textscanner.span]. rewrite Hc. cbn [orb].
    pose proof (span_shorter (fun c0 => textscanner.isDecimal c0 || Ascii.eqb c0 "_") s).
    destruct (textscanner.span _ s). cbn [fst snd] in *. lia.
Qed.

Lemma scanNumber_shorter c s :
  textscanner.isDecimal c = true ->
  (String.length (snd (textscanner.scanNumber (String c s) false)) <= String.length s)%nat.
Proof.
  intros Hc. unfold textscanner.scanNumber.
  pose proof (integer_part_shorter c s Hc) as H.
  destruct (textscanner.scanPrefix (String c s)) as [[pre b] s1].
  destruct (textscanner.digits b s1) as [ip s2]. cbn [snd] in H.
  pose proof (scanFraction_shorter b s2) as H1.
  destruct (textscanner.scanFraction b s2) as [[fr isFrac] s3]. cbn [snd] in H1.
  pose proof (scanExponent_shorter s3) as H2.
  destruct (textscanner.scanExponent s3) as [[ex s4] isExp]. cbn [fst snd] in *. lia.
Qed.

Lemma scanFractionOnly_shorter s :
  (String.length (snd (textscanner.scanNumber s true)) <= String.length s)%nat.
Proof.
  unfold textscanner.scanNumber.
  pose proof (digits_shorter false s) as H.
  destruct (textscanner.digits false s) as [fr s1]. cbn [snd] in H.
  pose proof (scanExponent_shorter s1) as H2.
  destruct (textscanner.scanExponent s1) as [[ex s2] isExp]. cbn [fst snd] in *. lia.
Qed.

Lemma Scan_shorter s t s' :
  textscanner.Scan s = Some (t, s') -> (String.length s' < String.length s)%nat.
Proof.
  unfold textscanner.Scan. pose proof (skipWhitespace_shorter s) as Hw.
  destruct (textscanner.skipWhitespace s) as [|c s0]; [discriminate|].
  cbn [String.length] in Hw.
  destruct (textscanner.isIdentRune c 0).
  { pose proof (span_shorter (fun c0 => textscanner.isIdentRune c0 1) s0) as H.
    destruct (textscanner.span _ s0). intros E. injection E as _ <-. cbn [snd] in H. lia. }
  destruct (textscanner.isDecimal c) eqn:Hc.
  { pose proof (scanNumber_shorter c s0 Hc) as H.
    destruct (textscanner.scanNumber (String c s0) false).
    intros E. injection E as _ <-. cbn [snd] in H. lia. }
  destruct (Ascii.eqb c ".").
  - destruct s0 as [|d s1]; [intros E; injection E as _ <-; cbn; lia|].
    destruct (textscanner.isDecimal d).
    + pose proof (scanFractionOnly_shorter (String d s1)) as H.
      destruct (textscanner.scanNumber (String d s1) true).
      intros E. injection E as _ <-. cbn [snd] in H. lia.
    + intros E. injection E as _ <-. lia.
  - destruct (textscanner.dropBOM (String c s0)) as [rest|] eqn:B.
    + apply dropBOM_length in B. cbn [String.length] in B.
      intros E. injection E as _ <-. lia.
    + intros E. injection E as _ <-. lia.
Qed.

Lemma scanAll_closing fuel s :
  (String.length s <= fuel)%nat ->
  textscanner.scanAll (S fuel) (s ++ ")")%string = textscanner.scanAll fuel s ++ [tRParen].
Proof.
  revert s. induction fuel as [|fuel IH]; intros s Hl.
  - destruct s; [reflexivity|cbn in Hl; lia].
  - cbn [textscanner.scanAll]. rewrite Scan_closing.
    destruct (textscanner.Scan s) as [[t s']|] eqn:E.
    + pose proof (Scan_shorter _ _ _ E) as Hs.
      cbn [app]. f_equal.
      change (match textscanner.Scan (s' ++ ")")%string with
              | Some (t0, rest) => t0 :: textscanner.scanAll fuel rest
              | None => []
              end) with (textscanner.scanAll (S fuel) (s' ++ ")")%string).
      apply IH. lia.
    + reflexivity.
Qed.

Lemma supported_app a b :
  textscanner.supported a = true ->
  textscanner.supported (a ++ b)%string = textscanner.supported b.
Proof.
  assert (H : forall n a, (String.length a <= n)%nat -> textscanner.supported a = true ->
                          textscanner.supported (a ++ b)%string = textscanner.supported b).
  { induction n as [|n IH]; intros a0 Hn Ha.
    - destruct a0; [reflexivity|cbn in Hn; lia].
    - destruct a0 as [|c a1]; [reflexivity|].
      cbn [String.length] in Hn. cbn [textscanner.supported] in Ha.
      cbn [String.append textscanner.supported].
      destruct (N_of_ascii c <? 128)%N; [apply IH; [lia|exact Ha]|].
      destruct a1 as [|b1 [|d1 rest]]; try discriminate Ha.
      cbn [String.append]. cbn [String.length] in Hn.
      apply andb_true_iff in Ha. destruct Ha as [-> Ha]. cbn [andb].
      apply IH; [lia|exact Ha]. }
  intros Ha. now apply (H (String.length a)).
Qed.

Lemma Scan_opening s : textscanner.Scan (String "(" s) = Some (tLParen, s).
Proof. now apply Scan_rune. Qed.

(** The tokens of a text between parentheses, when the text does not
    start with a byte-order mark. *)
Lemma tokens_parenthesized s r :
  textscanner.tokens s = Some r -> textscanner.dropBOM s = None ->
  textscanner.tokens ("(" ++ s ++ ")")%string = Some (tLParen :: r ++ [tRParen]).
Proof.
  unfold textscanner.tokens, textscanner.afterBOM.
  destruct (textscanner.supported s) eqn:A; [|discriminate].
  intros H B. rewrite B in H. injection H as <-.
  assert (A' : textscanner.supported ("(" ++ s ++ ")")%string = true).
  { cbn [String.append textscanner.supported]. change (N_of_ascii "(" <? 128)%N with true.
    cbv iota. now rewrite (supported_app s ")" A). }
  rewrite A'. f_equal.
  cbn [String.append]. rewrite (dropBOM_ascii "(" (s ++ ")") eq_refl).
  cbn [String.length]. rewrite slength_app. cbn [String.length].
  replace (String.length s + 1)%nat with (S (String.length s)) by lia.
  cbn [textscanner.scanAll]. rewrite Scan_opening.
  change (match textscanner.Scan (s ++ ")")%string with
          | Some (t0, rest) => t0 :: textscanner.scanAll (String.length s) rest
          | None => []
          end) with (textscanner.scanAll (S (String.length s)) (s ++ ")")%string).
  f_equal. now apply scanAll_closing.
Qed.

(** With a byte-order mark at its start, the text between parentheses
    has the mark as a token. *)
Lemma tokens_parenthesized_BOM s rest :
  textscanner.supported s = true -> textscanner.dropBOM s = Some rest ->
  exists r, textscanner.tokens ("(" ++ s ++ ")")%string
            = Some (tLParen :: TRune textscanner.BOM :: r).
Proof.
  intros A B.
  assert (A' : textscanner.supported ("(" ++ s ++ ")")%string = true).
  { cbn [String.append textscanner.supported]. change (N_of_ascii "(" <? 128)%N with true.
    cbv iota. now rewrite (supported_app s ")" A). }
  unfold textscanner.tokens, textscanner.afterBOM. rewrite A'.
  cbn [String.append]. rewrite (dropBOM_ascii "(" (s ++ ")") eq_refl).
  cbn [String.length]. rewrite slength_app. cbn [String.length].
  pose proof (dropBOM_length _ _ B) as L. rewrite L.
  cbn [Nat.add textscanner.scanAll]. rewrite Scan_opening.
  assert (E : textscanner.Scan (s ++ ")")%string
              = Some (TRune textscanner.BOM, (rest ++ ")")%string)).
  { destruct s as [|a [|b [|c r0]]]; try discriminate B.
    cbn [textscanner.dropBOM] in B.
    destruct (N.eqb_spec (N_of_ascii a) 239) as [Ea|]; [|discriminate B].
    destruct (N.eqb_spec (N_of_ascii b) 187) as [Eb|]; [|discriminate B].
    destruct (N.eqb_spec (N_of_ascii c) 191) as [Ec|]; [|discriminate B].
    cbn [andb] in B. injection B as <-.
    apply (f_equal ascii_of_N) in Ea, Eb, Ec. rewrite ascii_N_embedding in Ea, Eb, Ec.
    subst a b c. reflexivity. }
  rewrite E. now eexists.
Qed.

(** ** The bound on the depth of the descent *)

(** The result of the eager descent is determined by the result of the
    tree-building descent. *)
Lemma agree_determines r a b :
  agree collapsed r a -> agree collapsed r b -> a = b.
Proof.
  unfold collapsed.
  destruct r as [e l|err l| |], a as [e1 l1|err1 l1| |], b as [e2 l2|err2 l2| |];
    cbn [agree]; try contradiction; try reflexivity.
  - intros [-> ->] [-> ->]. reflexivity.
  - intros (-> & -> & _) (-> & -> & _). reflexivity.
  - intros (_ & _ & H1) H2. congruence.
  - intros H1 (_ & _ & H2). congruence.
Qed.

(** Any depth beyond the bound gives the result of the bound itself. *)
Lemma parseExpr_any_depth ParseFloat r fuel :
  (depth (List.length r) <= fuel)%nat ->
  parseExpr ParseFloat fuel (lexOf r)
  = parseExpr ParseFloat (depth (List.length r)) (lexOf r).
Proof.
  intros H. apply parseExpr_fuel_mono; [exact H|].
  apply descent_terminates. unfold depth. lia.
Qed.

Lemma evalparseExpr_any_depth ParseFloat r fuel :
  (depth (List.length r) <= fuel)%nat ->
  evalparseExpr ParseFloat fuel (lexOf r)
  = evalparseExpr ParseFloat (depth (List.length r)) (lexOf r).
Proof.
  intros H.
  apply (agree_determines (parseExpr ParseFloat fuel (lexOf r))).
  - apply eager_agrees.
  - rewrite (parseExpr_any_depth _ _ _ H). apply eager_agrees.
Qed.

(** ** A failure inside parentheses, in the eager mode *)

(** In [evalparsePrimary] the expression is evaluated before the error is
    looked at: where the tree-building parser reports an error inside
    parentheses, the eager parser panics on the nil expression. *)
Lemma eager_mode_panics_inside_parentheses :
  ParseText "(1+)"
    = Some (Failed (CouldNotParse (Quoted (rune_of ")"))
              (InUnary (Quoted (rune_of ")"))
                 (InSymbol (Quoted (rune_of ")"))
                    (InUnary (Quoted (rune_of ")"))
                       (InUnary (Quoted (rune_of ")")) (Unexpected (Quoted (rune_of ")"))))))))) /\
  EvalParseText "(1+)" = Some Panicked.
Proof. split; vm_compute; reflexivity. Qed.

(** ** Operators *)

Lemma priority_one op :
  priority op = 1 -> (op =? rune_of "+") || (op =? rune_of "-") = true.
Proof.
  unfold priority.
  destruct ((op =? rune_of "*") || (op =? rune_of "/")); [lia|].
  destruct ((op =? rune_of "+") || (op =? rune_of "-")); [reflexivity|lia].
Qed.

Lemma priority_cases op :
  1 <= priority op ->
  op = rune_of "+" \/ op = rune_of "-" \/ op = rune_of "*" \/ op = rune_of "/".
Proof.
  unfold priority.
  destruct ((op =? rune_of "*") || (op =? rune_of "/")) eqn:E.
  - apply orb_true_iff in E. destruct E as [E|E]; apply Z.eqb_eq in E; auto.
  - destruct ((op =? rune_of "+") || (op =? rune_of "-")) eqn:E'; [|lia].
    apply orb_true_iff in E'. destruct E' as [E'|E']; apply Z.eqb_eq in E'; auto.
Qed.

Lemma operator_not_paren c :
  1 <= priority (Z.of_N c) ->
  isLParen (TRune c) = false /\ isRParen (TRune c) = false.
Proof.
  intros H. cbn [isLParen isRParen].
  split.
  - destruct (N.eqb_spec c (N_of_ascii "(")) as [-> | ]; [vm_compute in H; now destruct H|reflexivity].
  - destruct (N.eqb_spec c (N_of_ascii ")")) as [-> | ]; [vm_compute in H; now destruct H|reflexivity].
Qed.

Lemma number_not_paren t :
  isNumber t = true -> isLParen t = false /\ isRParen t = false.
Proof. destruct t; try discriminate; now split. Qed.

(** ** The operators of a parsed tree, and the errors of its evaluation *)

Lemma Reads_grammarOps ParseFloat r e : Reads ParseFloat r e -> grammarOps e.
Proof. induction 1; cbn [grammarOps]; auto. Qed.

Lemma Eval_grammarOps e v err :
  grammarOps e -> Eval e = (v, Some err) ->
  rootCause err = DivisionByZero /\ v = F64.zero.
Proof.
  revert v err. induction e as [f|op x IHx|op x IHx y IHy]; intros v err G H; cbn [Eval] in H.
  - discriminate.
  - destruct G as [Gp Gx].
    destruct (Eval x) as [x' [ex|]] eqn:E.
    + injection H as <- <-. cbn [rootCause]. split; [|reflexivity].
      exact (proj1 (IHx _ _ Gx eq_refl)).
    + apply priority_one, orb_true_iff in Gp.
      destruct (op =? rune_of "+"); [discriminate|].
      destruct (op =? rune_of "-"); [discriminate|].
      destruct Gp; discriminate.
  - destruct G as (Gp & Gx & Gy).
    destruct (Eval x) as [x' [ex|]] eqn:Ex.
    + injection H as <- <-. cbn [rootCause]. split; [|reflexivity].
      exact (proj1 (IHx _ _ Gx eq_refl)).
    + destruct (Eval y) as [y' [ey|]] eqn:Ey.
      * injection H as <- <-. cbn [rootCause]. split; [|reflexivity].
        exact (proj1 (IHy _ _ Gy eq_refl)).
      * destruct (priority_cases _ Gp) as [-> | [-> | [-> | -> ]]];
          cbn [Z.eqb rune_of] in H; try discriminate.
        revert H. change (rune_of "/" =? rune_of "+") with false.
        change (rune_of "/" =? rune_of "-") with false.
        change (rune_of "/" =? rune_of "*") with false.
        change (rune_of "/" =? rune_of "/") with true. cbv iota.
        destruct (F64.eqb y' F64.zero); [|discriminate].
        intros H. injection H as <- <-. now split.
Qed.

(** ** The shape of the inputs [Parse] accepts *)

Section Shape.

Variable ParseFloat : string -> float64 * option NumError.

Lemma Reads_inorder r e : Reads ParseFloat r e -> inorder e = items ParseFloat r.
Proof.
  unfold items.
  induction 1 as [t f Ht Hf|c r x Hc R IH|c r1 r2 x y Hc R1 IH1 R2 IH2|r e R IH].
  - destruct t; try discriminate; cbn in *; now rewrite Hf.
  - cbn [inorder flat_map itemOf].
    destruct (operator_not_paren c) as [-> ->]; [lia|]. cbn. now rewrite IH.
  - cbn [inorder]. rewrite flat_map_app. cbn [flat_map itemOf].
    destruct (operator_not_paren c Hc) as [-> ->]. cbn. now rewrite IH1, IH2.
  - cbn [flat_map]. rewrite flat_map_app. cbn. now rewrite app_nil_r.
Qed.

Lemma Reads_nesting r e :
  Reads ParseFloat r e -> forall d rest, nesting d (r ++ rest) = nesting d rest.
Proof.
  induction 1 as [t f Ht Hf|c r x Hc R IH|c r1 r2 x y Hc R1 IH1 R2 IH2|r e R IH];
    intros d rest.
  - cbn [app nesting]. now destruct (number_not_paren t Ht) as [-> ->].
  - cbn [app nesting].
    destruct (operator_not_paren c) as [-> ->]; [lia|]. apply IH.
  - rewrite <- app_assoc, IH1. cbn [app nesting].
    destruct (operator_not_paren c Hc) as [-> ->]. apply IH2.
  - cbn [app nesting]. change (isLParen tLParen) with true. cbv iota.
    rewrite <- app_assoc, IH. reflexivity.
Qed.

Lemma Reads_grammarTok r e :
  Reads ParseFloat r e -> Forall (fun t => grammarTok t = true) r.
Proof.
  unfold grammarTok.
  induction 1 as [t f Ht Hf|c r x Hc R IH|c r1 r2 x y Hc R1 IH1 R2 IH2|r e R IH].
  - constructor; [|constructor]. now rewrite Ht.
  - constructor; [|exact IH]. cbn. replace (1 <=? priority (Z.of_N c)) with true; [reflexivity|].
    symmetry. apply Z.leb_le. lia.
  - apply Forall_app. split; [exact IH1|]. constructor; [|exact IH2].
    cbn. replace (1 <=? priority (Z.of_N c)) with true; [reflexivity|].
    symmetry. now apply Z.leb_le.
  - constructor; [reflexivity|]. apply Forall_app. split; [exact IH|].
    constructor; [reflexivity|constructor].
Qed.

Lemma Reads_starts r e :
  Reads ParseFloat r e -> exists t rest, r = t :: rest /\ startsExpr t = true.
Proof.
  unfold startsExpr.
  induction 1 as [t f Ht Hf|c r x Hc R IH|c r1 r2 x y Hc R1 IH1 R2 IH2|r e R IH].
  - exists t, []. now rewrite Ht.
  - exists (TRune c), r. split; [reflexivity|]. cbn. rewrite Hc. reflexivity.
  - destruct IH1 as (t & rest & -> & Ht). now exists t, (rest ++ TRune c :: r2).
  - now exists tLParen, (r ++ [tRParen]).
Qed.

Lemma Reads_ends r e :
  Reads ParseFloat r e -> exists init t, r = init ++ [t] /\ endsExpr t = true.
Proof.
  unfold endsExpr.
  induction 1 as [t f Ht Hf|c r x Hc R IH|c r1 r2 x y Hc R1 IH1 R2 IH2|r e R IH].
  - exists [], t. now rewrite Ht.
  - destruct IH as (init & t & -> & Ht). now exists (TRune c :: init), t.
  - destruct IH2 as (init & t & -> & Ht). exists (r1 ++ TRune c :: init), t.
    split; [|exact Ht]. now rewrite <- app_assoc.
  - now exists (tLParen :: r), tRParen.
Qed.

(** ** Without parentheses: precedence and associativity *)

Lemma signedLiteral_productChain e : signedLiteral e -> productChain e.
Proof. destruct e; cbn; auto. contradiction. Qed.

Lemma productChain_sumChain e : productChain e -> sumChain e.
Proof. destruct e; cbn; auto. Qed.

Lemma shaped_down j k e : j <= k -> shaped k e -> shaped j e.
Proof.
  unfold shaped. intros H.
  destruct (3 <=? k) eqn:K3, (3 <=? j) eqn:J3; try lia; auto.
  - intros S. destruct (2 <=? j);
      auto using signedLiteral_productChain, productChain_sumChain.
  - destruct (2 <=? k) eqn:K2, (2 <=? j) eqn:J2; try lia; auto.
    apply productChain_sumChain.
Qed.

Lemma signedLiteral_shaped p e : signedLiteral e -> shaped p e.
Proof.
  intros H. unfold shaped.
  destruct (3 <=? p); [exact H|].
  destruct (2 <=? p); auto using signedLiteral_productChain, productChain_sumChain.
Qed.

Lemma shaped_operator p op l y :
  1 <= p -> priority op = p -> shaped p l -> shaped (p + 1) y ->
  shaped p (binary op l y).
Proof.
  intros Hp Ho. pose proof (priority_range op) as R.
  assert (C : p = 1 \/ p = 2) by lia.
  destruct C as [->| ->]; cbn; auto.
Qed.

Lemma descent_shape fuel :
  (forall r p e lex', ~ In tLParen r -> 1 <= p ->
     parseBinary ParseFloat fuel (lexOf r) p = Ok e lex' -> shaped p e) /\
  (forall r p0 p l e lex', ~ In tLParen r -> 1 <= p0 -> shaped (Z.max (p + 1) p0) l ->
     forPrio ParseFloat fuel (lexOf r) p0 p l = Ok e lex' -> shaped p0 e) /\
  (forall r p l e lex', ~ In tLParen r -> 1 <= p -> shaped p l ->
     forSame ParseFloat fuel (lexOf r) p l = Ok e lex' -> shaped p e) /\
  (forall r e lex', ~ In tLParen r ->
     parseUnary ParseFloat fuel (lexOf r) = Ok e lex' -> signedLiteral e) /\
  (forall r e lex', ~ In tLParen r ->
     parsePrimary ParseFloat fuel (lexOf r) = Ok e lex' -> signedLiteral e) /\
  (forall r e lex', ~ In tLParen r ->
     parseExpr ParseFloat fuel (lexOf r) = Ok e lex' -> sumChain e).
Proof.
  induction fuel as [|fuel IH].
  - repeat split; intros; discriminate.
  - destruct IH as (IHB & IHFP & IHFS & IHU & IHP & IHE).
    destruct (descent_reads ParseFloat fuel) as (RB & RFP & RFS & RU & RP & RE).
    repeat split.
    + (* parseBinary *)
      intros r p e lex' Hn Hp H. rewrite parseBinary_S in H.
      destruct (parseUnary ParseFloat fuel (lexOf r)) as [l l1| | |] eqn:E; try discriminate.
      pose proof (IHU _ _ _ Hn E) as Sl.
      destruct (RU _ _ _ E) as (pre1 & r1 & -> & -> & _).
      eapply IHFP; [| exact Hp | | exact H].
      * intros HI. apply Hn, in_or_app. now right.
      * now apply signedLiteral_shaped.
    + (* forPrio *)
      intros r p0 p l e lex' Hn Hp Sl H. rewrite forPrio_S in H.
      destruct (p >=? p0) eqn:G.
      * destruct (forSame ParseFloat fuel (lexOf r) p l) as [l1 lex1| | |] eqn:E; try discriminate.
        assert (Hp1 : 1 <= p) by lia.
        assert (Sl1 : shaped p l1).
        { eapply IHFS; [exact Hn|exact Hp1| |exact E].
          revert Sl. apply shaped_down. lia. }
        destruct (RFS _ _ _ _ _ Hp1 E) as (pre1 & r1 & -> & -> & _).
        eapply IHFP; [| exact Hp | | exact H].
        -- intros HI. apply Hn, in_or_app. now right.
        -- replace (Z.max (p - 1 + 1) p0) with p by lia. exact Sl1.
      * injection H as <- <-. replace (Z.max (p + 1) p0) with p0 in Sl by lia. exact Sl.
    + (* forSame *)
      intros r p l e lex' Hn Hp Sl H. rewrite forSame_S in H.
      destruct (priority (token (lexOf r)) =? p) eqn:G.
      * apply Z.eqb_eq in G.
        destruct (token_operator_inv r) as (c & r1 & -> & Hc); [lia|].
        rewrite next_lexOf_cons in H.
        destruct (parseBinary ParseFloat fuel (lexOf r1) (p + 1)) as [y lex1| | |] eqn:E;
          try discriminate.
        assert (Hp2 : 1 <= p + 1) by lia.
        assert (Hn1 : ~ In tLParen r1) by (intros HI; apply Hn; now right).
        pose proof (IHB _ _ _ _ Hn1 Hp2 E) as Sy.
        destruct (RB _ _ _ _ Hp2 E) as (pre1 & r2 & -> & -> & _).
        eapply IHFS; [| exact Hp | | exact H].
        -- intros HI. apply Hn1, in_or_app. now right.
        -- now apply shaped_operator.
      * now injection H as <- <-.
    + (* parseUnary *)
      intros r e lex' Hn H. rewrite parseUnary_S in H.
      destruct ((token (lexOf r) =? rune_of "+") || (token (lexOf r) =? rune_of "-")) eqn:G.
      * pose proof (sign_priority _ G) as Hs.
        destruct (token_operator_inv r) as (c & r1 & -> & Hc); [lia|].
        rewrite next_lexOf_cons in H.
        destruct (parseUnary ParseFloat fuel (lexOf r1)) as [x lex1| | |] eqn:E; try discriminate.
        injection H as <- <-. cbn [signedLiteral].
        eapply IHU; [|exact E]. intros HI; apply Hn; now right.
      * eapply IHP; eauto.
    + (* parsePrimary *)
      intros r e lex' Hn H. rewrite parsePrimary_S in H.
      destruct ((token (lexOf r) =? scanner.Int) || (token (lexOf r) =? scanner.Float)) eqn:G.
      * destruct (ParseFloat (text (lexOf r))) as [f [err|]]; try discriminate.
        now injection H as <- <-.
      * destruct (token (lexOf r) =? rune_of "(") eqn:G1; try discriminate.
        apply Z.eqb_eq in G1. destruct (token_rune_inv _ _ G1) as (r1 & ->).
        exfalso. apply Hn. now left.
    + (* parseExpr *)
      intros r e lex' Hn H. rewrite parseExpr_S in H.
      change (shaped 1 e). eapply IHB; [exact Hn| |exact H]. lia.
Qed.

End Shape.

(** ** Signs before a number *)

Section Signs.

Variable ParseFloat : string -> float64 * option NumError.

Lemma number_not_sign t r :
  isNumber t = true ->
  (token (lexOf (t :: r)) =? rune_of "+") || (token (lexOf (t :: r)) =? rune_of "-") = false.
Proof. rewrite token_lexOf_cons. destruct t; try discriminate; reflexivity. Qed.

Lemma parseUnary_signs cs :
  forall fuel tk rest f,
    Forall (fun c => priority (Z.of_N c) = 1) cs ->
    isNumber tk = true -> ParseFloat (tok_text tk) = (f, None) ->
    (List.length cs + 2 <= fuel)%nat ->
    parseUnary ParseFloat fuel (lexOf (map TRune cs ++ tk :: rest))
    = Ok (signChain cs (num f)) (lexOf rest).
Proof.
  induction cs as [|c cs IH]; intros fuel tk rest f Hs Ht Hf Hfuel.
  - destruct fuel as [|[|fuel]]; cbn [List.length] in Hfuel; try lia.
    cbn [map app signChain fold_right].
    rewrite parseUnary_S, (number_not_sign tk rest Ht), parsePrimary_S.
    rewrite (number_token tk rest Ht), text_lexOf_cons, Hf, next_lexOf_cons.
    reflexivity.
  - destruct fuel as [|fuel]; cbn [List.length] in Hfuel; try lia.
    inversion Hs as [|? ? Hc Hs']; subst.
    cbn [map app]. rewrite parseUnary_S.
    rewrite token_lexOf_cons. cbn [tok_rune].
    rewrite (priority_one _ Hc), next_lexOf_cons.
    rewrite (IH fuel tk rest f Hs' Ht Hf) by lia.
    reflexivity.
Qed.

Lemma Parse_signs cs tk f :
  Forall (fun c => priority (Z.of_N c) = 1) cs ->
  isNumber tk = true -> ParseFloat (tok_text tk) = (f, None) ->
  Parse ParseFloat (map TRune cs ++ [tk]) = Returned (signChain cs (num f)).
Proof.
  intros Hs Ht Hf. apply Parse_intro.
  replace (depth (List.length (map TRune cs ++ [tk])))
    with (S (S (S (S (S (4 * List.length cs + 4))))))
    by (rewrite length_app, length_map; cbn [List.length]; unfold depth; lia).
  rewrite parseExpr_S, parseBinary_S.
  rewrite (parseUnary_signs cs _ tk [] f Hs Ht Hf) by lia.
  rewrite forPrio_S. reflexivity.
Qed.

End Signs.

Lemma neg_neg v : F64.neg (F64.neg v) = v.
Proof. destruct v; cbn; now rewrite ?negb_involutive. Qed.

Lemma Eval_signs cs f :
  Forall (fun c => priority (Z.of_N c) = 1) cs ->
  Eval (signChain cs (num f))
  = (if Nat.even (minuses cs) then f else F64.neg f, None).
Proof.
  induction 1 as [|c cs Hc Hs IH]; [reflexivity|].
  cbn [signChain fold_right Eval]. fold (signChain cs (num f)). rewrite IH.
  destruct (priority_cases (Z.of_N c)) as [E|[E|[E|E]]]; [lia| | |rewrite E in Hc..];
    try (vm_compute in Hc; discriminate Hc).
  - rewrite E. change (rune_of "+" =? rune_of "+") with true. cbv iota.
    assert (c = N_of_ascii "+") as -> by (apply N2Z.inj; exact E).
    reflexivity.
  - rewrite E. change (rune_of "-" =? rune_of "+") with false.
    change (rune_of "-" =? rune_of "-") with true. cbv iota.
    assert (c = N_of_ascii "-") as -> by (apply N2Z.inj; exact E).
    unfold minuses. cbn [filter]. change (N.eqb (N_of_ascii "-") (N_of_ascii "-")) with true.
    cbv iota. cbn [List.length]. fold (minuses cs).
    rewrite Nat.even_succ, <- Nat.negb_even.
    destruct (Nat.even (minuses cs)); cbn [negb]; [reflexivity|].
    now rewrite neg_neg.
Qed.

(** ** Where a parse stops *)

Section Stops.

Variable ParseFloat : string -> float64 * option NumError.

(** What follows a whole expression. *)
Lemma Parse_followed r t sfx :
  Parse ParseFloat r = Returned t -> closes sfx ->
  parseExpr ParseFloat (depth (List.length r)) (lexOf (r ++ sfx)) = Ok t (lexOf sfx).
Proof.
  intros H Hs. apply Parse_inv in H.
  destruct (proj2 (proj2 (proj2 (proj2 (proj2
              (descent_alike ParseFloat eq sfx Hs (depth (List.length r)))))))
              r r t _ (alike_refl _ r) H) as (r1 & r1' & e' & E1 & A1 & S1 & H').
  apply similar_eq in S1. subst e'.
  assert (r1 = []) as ->.
  { apply token_lexOf_EOF. now rewrite <- E1. }
  inversion A1; subst. exact H'.
Qed.

Lemma descent_stops fuel :
  (forall r p err lex', 1 <= p ->
     parseBinary ParseFloat fuel (lexOf r) p = Err err lex' ->
     exists pre r', r = pre ++ r' /\ lex' = lexOf r' /\ namesOnly (lexString lex') err) /\
  (forall r p0 p l err lex', 1 <= p0 ->
     forPrio ParseFloat fuel (lexOf r) p0 p l = Err err lex' ->
     exists pre r', r = pre ++ r' /\ lex' = lexOf r' /\ namesOnly (lexString lex') err) /\
  (forall r p l err lex', 1 <= p ->
     forSame ParseFloat fuel (lexOf r) p l = Err err lex' ->
     exists pre r', r = pre ++ r' /\ lex' = lexOf r' /\ namesOnly (lexString lex') err) /\
  (forall r err lex',
     parseUnary ParseFloat fuel (lexOf r) = Err err lex' ->
     exists pre r', r = pre ++ r' /\ lex' = lexOf r' /\ namesOnly (lexString lex') err) /\
  (forall r err lex',
     parsePrimary ParseFloat fuel (lexOf r) = Err err lex' ->
     exists pre r', r = pre ++ r' /\ lex' = lexOf r' /\ namesOnly (lexString lex') err) /\
  (forall r err lex',
     parseExpr ParseFloat fuel (lexOf r) = Err err lex' ->
     exists pre r', r = pre ++ r' /\ lex' = lexOf r' /\ namesOnly (lexString lex') err).
Proof.
  induction fuel as [|fuel IH].
  - repeat split; intros; discriminate.
  - destruct IH as (IHB & IHFP & IHFS & IHU & IHP & IHE).
    destruct (descent_reads ParseFloat fuel) as (RB & RFP & RFS & RU & RP & RE).
    repeat split.
    + (* parseBinary *)
      intros r p err lex' Hp H. rewrite parseBinary_S in H.
      destruct (parseUnary ParseFloat fuel (lexOf r)) as [l l1|err1 l1| |] eqn:E;
        try discriminate.
      * destruct (RU _ _ _ E) as (pre1 & r1 & -> & -> & _).
        destruct (IHFP _ _ _ _ _ _ Hp H) as (pre2 & r2 & -> & -> & N).
        exists (pre1 ++ pre2), r2. rewrite app_assoc. auto.
      * injection H as <- <-.
        destruct (IHU _ _ _ E) as (pre1 & r1 & -> & -> & N).
        exists pre1, r1. cbn [namesOnly]. auto.
    + (* forPrio *)
      intros r p0 p l err lex' Hp H. rewrite forPrio_S in H.
      destruct (p >=? p0) eqn:G; [|discriminate].
      assert (Hp1 : 1 <= p) by lia.
      destruct (forSame ParseFloat fuel (lexOf r) p l) as [l1 lex1|err1 lex1| |] eqn:E;
        try discriminate.
      * destruct (RFS _ _ _ _ _ Hp1 E) as (pre1 & r1 & -> & -> & _).
        destruct (IHFP _ _ _ _ _ _ Hp H) as (pre2 & r2 & -> & -> & N).
        exists (pre1 ++ pre2), r2. rewrite app_assoc. auto.
      * injection H as <- <-. exact (IHFS _ _ _ _ _ Hp1 E).
    + (* forSame *)
      intros r p l err lex' Hp H. rewrite forSame_S in H.
      destruct (priority (token (lexOf r)) =? p) eqn:G; [|discriminate].
      apply Z.eqb_eq in G.
      destruct (token_operator_inv r) as (c & r1 & -> & Hc); [lia|].
      rewrite next_lexOf_cons in H.
      assert (Hp2 : 1 <= p + 1) by lia.
      destruct (parseBinary ParseFloat fuel (lexOf r1) (p + 1)) as [y lex1|err1 lex1| |] eqn:E;
        try discriminate.
      * destruct (RB _ _ _ _ Hp2 E) as (pre1 & r2 & -> & -> & _).
        destruct (IHFS _ _ _ _ _ Hp H) as (pre2 & r3 & -> & -> & N).
        exists (TRune c :: pre1 ++ pre2), r3. cbn [app]. rewrite <- app_assoc. auto.
      * injection H as <- <-.
        destruct (IHB _ _ _ _ Hp2 E) as (pre1 & r2 & -> & -> & N).
        exists (TRune c :: pre1), r2. cbn [namesOnly]. auto.
    + (* parseUnary *)
      intros r err lex' H. rewrite parseUnary_S in H.
      destruct ((token (lexOf r) =? rune_of "+") || (token (lexOf r) =? rune_of "-")) eqn:G.
      * pose proof (sign_priority _ G) as Hs.
        destruct (token_operator_inv r) as (c & r1 & -> & Hc); [lia|].
        rewrite next_lexOf_cons in H.
        destruct (parseUnary ParseFloat fuel (lexOf r1)) as [x lex1|err1 lex1| |] eqn:E;
          try discriminate.
        injection H as <- <-.
        destruct (IHU _ _ _ E) as (pre1 & r2 & -> & -> & N).
        exists (TRune c :: pre1), r2. cbn [namesOnly]. auto.
      * exact (IHP _ _ _ H).
    + (* parsePrimary *)
      intros r err lex' H. rewrite parsePrimary_S in H.
      destruct ((token (lexOf r) =? scanner.Int) || (token (lexOf r) =? scanner.Float)) eqn:G.
      * destruct (ParseFloat (text (lexOf r))) as [f [e|]]; try discriminate.
        injection H as <- <-. exists [], r. cbn [namesOnly]. auto.
      * destruct (token (lexOf r) =? rune_of "(") eqn:G1.
        -- apply Z.eqb_eq in G1. destruct (token_rune_inv _ _ G1) as (r1 & ->).
           rewrite next_lexOf_cons in H.
           destruct (parseExpr ParseFloat fuel (lexOf r1)) as [x lex1|err1 lex1| |] eqn:E;
             try discriminate.
           ++ destruct (RE _ _ _ E) as (pre1 & r2 & -> & -> & _).
              destruct (negb (token (lexOf r2) =? rune_of ")")); try discriminate.
              injection H as <- <-.
              exists (TRune (N_of_ascii "(") :: pre1), r2. cbn [namesOnly]. auto.
           ++ injection H as <- <-.
              destruct (IHE _ _ _ E) as (pre1 & r2 & -> & -> & N).
              exists (TRune (N_of_ascii "(") :: pre1), r2. cbn [namesOnly]. auto.
        -- injection H as <- <-. exists [], r. cbn [namesOnly]. auto.
    + (* parseExpr *)
      intros r err lex' H. rewrite parseExpr_S in H.
      eapply IHB; [|exact H]. lia.
Qed.

End Stops.

(** ** What follows the token a parse stops at *)

Lemma lexOf_inj r r' : lexOf r = lexOf r' -> r = r'.
Proof.
  destruct r as [|t r], r' as [|t' r']; try reflexivity.
  - intros H. apply (f_equal token) in H. rewrite token_lexOf_nil, token_lexOf_cons in H.
    symmetry in H. now apply tok_rune_not_EOF in H.
  - intros H. apply (f_equal token) in H. rewrite token_lexOf_nil, token_lexOf_cons in H.
    now apply tok_rune_not_EOF in H.
  - intros H.
    pose proof (f_equal token H) as Ht. pose proof (f_equal text H) as Hx.
    pose proof (f_equal scan H) as Hs.
    rewrite !token_lexOf_cons in Ht. rewrite !text_lexOf_cons in Hx.
    cbn in Hs. subst r'. f_equal.
    destruct t, t'; cbn in Ht, Hx; unfold scanner.Ident, scanner.Int, scanner.Float in Ht;
      try lia; try (now subst).
    apply N2Z.inj in Ht. now subst.
Qed.

Lemma same_look r r' :
  hd_error r' = hd_error r ->
  token (lexOf r') = token (lexOf r) /\ text (lexOf r') = text (lexOf r) /\
  lexString (lexOf r') = lexString (lexOf r).
Proof.
  destruct r as [|t r], r' as [|t' r']; cbn [hd_error]; try discriminate.
  - now intros _.
  - intros H. injection H as ->.
    unfold lexString. rewrite !token_lexOf_cons, !text_lexOf_cons. now repeat split.
Qed.

Section Tail.

Variable ParseFloat : string -> float64 * option NumError.

(** A parsing function reads the tokens it consumes and looks at the
    next one, no further: what follows the next token does not change
    what it returns. *)
Lemma descent_tail fuel :
  (forall r p l0, 1 <= p ->
     lexerLeft (parseBinary ParseFloat fuel (lexOf r) p) = Some l0 ->
     exists pre rest, r = pre ++ rest /\ l0 = lexOf rest /\
       forall rest', hd_error rest' = hd_error rest ->
         parseBinary ParseFloat fuel (lexOf (pre ++ rest')) p
         = relocate (parseBinary ParseFloat fuel (lexOf r) p) (lexOf rest')) /\
  (forall r p0 p l l0, 1 <= p0 ->
     lexerLeft (forPrio ParseFloat fuel (lexOf r) p0 p l) = Some l0 ->
     exists pre rest, r = pre ++ rest /\ l0 = lexOf rest /\
       forall rest', hd_error rest' = hd_error rest ->
         forPrio ParseFloat fuel (lexOf (pre ++ rest')) p0 p l
         = relocate (forPrio ParseFloat fuel (lexOf r) p0 p l) (lexOf rest')) /\
  (forall r p l l0, 1 <= p ->
     lexerLeft (forSame ParseFloat fuel (lexOf r) p l) = Some l0 ->
     exists pre rest, r = pre ++ rest /\ l0 = lexOf rest /\
       forall rest', hd_error rest' = hd_error rest ->
         forSame ParseFloat fuel (lexOf (pre ++ rest')) p l
         = relocate (forSame ParseFloat fuel (lexOf r) p l) (lexOf rest')) /\
  (forall r l0,
     lexerLeft (parseUnary ParseFloat fuel (lexOf r)) = Some l0 ->
     exists pre rest, r = pre ++ rest /\ l0 = lexOf rest /\
       forall rest', hd_error rest' = hd_error rest ->
         parseUnary ParseFloat fuel (lexOf (pre ++ rest'))
         = relocate (parseUnary ParseFloat fuel (lexOf r)) (lexOf rest')) /\
  (forall r l0,
     lexerLeft (parsePrimary ParseFloat fuel (lexOf r)) = Some l0 ->
     exists pre rest, r = pre ++ rest /\ l0 = lexOf rest /\
       forall rest', hd_error rest' = hd_error rest ->
         parsePrimary ParseFloat fuel (lexOf (pre ++ rest'))
         = relocate (parsePrimary ParseFloat fuel (lexOf r)) (lexOf rest')) /\
  (forall r l0,
     lexerLeft (parseExpr ParseFloat fuel (lexOf r)) = Some l0 ->
     exists pre rest, r = pre ++ rest /\ l0 = lexOf rest /\
       forall rest', hd_error rest' = hd_error rest ->
         parseExpr ParseFloat fuel (lexOf (pre ++ rest'))
         = relocate (parseExpr ParseFloat fuel (lexOf r)) (lexOf rest')).
Proof.
  induction fuel as [|fuel IH].
  - repeat split; intros; discriminate.
  - destruct IH as (IHB & IHFP & IHFS & IHU & IHP & IHE).
    repeat split.
    + (* parseBinary *)
      intros r p l0 Hp H. rewrite parseBinary_S in *.
      destruct (parseUnary ParseFloat fuel (lexOf r)) as [l l1|err1 l1| |] eqn:E;
        try discriminate.
      * destruct (IHU r l1) as (pre1 & r1 & -> & -> & T1); [now rewrite E|].
        rewrite E in T1. cbn [relocate] in T1.
        destruct (IHFP r1 p (priority (token (lexOf r1))) l l0 Hp H)
          as (pre2 & r2 & -> & -> & T2).
        exists (pre1 ++ pre2), r2. rewrite app_assoc. repeat split.
        intros rest' Hh. rewrite <- app_assoc, (parseBinary_S _ fuel).
        rewrite (T1 (pre2 ++ rest')).
        -- destruct (same_look (pre2 ++ r2) (pre2 ++ rest')) as (-> & _).
           { destruct pre2; [exact Hh|reflexivity]. }
           now apply T2.
        -- destruct pre2; [exact Hh|reflexivity].
      * cbn [lexerLeft] in H. injection H as <-.
        destruct (IHU r l1) as (pre1 & r1 & -> & -> & T1); [now rewrite E|].
        rewrite E in T1. cbn [relocate] in T1.
        exists pre1, r1. repeat split.
        intros rest' Hh. rewrite (parseBinary_S _ fuel), (T1 rest' Hh). cbn [relocate].
        now destruct (same_look r1 rest' Hh) as (_ & _ & ->).
    + (* forPrio *)
      intros r p0 p l l0 Hp H. rewrite forPrio_S in *.
      destruct (p >=? p0) eqn:G.
      * assert (Hp1 : 1 <= p) by lia.
        destruct (forSame ParseFloat fuel (lexOf r) p l) as [l1 lex1|err1 lex1| |] eqn:E;
          try discriminate.
        -- destruct (IHFS r p l lex1 Hp1) as (pre1 & r1 & -> & -> & T1); [now rewrite E|].
           rewrite E in T1. cbn [relocate] in T1.
           destruct (IHFP r1 p0 (p - 1) l1 l0 Hp H) as (pre2 & r2 & -> & -> & T2).
           exists (pre1 ++ pre2), r2. rewrite app_assoc. repeat split.
           intros rest' Hh. rewrite <- app_assoc, (forPrio_S _ fuel), G.
           rewrite (T1 (pre2 ++ rest')); [now apply T2|].
           destruct pre2; [exact Hh|reflexivity].
        -- cbn [lexerLeft] in H. injection H as <-.
           destruct (IHFS r p l lex1 Hp1) as (pre1 & r1 & -> & -> & T1); [now rewrite E|].
           rewrite E in T1. cbn [relocate] in T1.
           exists pre1, r1. repeat split.
           intros rest' Hh. now rewrite (forPrio_S _ fuel), G, (T1 rest' Hh).
      * cbn [lexerLeft] in H. injection H as <-.
        exists [], r. repeat split.
        intros rest' Hh. cbn [app]. now rewrite (forPrio_S _ fuel), G.
    + (* forSame *)
      intros r p l l0 Hp H. rewrite forSame_S in *.
      destruct (priority (token (lexOf r)) =? p) eqn:G.
      * pose proof G as G'. apply Z.eqb_eq in G'.
        destruct (token_operator_inv r) as (c & r1 & -> & Hc); [lia|].
        rewrite next_lexOf_cons, ?token_lexOf_cons in *.
        assert (Hp2 : 1 <= p + 1) by lia.
        destruct (parseBinary ParseFloat fuel (lexOf r1) (p + 1)) as [y lex1|err1 lex1| |] eqn:E;
          try discriminate.
        -- destruct (IHB r1 (p + 1) lex1 Hp2) as (pre1 & r2 & -> & -> & T1); [now rewrite E|].
           rewrite E in T1. cbn [relocate] in T1.
           destruct (IHFS r2 p _ l0 Hp H) as (pre2 & r3 & -> & -> & T2).
           exists (TRune c :: pre1 ++ pre2), r3. repeat split.
           { cbn [app]. now rewrite <- app_assoc. }
           intros rest' Hh. cbn [app]. rewrite (forSame_S _ fuel), token_lexOf_cons, G.
           rewrite next_lexOf_cons, <- app_assoc, (T1 (pre2 ++ rest')); [now apply T2|].
           destruct pre2; [exact Hh|reflexivity].
        -- cbn [lexerLeft] in H. injection H as <-.
           destruct (IHB r1 (p + 1) lex1 Hp2) as (pre1 & r2 & -> & -> & T1); [now rewrite E|].
           rewrite E in T1. cbn [relocate] in T1.
           exists (TRune c :: pre1), r2. repeat split.
           intros rest' Hh. cbn [app]. rewrite (forSame_S _ fuel), token_lexOf_cons, G.
           rewrite next_lexOf_cons, (T1 rest' Hh). cbn [relocate].
           now destruct (same_look r2 rest' Hh) as (_ & _ & ->).
      * cbn [lexerLeft] in H. injection H as <-.
        exists [], r. repeat split.
        intros rest' Hh. cbn [app]. rewrite (forSame_S _ fuel).
        destruct (same_look r rest' Hh) as (-> & _). now rewrite G.
    + (* parseUnary *)
      intros r l0 H. rewrite parseUnary_S in *.
      destruct ((token (lexOf r) =? rune_of "+") || (token (lexOf r) =? rune_of "-")) eqn:G.
      * pose proof (sign_priority _ G) as Hs.
        destruct (token_operator_inv r) as (c & r1 & -> & Hc); [lia|].
        rewrite next_lexOf_cons, ?token_lexOf_cons in *.
        destruct (parseUnary ParseFloat fuel (lexOf r1)) as [x lex1|err1 lex1| |] eqn:E;
          try discriminate.
        -- cbn [lexerLeft] in H. injection H as <-.
           destruct (IHU r1 lex1) as (pre1 & r2 & -> & -> & T1); [now rewrite E|].
           rewrite E in T1. cbn [relocate] in T1.
           exists (TRune c :: pre1), r2. repeat split.
           intros rest' Hh. cbn [app]. rewrite (parseUnary_S _ fuel), token_lexOf_cons, G.
           now rewrite next_lexOf_cons, (T1 rest' Hh).
        -- cbn [lexerLeft] in H. injection H as <-.
           destruct (IHU r1 lex1) as (pre1 & r2 & -> & -> & T1); [now rewrite E|].
           rewrite E in T1. cbn [relocate] in T1.
           exists (TRune c :: pre1), r2. repeat split.
           intros rest' Hh. cbn [app]. rewrite (parseUnary_S _ fuel), token_lexOf_cons, G.
           rewrite next_lexOf_cons, (T1 rest' Hh). cbn [relocate].
           now destruct (same_look r2 rest' Hh) as (_ & _ & ->).
      * destruct (IHP r l0 H) as (pre & rest & -> & -> & T).
        exists pre, rest. repeat split.
        intros rest' Hh. rewrite (parseUnary_S _ fuel).
        destruct (same_look (pre ++ rest) (pre ++ rest')) as (-> & _).
        { destruct pre; [exact Hh|reflexivity]. }
        rewrite G. now apply T.
    + (* parsePrimary *)
      intros r l0 H. rewrite parsePrimary_S in *.
      destruct ((token (lexOf r) =? scanner.Int) || (token (lexOf r) =? scanner.Float)) eqn:G.
      * destruct (token_number_inv r G) as (t & r1 & -> & Ht).
        rewrite text_lexOf_cons, next_lexOf_cons, ?token_lexOf_cons in *.
        destruct (ParseFloat (tok_text t)) as [f [err|]] eqn:Ef.
        -- cbn [lexerLeft] in H. injection H as <-.
           exists [], (t :: r1). repeat split.
           intros rest' Hh. cbn [app]. rewrite (parsePrimary_S _ fuel).
           destruct (same_look (t :: r1) rest' Hh) as (-> & -> & ->).
           rewrite text_lexOf_cons, token_lexOf_cons, G, Ef. reflexivity.
        -- cbn [lexerLeft] in H. injection H as <-.
           exists [t], r1. repeat split.
           intros rest' Hh. cbn [app]. rewrite (parsePrimary_S _ fuel), token_lexOf_cons, G.
           now rewrite text_lexOf_cons, Ef, next_lexOf_cons.
      * destruct (token (lexOf r) =? rune_of "(") eqn:G1.
        -- pose proof G1 as G1'. apply Z.eqb_eq in G1'.
           destruct (token_rune_inv _ _ G1') as (r1 & ->).
           rewrite next_lexOf_cons, ?token_lexOf_cons in *.
           destruct (parseExpr ParseFloat fuel (lexOf r1)) as [x lex1|err1 lex1| |] eqn:E;
             try discriminate.
           ++ destruct (IHE r1 lex1) as (pre1 & r2 & -> & -> & T1); [now rewrite E|].
              rewrite E in T1. cbn [relocate] in T1.
              destruct (token (lexOf r2) =? rune_of ")") eqn:G2; cbn [negb] in *.
              ** pose proof G2 as G2'. apply Z.eqb_eq in G2'.
                 destruct (token_rune_inv _ _ G2') as (r3 & ->).
                 rewrite token_lexOf_cons in G2.
                 rewrite next_lexOf_cons in H. cbn [lexerLeft] in H. injection H as <-.
                 exists (TRune (N_of_ascii "(") :: pre1 ++ [TRune (N_of_ascii ")")]), r3.
                 repeat split.
                 { cbn [app]. now rewrite <- app_assoc. }
                 intros rest' Hh. cbn [app]. rewrite (parsePrimary_S _ fuel), token_lexOf_cons, G, G1.
                 rewrite next_lexOf_cons, <- app_assoc. cbn [app].
                 rewrite (T1 (TRune (N_of_ascii ")") :: rest') eq_refl).
                 rewrite token_lexOf_cons, G2. cbn [negb]. now rewrite !next_lexOf_cons.
              ** cbn [lexerLeft] in H. injection H as <-.
                 exists (TRune (N_of_ascii "(") :: pre1), r2. repeat split.
                 intros rest' Hh. cbn [app]. rewrite (parsePrimary_S _ fuel), token_lexOf_cons, G, G1.
                 rewrite next_lexOf_cons, (T1 rest' Hh).
                 destruct (same_look r2 rest' Hh) as (-> & _ & ->).
                 rewrite G2. reflexivity.
           ++ cbn [lexerLeft] in H. injection H as <-.
              destruct (IHE r1 lex1) as (pre1 & r2 & -> & -> & T1); [now rewrite E|].
              rewrite E in T1. cbn [relocate] in T1.
              exists (TRune (N_of_ascii "(") :: pre1), r2. repeat split.
              intros rest' Hh. cbn [app]. rewrite (parsePrimary_S _ fuel), token_lexOf_cons, G, G1.
              rewrite next_lexOf_cons, (T1 rest' Hh). cbn [relocate].
              now destruct (same_look r2 rest' Hh) as (_ & _ & ->).
        -- cbn [lexerLeft] in H. injection H as <-.
           exists [], r. repeat split.
           intros rest' Hh. cbn [app]. rewrite (parsePrimary_S _ fuel).
           destruct (same_look r rest' Hh) as (-> & _ & ->).
           now rewrite G, G1.
    + (* parseExpr *)
      intros r l0 H. rewrite parseExpr_S in *.
      destruct (IHB r 1 l0) as (pre & rest & -> & -> & T); [lia|exact H|].
      exists pre, rest. repeat split.
      intros rest' Hh. rewrite (parseExpr_S _ fuel). now apply T.
Qed.

End Tail.

Lemma Parse_tail ParseFloat r pre rest :
  r = pre ++ rest ->
  lexerLeft (parseExpr ParseFloat (depth (List.length r)) (lexOf r)) = Some (lexOf rest) ->
  forall rest', hd_error rest' = hd_error rest ->
    parseExpr ParseFloat (depth (List.length (pre ++ rest'))) (lexOf (pre ++ rest'))
    = relocate (parseExpr ParseFloat (depth (List.length r)) (lexOf r)) (lexOf rest').
Proof.
  intros Hr HL rest' Hh.
  set (fuel := Nat.max (depth (List.length r)) (depth (List.length (pre ++ rest')))).
  rewrite <- (parseExpr_any_depth ParseFloat r fuel) in * by apply Nat.le_max_l.
  rewrite <- (parseExpr_any_depth ParseFloat (pre ++ rest') fuel) by apply Nat.le_max_r.
  destruct (proj2 (proj2 (proj2 (proj2 (proj2 (descent_tail ParseFloat fuel))))) r _ HL)
    as (pre0 & rest0 & E & E0 & T).
  apply lexOf_inj in E0. subst rest0.
  rewrite Hr in E. apply app_inv_tail in E. subst pre0.
  now apply T.
Qed.

(** ** The two modes, failures included *)

Lemma modes_fail_alike ParseFloat r :
  (EvalParse ParseFloat r = Panicked <->
   exists err, Parse ParseFloat r = Failed err /\ throughParen err = true) /\
  (forall err,
     EvalParse ParseFloat r = Failed err <->
     Parse ParseFloat r = Failed err /\ throughParen err = false).
Proof.
  unfold EvalParse, Parse. fold (lexOf r).
  pose proof (proj2 (proj2 (proj2 (proj2 (proj2 (eager_agrees ParseFloat (depth (List.length r)))))))
                (lexOf r)) as A.
  destruct (parseExpr ParseFloat (depth (List.length r)) (lexOf r)) as [e l|err0 l| |];
    destruct (evalparseExpr ParseFloat (depth (List.length r)) (lexOf r)) as [e' l'|err1 l'| |];
    cbn [agree] in A; try contradiction.
  - destruct A as [-> _].
    destruct (negb (token l =? scanner.EOF)).
    + split.
      * split; [discriminate|]. intros (err & H & T). injection H as <-. discriminate T.
      * intros err. split.
        -- intros H. injection H as <-. now split.
        -- now intros [H _].
    + split.
      * split; [discriminate|]. intros (err & H & _). discriminate H.
      * intros err. split; [discriminate|]. intros [H _]. discriminate H.
  - destruct A as (-> & -> & T). split.
    + split; [discriminate|]. intros (err & H & T'). injection H as <-.
      cbn [throughParen] in T'. congruence.
    + intros err. split.
      * intros H. injection H as <-. now split.
      * now intros [H _].
  - split.
    + split; [|reflexivity]. intros _. now exists (CouldNotParse (lexString l) err0).
    + intros err. split; [discriminate|]. intros [H T]. injection H as <-.
      cbn [throughParen] in T. congruence.
  - split.
    + split; [discriminate|]. intros (err & H & _). discriminate H.
    + intros err. split; [discriminate|]. intros [H _]. discriminate H.
Qed.

(** ** The tokens of a printed tree *)

Lemma toks_length e : Z.of_nat (List.length (toks e)) = nodes e.
Proof.
  induction e as [f|op x IHx|op x IHx y IHy]; cbn [toks nodes List.length].
  - reflexivity.
  - lia.
  - rewrite length_app. cbn [List.length]. lia.
Qed.

Lemma toks_no_paren e :
  printable e -> Forall (fun t => isLParen t = false /\ isRParen t = false) (toks e).
Proof.
  assert (O : forall op, 1 <= priority op ->
              isLParen (TRune (Z.to_N op)) = false /\ isRParen (TRune (Z.to_N op)) = false).
  { intros op H. apply operator_not_paren.
    destruct (priority_cases op H) as [-> | [-> | [-> | -> ]]]; vm_compute; discriminate. }
  induction e as [f|op x IHx|op x IHx y IHy]; cbn [toks printable].
  - intros _. constructor; [now split|constructor].
  - intros [Hp Hx]. constructor; auto.
  - intros (Hp & Hx & Hy). apply Forall_app. split; auto.
Qed.

(** ** A chain is the tree of its tokens *)

Section Completeness.

Variable ParseFloat : string -> float64 * option NumError.

Lemma grows_snoc p l tl x c ry y :
  grows ParseFloat p l tl x ->
  priority (Z.of_N c) = p -> Reads ParseFloat ry y -> ~ In tLParen ry -> shaped (p + 1) y ->
  grows ParseFloat p l (tl ++ TRune c :: ry) (binary (Z.of_N c) x y).
Proof.
  intros G Hc R Hn Hs.
  induction G as [l|l c0 ry0 y0 tl e Hc0 R0 Hn0 Hs0 G IH].
  - cbn [app]. rewrite <- (app_nil_r ry).
    apply (grows_step ParseFloat p l c ry y [] _ Hc R Hn Hs). apply grows_end.
  - cbn [app]. rewrite <- app_assoc.
    exact (grows_step ParseFloat p l c0 ry0 y0 _ _ Hc0 R0 Hn0 Hs0 IH).
Qed.

Lemma grows_cases p l tl e :
  grows ParseFloat p l tl e ->
  (tl = [] /\ e = l) \/ (exists c tl', tl = TRune c :: tl' /\ priority (Z.of_N c) = p).
Proof. destruct 1; [now left|right; eauto]. Qed.

Lemma grows_follower p l tl e R :
  grows ParseFloat p l tl e -> priority (token (lexOf R)) <= p ->
  priority (token (lexOf (tl ++ R))) <= p.
Proof.
  intros G H. destruct (grows_cases _ _ _ _ G) as [[-> _]|(c & tl' & -> & Hc)]; [exact H|].
  cbn [app]. rewrite token_lexOf_cons. cbn [tok_rune]. lia.
Qed.

Lemma no_paren_app (a b : list tok) :
  ~ In tLParen (a ++ b) -> ~ In tLParen a /\ ~ In tLParen b.
Proof. intros H. split; intros Hi; apply H, in_or_app; auto. Qed.

(** A chain of [*] and [/] is its first operand followed by operators
    and operands; a chain of [+] and [-] likewise. *)
Lemma product_grows r e :
  Reads ParseFloat r e -> ~ In tLParen r -> productChain e ->
  exists ra a tl, r = ra ++ tl /\ Reads ParseFloat ra a /\ ~ In tLParen ra /\
                  signedLiteral a /\ grows ParseFloat 2 a tl e.
Proof.
  induction 1 as [tk f Ht Hf|c r x Hc R IH|c r1 r2 x y Hc R1 IH1 R2 IH2|r e R IH];
    intros Hn Hs.
  - exists [tk], (num f), [].
    split; [reflexivity|]. split; [now constructor|]. split; [exact Hn|].
    split; [exact I|apply grows_end].
  - exists (TRune c :: r), (unary (Z.of_N c) x), [].
    rewrite app_nil_r.
    split; [reflexivity|]. split; [now constructor|]. split; [exact Hn|].
    split; [exact Hs|apply grows_end].
  - cbn [productChain] in Hs. destruct Hs as (Hp & Hx & Hy).
    destruct (no_paren_app _ _ Hn) as [Hn1 Hn2].
    assert (Hn2' : ~ In tLParen r2) by (intros Hi; apply Hn2; now right).
    destruct (IH1 Hn1 Hx) as (ra & a & tl & -> & Ra & Hna & Ha & G).
    exists ra, a, (tl ++ TRune c :: r2). rewrite <- app_assoc.
    repeat split; auto. now apply grows_snoc.
  - exfalso. apply Hn. now left.
Qed.

Lemma sum_grows r e :
  Reads ParseFloat r e -> ~ In tLParen r -> sumChain e ->
  exists rp P tl, r = rp ++ tl /\ Reads ParseFloat rp P /\ ~ In tLParen rp /\
                  productChain P /\ grows ParseFloat 1 P tl e.
Proof.
  induction 1 as [tk f Ht Hf|c r x Hc R IH|c r1 r2 x y Hc R1 IH1 R2 IH2|r e R IH];
    intros Hn Hs.
  - exists [tk], (num f), [].
    split; [reflexivity|]. split; [now constructor|]. split; [exact Hn|].
    split; [exact I|apply grows_end].
  - exists (TRune c :: r), (unary (Z.of_N c) x), [].
    rewrite app_nil_r.
    split; [reflexivity|]. split; [now constructor|]. split; [exact Hn|].
    split; [exact Hs|apply grows_end].
  - cbn [sumChain] in Hs. destruct Hs as [(Hp & Hx & Hy)|Hs].
    + destruct (no_paren_app _ _ Hn) as [Hn1 Hn2].
      assert (Hn2' : ~ In tLParen r2) by (intros Hi; apply Hn2; now right).
      destruct (IH1 Hn1 Hx) as (rp & P & tl & -> & Rp & Hnp & HP & G).
      exists rp, P, (tl ++ TRune c :: r2). rewrite <- app_assoc.
      repeat split; auto. now apply grows_snoc.
    + exists (r1 ++ TRune c :: r2), (binary (Z.of_N c) x y), [].
      rewrite app_nil_r.
      split; [reflexivity|]. split; [now constructor|]. split; [exact Hn|].
      split; [exact Hs|apply grows_end].
  - exfalso. apply Hn. now left.
Qed.

(** A number under its signs is what [parseUnary] returns for its tokens. *)
Lemma atom_parse r x :
  Reads ParseFloat r x -> ~ In tLParen r -> signedLiteral x ->
  forall fuel R, (List.length r + 1 <= fuel)%nat ->
    parseUnary ParseFloat fuel (lexOf (r ++ R)) = Ok x (lexOf R).
Proof.
  induction 1 as [tk f Ht Hf|c r x Hc R IH|c r1 r2 x y Hc R1 IH1 R2 IH2|r e R IH];
    intros Hn Hs fuel R0 Hfuel.
  - destruct fuel as [|[|fuel]]; cbn [List.length] in Hfuel; try lia.
    cbn [app].
    rewrite parseUnary_S, (number_not_sign tk R0 Ht), parsePrimary_S.
    rewrite (number_token tk R0 Ht), text_lexOf_cons, Hf, next_lexOf_cons.
    reflexivity.
  - destruct fuel as [|fuel]; cbn [List.length] in Hfuel; try lia.
    cbn [app]. rewrite parseUnary_S, token_lexOf_cons. cbn [tok_rune].
    rewrite (priority_one _ Hc), next_lexOf_cons.
    rewrite IH; [reflexivity| |exact Hs|lia].
    intros Hi. apply Hn. now right.
  - contradiction.
  - exfalso. apply Hn. now left.
Qed.

Lemma operand_literal r y :
  Reads ParseFloat r y -> ~ In tLParen r -> signedLiteral y ->
  forall fuel R, (List.length r + 2 <= fuel)%nat ->
    parseBinary ParseFloat fuel (lexOf (r ++ R)) 3 = Ok y (lexOf R).
Proof.
  intros Rd Hn Hs fuel R Hfuel.
  destruct fuel as [|[|fuel]]; try lia.
  rewrite parseBinary_S, (atom_parse r y Rd Hn Hs) by lia.
  rewrite forPrio_S.
  pose proof (priority_range (token (lexOf R))) as Hp.
  destruct (Z.geb_spec (priority (token (lexOf R))) 3) as [G|G]; [lia|reflexivity].
Qed.

Section Chain.

Variable p : Z.
Variable b : nat.

Hypothesis operand : forall ry y,
  Reads ParseFloat ry y -> ~ In tLParen ry -> shaped (p + 1) y ->
  forall fuel R, (List.length ry + b <= fuel)%nat -> priority (token (lexOf R)) <= p ->
    parseBinary ParseFloat fuel (lexOf (ry ++ R)) (p + 1) = Ok y (lexOf R).

(** [forSame] applies the operators of a chain from left to right. *)
Lemma chain_parse l tl e :
  grows ParseFloat p l tl e ->
  forall fuel R, (List.length tl + b + 1 <= fuel)%nat -> priority (token (lexOf R)) < p ->
    forSame ParseFloat fuel (lexOf (tl ++ R)) p l = Ok e (lexOf R).
Proof.
  induction 1 as [l|l c ry y tl e Hc Rd Hn Hs G IH]; intros fuel R Hfuel HR.
  - destruct fuel as [|fuel]; [lia|]. cbn [app]. rewrite forSame_S.
    destruct (Z.eqb_spec (priority (token (lexOf R))) p) as [E|E]; [lia|reflexivity].
  - destruct fuel as [|fuel]; [lia|].
    cbn [List.length] in Hfuel. rewrite length_app in Hfuel.
    cbn [app]. rewrite <- app_assoc, forSame_S, token_lexOf_cons. cbn [tok_rune].
    rewrite Hc, Z.eqb_refl, next_lexOf_cons.
    rewrite (operand ry y Rd Hn Hs) by (try lia; apply (grows_follower _ _ _ _ _ G); lia).
    apply IH; [lia|exact HR].
Qed.

End Chain.

Lemma operand_product r y :
  Reads ParseFloat r y -> ~ In tLParen r -> productChain y ->
  forall fuel R, (List.length r + 5 <= fuel)%nat -> priority (token (lexOf R)) <= 1 ->
    parseBinary ParseFloat fuel (lexOf (r ++ R)) 2 = Ok y (lexOf R).
Proof.
  intros Rd Hn Hs fuel R Hfuel HR.
  destruct (product_grows r y Rd Hn Hs) as (ra & a & tl & -> & Ra & Hna & Ha & G).
  rewrite length_app in Hfuel.
  destruct fuel as [|[|[|fuel]]]; try lia.
  rewrite <- app_assoc, parseBinary_S, (atom_parse ra a Ra Hna Ha) by lia.
  rewrite forPrio_S.
  destruct (grows_cases _ _ _ _ G) as [[-> ->]|(c & tl' & E & Hc)].
  - cbn [app].
    destruct (Z.geb_spec (priority (token (lexOf R))) 2) as [G2|G2]; [lia|reflexivity].
  - assert (Hp : priority (token (lexOf (tl ++ R))) = 2).
    { rewrite E. cbn [app]. now rewrite token_lexOf_cons. }
    rewrite Hp. change (2 >=? 2) with true. cbv iota.
    rewrite (chain_parse 2 2 (fun ry y Rd0 Hn0 Hs0 fuel0 R0 Hf0 _ =>
               operand_literal ry y Rd0 Hn0 Hs0 fuel0 R0 Hf0) a tl y G) by lia.
    rewrite forPrio_S. reflexivity.
Qed.

(** The tree of a chain of [+] and [-] is what [parseBinary] returns for
    its tokens, before anything that ends an expression. *)
Lemma sum_parse r e :
  Reads ParseFloat r e -> ~ In tLParen r -> sumChain e ->
  forall fuel R, (List.length r + 9 <= fuel)%nat -> priority (token (lexOf R)) = 0 ->
    parseBinary ParseFloat fuel (lexOf (r ++ R)) 1 = Ok e (lexOf R).
Proof.
  intros Rd Hn Hs fuel R Hfuel HR.
  destruct (sum_grows r e Rd Hn Hs) as (rp & P & tl1 & -> & Rp & Hnp & HP & G1).
  destruct (product_grows rp P Rp Hnp HP) as (ra & a & tl2 & -> & Ra & Hna & Ha & G2).
  rewrite !length_app in Hfuel.
  destruct fuel as [|[|[|[|fuel]]]]; try lia.
  rewrite <- !app_assoc, parseBinary_S, (atom_parse ra a Ra Hna Ha) by lia.
  rewrite forPrio_S.
  pose proof (chain_parse 2 2 (fun ry y Rd0 Hn0 Hs0 fuel0 R0 Hf0 _ =>
                operand_literal ry y Rd0 Hn0 Hs0 fuel0 R0 Hf0) a tl2 P G2) as C2.
  pose proof (chain_parse 1 5 operand_product P tl1 e G1) as C1.
  pose proof (grows_follower _ _ _ _ R G1 ltac:(lia)) as F1.
  destruct (grows_cases _ _ _ _ G2) as [[-> ->]|(c & tl' & E & Hc)].
  - cbn [app]. cbn [app] in C2.
    destruct (grows_cases _ _ _ _ G1) as [[-> ->]|(c & tl' & E & Hc)].
    + cbn [app]. rewrite HR. reflexivity.
    + assert (Hp : priority (token (lexOf (tl1 ++ R))) = 1).
      { rewrite E. cbn [app]. now rewrite token_lexOf_cons. }
      rewrite Hp. change (1 >=? 1) with true. cbv iota.
      rewrite C1 by lia. rewrite forPrio_S. reflexivity.
  - assert (Hp : priority (token (lexOf (tl2 ++ tl1 ++ R))) = 2).
    { rewrite E. cbn [app]. now rewrite token_lexOf_cons. }
    rewrite Hp. change (2 >=? 1) with true. cbv iota.
    rewrite C2 by lia.
    rewrite forPrio_S. change (2 - 1 >=? 1) with true. cbv iota.
    rewrite C1 by lia. rewrite forPrio_S. reflexivity.
Qed.

(** Tokens without parentheses that spell a tree of chains are parsed to
    that tree. *)
Lemma Parse_chain r e :
  Reads ParseFloat r e -> ~ In tLParen r -> sumChain e -> Parse ParseFloat r = Returned e.
Proof.
  intros Rd Hn Hs. apply Parse_intro.
  rewrite <- (parseExpr_any_depth ParseFloat r (S (depth (List.length r) + List.length r + 9)))
    by lia.
  rewrite parseExpr_S.
  pose proof (sum_parse r e Rd Hn Hs (depth (List.length r) + List.length r + 9) []
                ltac:(lia) eq_refl) as H.
  now rewrite app_nil_r in H.
Qed.

End Completeness.

(** ** The printed text of a parsed tree, parsed again *)

(** Every literal of a tree parsed from a scanned text is read back
    from its two decimals. *)
Lemma Reads_readBack r t :
  Reads strconv.ParseFloat r t ->
  Forall (fun tk => isNumber tk = true -> unsignedText (tok_text tk)) r ->
  exists t', readBack t = Some t'.
Proof.
  induction 1 as [tk f Ht Hf|c r x Hc R IH|c r1 r2 x y Hc R1 IH1 R2 IH2|r e R IH];
    intros HF; cbn [readBack].
  - inversion HF as [|? ? Hu _]; subst.
    destruct (reread_total f (ParseFloat_plain _ _ (Hu Ht) Hf)
                (ParseFloat_inRange _ _ (Hu Ht) Hf)) as (f' & Hr).
    unfold rereads in Hr. rewrite Hr. now exists (num f').
  - inversion HF; subst. destruct IH as (x' & ->); [assumption|].
    now exists (unary (Z.of_N c) x').
  - apply Forall_app in HF. destruct HF as [HF1 HF2]. inversion HF2; subst.
    destruct IH1 as (x' & ->); [assumption|]. destruct IH2 as (y' & ->); [assumption|].
    now exists (binary (Z.of_N c) x' y').
  - inversion HF as [|? ? _ HF']; subst. apply Forall_app in HF'. now apply IH.
Qed.

(** The tokens of the printed text spell the tree read back. *)
Lemma toks_Reads t t' :
  similar rereads t t' -> grammarOps t -> Reads strconv.ParseFloat (toks t) t'.
Proof.
  induction 1 as [f f' Hf|op x x' S IH|op x x' y y' Sx IHx Sy IHy];
    cbn [grammarOps toks].
  - intros _. now constructor.
  - intros [Hp Hx]. rewrite <- (operator_rune op) at 2 by lia.
    constructor; [rewrite operator_rune; lia|auto].
  - intros (Hp & Hx & Hy). rewrite <- (operator_rune op) at 2 by lia.
    constructor; [rewrite operator_rune; lia|auto..].
Qed.

Lemma similar_signedLiteral (Rlit : float64 -> float64 -> Prop) t t' :
  similar Rlit t t' -> (signedLiteral t <-> signedLiteral t').
Proof. induction 1; cbn [signedLiteral]; tauto. Qed.

Lemma similar_productChain (Rlit : float64 -> float64 -> Prop) t t' :
  similar Rlit t t' -> (productChain t <-> productChain t').
Proof.
  induction 1 as [f f' Hf|op x x' S IH|op x x' y y' Sx IHx Sy IHy]; cbn [productChain signedLiteral];
    try tauto.
  - apply (similar_signedLiteral _ _ _ S).
  - pose proof (similar_signedLiteral _ _ _ Sy). tauto.
Qed.

Lemma similar_sumChain (Rlit : float64 -> float64 -> Prop) t t' :
  similar Rlit t t' -> (sumChain t <-> sumChain t').
Proof.
  induction 1 as [f f' Hf|op x x' S IH|op x x' y y' Sx IHx Sy IHy]; cbn [sumChain signedLiteral];
    try tauto.
  - apply (similar_signedLiteral _ _ _ S).
  - pose proof (similar_signedLiteral _ _ _ Sy).
    pose proof (similar_productChain _ _ _ Sx).
    pose proof (similar_productChain _ _ _ Sy). tauto.
Qed.

Lemma toks_flat e : printable e -> ~ In tLParen (toks e).
Proof.
  intros H Hi. pose proof (toks_no_paren e H) as F.
  rewrite Forall_forall in F. destruct (F _ Hi) as [F1 _]. discriminate F1.
Qed.

(* ================================================================== *)
(** * The properties of the specification *)

Local Open Scope string_scope.
Local Open Scope Z_scope.
Local Open Scope list_scope.

(** C1 (the two modes agree), at the input "1+1/0".  Both modes parse the
    input; evaluating the tree fails with a division by zero (value 0 and
    an error), the eager mode returns the literal 1. *)
Theorem modes_disagree_after_failed_division :
  ParseText "1+1/0"
    = Some (Returned (binary opAdd (lit 1) (binary opDiv (lit 1) (lit 0)))) /\
  Eval (binary opAdd (lit 1) (binary opDiv (lit 1) (lit 0)))
    = (F64.zero, Some (BinaryYFailed "1.00 / 0.00" DivisionByZero)) /\
  EvalParseText "1+1/0" = Some (Returned (lit 1)).
Proof. repeat split; vm_compute; reflexivity. Qed.

(** C2 (division by zero), at the input "1/0".  The tree-building mode
    reports the division by zero when the tree is evaluated; the eager
    mode drops the error of [Eval] and returns the literal 0 with no
    error at all. *)
Theorem eager_mode_hides_division_by_zero :
  ParseText "1/0" = Some (Returned (binary opDiv (lit 1) (lit 0))) /\
  Eval (binary opDiv (lit 1) (lit 0)) = (F64.zero, Some DivisionByZero) /\
  EvalParseText "1/0" = Some (Returned (num F64.zero)).
Proof. repeat split; vm_compute; reflexivity. Qed.

(** C3 (printing and parsing again), as stated.  Even for literals that
    two decimals render exactly, parsing the text of [String] does not
    always give a tree with the evaluation of the original: "(1+2)*3"
    prints as "1.00 + 2.00 * 3.00", which evaluates to 7 and not to 9. *)
Lemma String_drops_parentheses :
  ~ (forall s t,
       ParseText s = Some (Returned t) -> readBack t = Some t ->
       exists t', ParseText (Expr_String t) = Some (Returned t') /\ Eval t' = Eval t).
Proof.
  intros H.
  destruct (H "(1+2)*3"%string (binary opMul (binary opAdd (lit 1) (lit 2)) (lit 3)))
    as (t' & HP & HE).
  - vm_compute; reflexivity.
  - vm_compute; reflexivity.
  - vm_compute in HP. injection HP as <-. vm_compute in HE. discriminate HE.
Qed.

(** C3, amended.  For every tree [t] that [Parse] returns for a scanned
    text, [ParseFloat] reads the two decimals printed for each literal,
    and parsing the text of [String] returns the tree of the same shape,
    with the same operators in the same places and every literal read
    back from its two decimals, exactly when [t] is a tree that is
    written without parentheses: a chain of [+] and [-] growing to the
    left, over chains of [*] and [/] growing to the left, over numbers
    under their signs.  Where every literal reads back as itself, that
    tree is [t] and evaluates as [t] does. *)
Theorem String_reparses_exactly_the_chains s r t :
  textscanner.tokens s = Some r ->
  Parse strconv.ParseFloat r = Returned t ->
  exists t',
    readBack t = Some t' /\
    similar rereads t t' /\
    (sumChain t <-> ParseText (Expr_String t) = Some (Returned t')) /\
    (readBack t = Some t -> t' = t /\ Eval t' = Eval t).
Proof.
  intros Hs HP.
  pose proof (Parse_reads _ _ _ HP) as R.
  pose proof (tokens_unsigned _ _ Hs) as HF.
  pose proof (Reads_printable _ _ R HF) as Hp.
  destruct (Reads_readBack _ _ R HF) as (t' & Hb).
  pose proof (readBack_similar _ _ Hb) as S.
  pose proof (toks_Reads _ _ S (Reads_grammarOps _ _ _ R)) as R'.
  pose proof (toks_flat _ Hp) as Hn.
  exists t'. split; [exact Hb|]. split; [exact S|]. split; [split|].
  - intros Hc. unfold ParseText. rewrite (tokens_String _ Hp). cbn [option_map]. f_equal.
    apply Parse_chain; [exact R'|exact Hn|]. now apply (similar_sumChain _ _ _ S).
  - unfold ParseText. rewrite (tokens_String _ Hp). cbn [option_map].
    intros H. injection H as H. apply Parse_inv in H.
    apply (similar_sumChain _ _ _ S).
    exact (proj2 (proj2 (proj2 (proj2 (proj2 (descent_shape strconv.ParseFloat _))))) _ _ _ Hn H).
  - intros Hst. rewrite Hst in Hb. injection Hb as <-. now split.
Qed.

Lemma String_reparses_exactly_the_chains_witness :
  let s := "(-1) - (2*0.375/+4)"%string in
  let r := [TRune 40; TRune 45; TInt "1"; TRune 41; TRune 45; TRune 40; TInt "2"; TRune 42;
            TFloat "0.375"; TRune 47; TRune 43; TInt "4"; TRune 41] in
  let t := binary opSub (unary opSub (lit 1))
             (binary opDiv (binary opMul (lit 2) (num (F64.div (F64.of_Z 3) (F64.of_Z 8))))
                (unary opAdd (lit 4))) in
  (textscanner.tokens s = Some r /\ Parse strconv.ParseFloat r = Returned t) /\
  exists t',
    readBack t = Some t' /\
    similar rereads t t' /\
    (sumChain t <-> ParseText (Expr_String t) = Some (Returned t')) /\
    (readBack t = Some t -> t' = t /\ Eval t' = Eval t).
Proof.
  intros s r t.
  assert (H1 : textscanner.tokens s = Some r) by (vm_compute; reflexivity).
  assert (H2 : Parse strconv.ParseFloat r = Returned t) by (vm_compute; reflexivity).
  split; [split; assumption|].
  exact (String_reparses_exactly_the_chains s r t H1 H2).
Defined.

(** C4 (precedence).  Parsing "2*1+2" yields [+] at the root, with the
    subtree of 2*1 on the left and the literal 2 on the right; parsing
    "2+1*2" yields [+] at the root, with the literal 2 on the left and the
    subtree of 1*2 on the right; both trees evaluate to 4. *)
Theorem precedence_of_product_over_sum :
  ParseText "2*1+2"
    = Some (Returned (binary opAdd (binary opMul (lit 2) (lit 1)) (lit 2))) /\
  Eval (binary opAdd (binary opMul (lit 2) (lit 1)) (lit 2)) = (F64.of_Z 4, None) /\
  ParseText "2+1*2"
    = Some (Returned (binary opAdd (lit 2) (binary opMul (lit 1) (lit 2)))) /\
  Eval (binary opAdd (lit 2) (binary opMul (lit 1) (lit 2))) = (F64.of_Z 4, None).
Proof. repeat split; vm_compute; reflexivity. Qed.

(** C5 (left associativity).  Parsing "1+2+3+4" yields the tree
    ((1+2)+3)+4, and its evaluation returns 10. *)
Theorem sum_associates_to_the_left :
  ParseText "1+2+3+4"
    = Some (Returned
        (binary opAdd (binary opAdd (binary opAdd (lit 1) (lit 2)) (lit 3)) (lit 4))) /\
  Eval (binary opAdd (binary opAdd (binary opAdd (lit 1) (lit 2)) (lit 3)) (lit 4))
    = (F64.of_Z 10, None).
Proof. split; vm_compute; reflexivity. Qed.

(** C6 (size).  When the tree-building parse succeeds on an input with
    [n] numeric literals and [m] operators (signs and binary operators
    together), [Len] of the tree is [n + m]: in the arithmetic of [int],
    and exactly as long as [n + m] is below 2^63. *)
Theorem Len_counts_literals_and_operators ParseFloat r e :
  Parse ParseFloat r = Returned e ->
  Len e = wrap_int (countIf isNumber r + countIf isOperator r) /\
  (countIf isNumber r + countIf isOperator r < 2 ^ 63 ->
   Len e = countIf isNumber r + countIf isOperator r).
Proof.
  intros H. apply Parse_reads, Reads_nodes in H.
  rewrite Len_nodes, H. split; [reflexivity|].
  intros Hb. apply wrap_int_small. unfold countIf in *. lia.
Qed.

Lemma Len_counts_literals_and_operators_witness :
  let r := [TRune 45; tLParen; TInt "1"; TRune 43; TFloat "2.5"; tRParen; TRune 42; TInt "3"] in
  let e := binary opMul (unary opSub (binary opAdd (lit 1) (num (F64.div (F64.of_Z 5) (F64.of_Z 2)))))
                        (lit 3) in
  Parse strconv.ParseFloat r = Returned e /\
  Len e = wrap_int (countIf isNumber r + countIf isOperator r) /\
  (countIf isNumber r + countIf isOperator r < 2 ^ 63 ->
   Len e = countIf isNumber r + countIf isOperator r).
Proof.
  intros r e. split; [vm_compute; reflexivity|].
  apply (Len_counts_literals_and_operators strconv.ParseFloat r e).
  vm_compute; reflexivity.
Defined.

(** C7 (the eager parser returns a literal), at the input "1+1/0".
    [EvalParse] returns a single literal, of [Len] 1, and no error.  The
    value the literal stores is 1, and that is not the result of the
    expression: the expression has none, the evaluation of its tree
    fails with a division by zero. *)
Theorem eager_literal_is_not_the_result_of_the_expression :
  EvalParseText "1+1/0" = Some (Returned (lit 1)) /\
  Len (lit 1) = 1 /\
  Eval (lit 1) = (F64.of_Z 1, None) /\
  ParseText "1+1/0"
    = Some (Returned (binary opAdd (lit 1) (binary opDiv (lit 1) (lit 0)))) /\
  Eval (binary opAdd (lit 1) (binary opDiv (lit 1) (lit 0)))
    = (F64.zero, Some (BinaryYFailed "1.00 / 0.00" DivisionByZero)).
Proof. repeat split; vm_compute; reflexivity. Qed.

(** C8 (malformed inputs).  On "(1+2" (unmatched parenthesis), on "1+"
    (missing operand) and on the empty input, [Parse] returns an error and
    no expression: it neither panics nor returns a tree. *)
Theorem malformed_inputs_fail :
  ParseText "(1+2"
    = Some (Failed (CouldNotParse EndOfFile (InUnary EndOfFile (WantParen EndOfFile)))) /\
  ParseText "1+"
    = Some (Failed (CouldNotParse EndOfFile
              (InUnary EndOfFile (InUnary EndOfFile (Unexpected EndOfFile))))) /\
  ParseText EmptyString
    = Some (Failed (CouldNotParse EndOfFile (InUnary EndOfFile (Unexpected EndOfFile)))).
Proof. repeat split; vm_compute; reflexivity. Qed.

(** C10 (parentheses), as stated.  The text made of a byte-order mark
    and "1" parses to the literal 1: the scanner drops the mark at the
    very start of the input.  Between parentheses the mark is no longer
    at the start, the scanner returns it as a token, and [Parse] fails
    with "unexpected" at it. *)
Lemma parentheses_expose_a_byte_order_mark :
  let bom := String (fmt.byte 239) (String (fmt.byte 187) (String (fmt.byte 191) EmptyString)) in
  ParseText (bom ++ "1") = Some (Returned (lit 1)) /\
  ParseText ("(" ++ (bom ++ "1") ++ ")")
  = Some (Failed (CouldNotParse (Quoted 65279)
                    (InUnary (Quoted 65279)
                       (InSymbol (Quoted 65279)
                          (InUnary (Quoted 65279) (Unexpected (Quoted 65279))))))).
Proof. split; vm_compute; reflexivity. Qed.

(** C10, amended.  For every input that parses to a tree, the same input
    between parentheses parses to the same tree: no node is added, so
    [Len] and the evaluation are the same.  This holds for every stream
    of tokens, and for every text that does not start with a byte-order
    mark, whatever [ParseFloat] is.  A text that starts with a byte-order
    mark does not parse between parentheses. *)
Theorem parentheses_are_transparent_but_for_a_byte_order_mark :
  (forall ParseFloat r t,
     Parse ParseFloat r = Returned t ->
     exists t',
       Parse ParseFloat (tLParen :: r ++ [tRParen]) = Returned t' /\
       t' = t /\ Len t' = Len t /\ Eval t' = Eval t) /\
  (forall ParseFloat s t,
     option_map (Parse ParseFloat) (textscanner.tokens s) = Some (Returned t) ->
     textscanner.dropBOM s = None ->
     exists t',
       option_map (Parse ParseFloat) (textscanner.tokens ("(" ++ s ++ ")")%string)
       = Some (Returned t') /\
       t' = t /\ Len t' = Len t /\ Eval t' = Eval t) /\
  (forall ParseFloat s rest t,
     option_map (Parse ParseFloat) (textscanner.tokens s) = Some (Returned t) ->
     textscanner.dropBOM s = Some rest ->
     exists err,
       option_map (Parse ParseFloat) (textscanner.tokens ("(" ++ s ++ ")")%string)
       = Some (Failed err)).
Proof.
  split; [|split].
  - intros ParseFloat r t H. exists t. repeat split. now apply Parse_parenthesized.
  - intros ParseFloat s t H B. exists t. repeat split.
    destruct (textscanner.tokens s) as [r|] eqn:E; [|discriminate].
    cbn [option_map] in H. injection H as H.
    rewrite (tokens_parenthesized _ _ E B). cbn [option_map].
    now rewrite (Parse_parenthesized _ _ _ H).
  - intros ParseFloat s rest t H B.
    assert (A : textscanner.supported s = true).
    { unfold textscanner.tokens in H. now destruct (textscanner.supported s). }
    destruct (tokens_parenthesized_BOM s rest A B) as (r & ->). cbn [option_map].
    destruct (Parse_total ParseFloat (tLParen :: TRune textscanner.BOM :: r))
      as [(e & He)|(err & He)]; [|exists err; now rewrite He].
    apply Parse_reads, Reads_grammarTok in He.
    inversion He as [|? ? _ He']. inversion He' as [|? ? Hb _]. discriminate Hb.
Qed.

Lemma parentheses_are_transparent_but_for_a_byte_order_mark_witness :
  let r := [TInt "1"; TRune 43; TInt "2"] in
  let t := binary opAdd (lit 1) (lit 2) in
  let bom := String (fmt.byte 239) (String (fmt.byte 187) (String (fmt.byte 191) EmptyString)) in
  (Parse strconv.ParseFloat r = Returned t /\
   exists t',
     Parse strconv.ParseFloat (tLParen :: r ++ [tRParen]) = Returned t' /\
     t' = t /\ Len t' = Len t /\ Eval t' = Eval t) /\
  ((ParseText "1 + 2" = Some (Returned t) /\ textscanner.dropBOM "1 + 2" = None) /\
   exists t',
     ParseText ("(" ++ "1 + 2" ++ ")")%string = Some (Returned t') /\
     t' = t /\ Len t' = Len t /\ Eval t' = Eval t) /\
  ((ParseText (bom ++ "1 + 2") = Some (Returned t) /\
    textscanner.dropBOM (bom ++ "1 + 2") = Some "1 + 2"%string) /\
   exists err, ParseText ("(" ++ (bom ++ "1 + 2") ++ ")")%string = Some (Failed err)).
Proof.
  intros r t bom.
  assert (H1 : Parse strconv.ParseFloat r = Returned t) by (vm_compute; reflexivity).
  assert (H2 : ParseText "1 + 2" = Some (Returned t)) by (vm_compute; reflexivity).
  assert (H3 : ParseText (bom ++ "1 + 2") = Some (Returned t)) by (vm_compute; reflexivity).
  split; [split; [exact H1|]|split; [split; [split; [exact H2|reflexivity]|]
                                     |split; [split; [exact H3|reflexivity]|]]].
  - exact (proj1 parentheses_are_transparent_but_for_a_byte_order_mark
             strconv.ParseFloat r t H1).
  - exact (proj1 (proj2 parentheses_are_transparent_but_for_a_byte_order_mark)
             strconv.ParseFloat "1 + 2"%string t H2 eq_refl).
  - exact (proj2 (proj2 parentheses_are_transparent_but_for_a_byte_order_mark)
             strconv.ParseFloat (bom ++ "1 + 2")%string "1 + 2"%string t H3 eq_refl).
Defined.

(* ================================================================== *)
(** * Properties beyond the specification *)

(** X1 (order).  The tree [Parse] returns holds the numbers and the
    operators of the input in the order of the input: its literals and
    operators, read from left to right, are the values [ParseFloat]
    gives the number tokens and the operator tokens, with the
    parentheses left out.  Nothing of the input is dropped, repeated or
    moved. *)
Theorem Parse_keeps_the_order_of_the_input ParseFloat r t :
  Parse ParseFloat r = Returned t -> inorder t = items ParseFloat r.
Proof.
  intros H. apply Reads_inorder. now apply Parse_reads.
Qed.

Lemma Parse_keeps_the_order_of_the_input_witness :
  let r := [TInt "2"; TRune 42; tLParen; TRune 45; TInt "3"; TRune 43; TInt "4"; tRParen] in
  let t := binary opMul (lit 2) (binary opAdd (unary opSub (lit 3)) (lit 4)) in
  Parse strconv.ParseFloat r = Returned t /\
  inorder t = [Lit (F64.of_Z 2); Op opMul; Op opSub; Lit (F64.of_Z 3); Op opAdd; Lit (F64.of_Z 4)] /\
  inorder t = items strconv.ParseFloat r.
Proof.
  intros r t.
  assert (H : Parse strconv.ParseFloat r = Returned t) by (vm_compute; reflexivity).
  split; [exact H|]. split; [vm_compute; reflexivity|].
  exact (Parse_keeps_the_order_of_the_input strconv.ParseFloat r t H).
Defined.

(** X2 (accepted inputs).  An input [Parse] returns a tree for consists
    of numbers, the four operators and parentheses only; its parentheses
    are balanced, none closed before it is opened; it starts with a
    number, a sign or an opening parenthesis and ends with a number or a
    closing parenthesis. *)
Theorem Parse_accepts_only_well_formed_inputs ParseFloat r t :
  Parse ParseFloat r = Returned t ->
  Forall (fun tk => grammarTok tk = true) r /\
  nesting 0 r = true /\
  (exists tk rest, r = tk :: rest /\ startsExpr tk = true) /\
  (exists init tk, r = init ++ [tk] /\ endsExpr tk = true).
Proof.
  intros H. apply Parse_reads in H. repeat split.
  - exact (Reads_grammarTok _ _ _ H).
  - rewrite <- (app_nil_r r). now rewrite (Reads_nesting _ _ _ H).
  - exact (Reads_starts _ _ _ H).
  - exact (Reads_ends _ _ _ H).
Qed.

Lemma Parse_accepts_only_well_formed_inputs_witness :
  let r := [tLParen; TRune 45; TInt "1"; TRune 47; tLParen; TFloat "2.5"; tRParen; tRParen] in
  let t := binary opDiv (unary opSub (lit 1)) (num (F64.div (F64.of_Z 5) (F64.of_Z 2))) in
  Parse strconv.ParseFloat r = Returned t /\
  Forall (fun tk => grammarTok tk = true) r /\
  nesting 0 r = true /\
  (exists tk rest, r = tk :: rest /\ startsExpr tk = true) /\
  (exists init tk, r = init ++ [tk] /\ endsExpr tk = true).
Proof.
  intros r t.
  assert (H : Parse strconv.ParseFloat r = Returned t) by (vm_compute; reflexivity).
  split; [exact H|].
  exact (Parse_accepts_only_well_formed_inputs strconv.ParseFloat r t H).
Defined.

(** X4 (trailing input).  After an input that parses, any further token
    that is not one of the four operators makes [Parse] fail with
    "unexpected" and the description of that token: [Parse] returns a
    tree only for the whole input. *)
Theorem trailing_input_is_rejected ParseFloat r t x rest :
  Parse ParseFloat r = Returned t -> priority (tok_rune x) = 0 ->
  Parse ParseFloat (r ++ x :: rest) = Failed (Unexpected (lexString (lexOf (x :: rest)))).
Proof.
  intros H Hx.
  pose proof (Parse_followed ParseFloat r t (x :: rest) H Hx) as F.
  unfold Parse. fold (lexOf (r ++ x :: rest)).
  rewrite (parseExpr_fuel_mono ParseFloat (depth (List.length r)));
    [| rewrite length_app; unfold depth; lia | rewrite F; discriminate].
  rewrite F, token_lexOf_cons.
  destruct (tok_rune x =? scanner.EOF) eqn:E; [|reflexivity].
  apply Z.eqb_eq in E. now apply tok_rune_not_EOF in E.
Qed.

Lemma trailing_input_is_rejected_witness :
  let r := [TInt "1"; TRune 43; TInt "2"] in
  let t := binary opAdd (lit 1) (lit 2) in
  (Parse strconv.ParseFloat r = Returned t /\ priority (tok_rune tRParen) = 0) /\
  Parse strconv.ParseFloat (r ++ tRParen :: [TRune 42; TInt "3"])
  = Failed (Unexpected (Quoted (rune_of ")"))).
Proof.
  intros r t.
  assert (H : Parse strconv.ParseFloat r = Returned t) by (vm_compute; reflexivity).
  split; [split; [exact H|reflexivity]|].
  exact (trailing_input_is_rejected strconv.ParseFloat r t tRParen [TRune 42; TInt "3"]
           H eq_refl).
Defined.

(** X5 (a parenthesis left open).  An opening parenthesis before an input
    that parses, with nothing to close it, makes [Parse] fail with
    "got end of file, want ')'". *)
Theorem open_parenthesis_is_rejected ParseFloat r t :
  Parse ParseFloat r = Returned t ->
  Parse ParseFloat (tLParen :: r)
  = Failed (CouldNotParse EndOfFile (InUnary EndOfFile (WantParen EndOfFile))).
Proof.
  intros H.
  pose proof (Parse_followed ParseFloat r t [] H I) as F. rewrite app_nil_r in F.
  unfold Parse. fold (lexOf (tLParen :: r)).
  replace (depth (List.length (tLParen :: r)))
    with (S (S (S (S (depth (List.length r))))))
    by (cbn [List.length]; unfold depth; lia).
  rewrite parseExpr_S, parseBinary_S, parseUnary_S.
  change ((token (lexOf (tLParen :: r)) =? rune_of "+")
          || (token (lexOf (tLParen :: r)) =? rune_of "-")) with false.
  cbv iota. rewrite parsePrimary_S.
  change ((token (lexOf (tLParen :: r)) =? scanner.Int)
          || (token (lexOf (tLParen :: r)) =? scanner.Float)) with false.
  change (token (lexOf (tLParen :: r)) =? rune_of "(") with true.
  cbv iota. rewrite next_lexOf_cons, F. reflexivity.
Qed.

Lemma open_parenthesis_is_rejected_witness :
  let r := [TInt "1"; TRune 43; TInt "2"] in
  let t := binary opAdd (lit 1) (lit 2) in
  Parse strconv.ParseFloat r = Returned t /\
  Parse strconv.ParseFloat (tLParen :: r)
  = Failed (CouldNotParse EndOfFile (InUnary EndOfFile (WantParen EndOfFile))).
Proof.
  intros r t.
  assert (H : Parse strconv.ParseFloat r = Returned t) by (vm_compute; reflexivity).
  split; [exact H|].
  exact (open_parenthesis_is_rejected strconv.ParseFloat r t H).
Defined.

(** X6 (what an error names).  The lexer is not advanced once a parsing
    function has failed, so every layer of the error [Parse] returns
    describes one and the same token: the look-ahead of the lexer when
    the descent returned, which is the token at which the parse stopped,
    or the end of the input.  Nothing after that token has been read:
    whatever follows it, [Parse] returns the same error. *)
Theorem parse_error_names_the_token_it_stopped_at ParseFloat r err :
  Parse ParseFloat r = Failed err ->
  exists pre rest,
    r = pre ++ rest /\
    lexerLeft (parseExpr ParseFloat (depth (List.length r)) (lexOf r)) = Some (lexOf rest) /\
    namesOnly (lexString (lexOf rest)) err /\
    (forall rest', hd_error rest' = hd_error rest ->
       Parse ParseFloat (pre ++ rest') = Failed err).
Proof.
  unfold Parse. fold (lexOf r). intros H.
  destruct (parseExpr ParseFloat (depth (List.length r)) (lexOf r)) as [e l|err0 l| |] eqn:E;
    try discriminate.
  - destruct (proj2 (proj2 (proj2 (proj2 (proj2 (descent_reads ParseFloat _))))) _ _ _ E)
      as (pre & r1 & Hr & -> & _).
    destruct (negb (token (lexOf r1) =? scanner.EOF)) eqn:G; [|discriminate].
    injection H as <-. exists pre, r1. repeat split; [exact Hr|].
    intros rest' Hh. fold (lexOf (pre ++ rest')).
    rewrite (Parse_tail ParseFloat r pre r1 Hr) by (rewrite ?E; auto).
    rewrite E. cbn [relocate].
    destruct (same_look r1 rest' Hh) as (-> & _ & ->). now rewrite G.
  - destruct (proj2 (proj2 (proj2 (proj2 (proj2 (descent_stops ParseFloat _))))) _ _ _ E)
      as (pre & r1 & Hr & -> & N).
    injection H as <-. exists pre, r1. repeat split; auto.
    intros rest' Hh. fold (lexOf (pre ++ rest')).
    rewrite (Parse_tail ParseFloat r pre r1 Hr) by (rewrite ?E; auto).
    rewrite E. cbn [relocate].
    now destruct (same_look r1 rest' Hh) as (_ & _ & ->).
Qed.

Lemma parse_error_names_the_token_it_stopped_at_witness :
  let r := [TInt "1"; TRune 43; TRune 42; TInt "2"] in
  let err := CouldNotParse (Quoted opMul)
               (InUnary (Quoted opMul) (InUnary (Quoted opMul) (Unexpected (Quoted opMul)))) in
  Parse strconv.ParseFloat r = Failed err /\
  exists pre rest,
    r = pre ++ rest /\
    lexerLeft (parseExpr strconv.ParseFloat (depth (List.length r)) (lexOf r))
    = Some (lexOf rest) /\
    namesOnly (lexString (lexOf rest)) err /\
    (forall rest', hd_error rest' = hd_error rest ->
       Parse strconv.ParseFloat (pre ++ rest') = Failed err).
Proof.
  intros r err.
  assert (H : Parse strconv.ParseFloat r = Failed err) by (vm_compute; reflexivity).
  split; [exact H|].
  exact (parse_error_names_the_token_it_stopped_at strconv.ParseFloat r err H).
Defined.

(** X7 (a number [ParseFloat] refuses).  A number token whose text
    [ParseFloat] returns an error for, at the start of the input, makes
    [Parse] fail with that error, whatever value [ParseFloat] returns
    beside it: a literal out of the range of [float64] is an error, not
    an infinity. *)
Theorem refused_number_is_an_error ParseFloat tk rest v e :
  isNumber tk = true -> ParseFloat (tok_text tk) = (v, Some e) ->
  Parse ParseFloat (tk :: rest)
  = Failed (CouldNotParse (Number (tok_text tk))
              (InUnary (Number (tok_text tk)) (BadFloat (Number (tok_text tk)) e))).
Proof.
  intros Ht Hf. unfold Parse. fold (lexOf (tk :: rest)).
  replace (depth (List.length (tk :: rest)))
    with (S (S (S (S (depth (List.length rest))))))
    by (cbn [List.length]; unfold depth; lia).
  rewrite parseExpr_S, parseBinary_S, parseUnary_S, (number_not_sign tk rest Ht).
  rewrite parsePrimary_S, (number_token tk rest Ht), text_lexOf_cons, Hf.
  destruct tk; try discriminate; reflexivity.
Qed.

Lemma refused_number_is_an_error_witness :
  let tk := TFloat "1e999" in
  let rest := [TRune 43; TInt "1"] in
  (isNumber tk = true /\
   strconv.ParseFloat (tok_text tk) = (S754_infinity false, Some ErrRange)) /\
  Parse strconv.ParseFloat (tk :: rest)
  = Failed (CouldNotParse (Number "1e999")
              (InUnary (Number "1e999") (BadFloat (Number "1e999") ErrRange))).
Proof.
  intros tk rest.
  assert (H : strconv.ParseFloat (tok_text tk) = (S754_infinity false, Some ErrRange))
    by (vm_compute; reflexivity).
  split; [split; [reflexivity|exact H]|].
  exact (refused_number_is_an_error strconv.ParseFloat tk rest _ _ eq_refl H).
Defined.

(** X8 (the eager mode accepts what the tree-building mode accepts).
    Whenever [Parse] returns a tree, [EvalParse] returns too, without an
    error and without a panic, whether or not the tree evaluates; and
    where the tree evaluates without an error, the literal [EvalParse]
    returns holds exactly the value of the tree. *)
Theorem EvalParse_accepts_what_Parse_accepts ParseFloat r t :
  Parse ParseFloat r = Returned t ->
  EvalParse ParseFloat r = Returned (num (eagerValue t)) /\
  (forall v, Eval t = (v, None) -> EvalParse ParseFloat r = Returned (num v)).
Proof.
  intros H. split.
  - now apply EvalParse_of_Parse.
  - intros v Hv. rewrite (EvalParse_of_Parse _ _ _ H).
    now rewrite (eagerValue_Eval _ _ Hv).
Qed.

Lemma EvalParse_accepts_what_Parse_accepts_witness :
  let r := [TInt "7"; TRune 45; TInt "6"; TRune 47; TInt "4"] in
  let t := binary opSub (lit 7) (binary opDiv (lit 6) (lit 4)) in
  Parse strconv.ParseFloat r = Returned t /\
  Eval t = (F64.div (F64.of_Z 11) (F64.of_Z 2), None) /\
  EvalParse strconv.ParseFloat r = Returned (num (eagerValue t)) /\
  (forall v, Eval t = (v, None) -> EvalParse strconv.ParseFloat r = Returned (num v)).
Proof.
  intros r t.
  assert (H : Parse strconv.ParseFloat r = Returned t) by (vm_compute; reflexivity).
  split; [exact H|]. split; [vm_compute; reflexivity|].
  exact (EvalParse_accepts_what_Parse_accepts strconv.ParseFloat r t H).
Defined.

(** X9 (how the eager mode fails).  [EvalParse] panics exactly on the
    inputs for which the error of [Parse] arose between parentheses:
    [evalparsePrimary] calls [Eval] on the nil expression before it looks
    at the error.  On every other input [Parse] fails for, [EvalParse]
    returns the very error [Parse] returns; and it returns no other
    error. *)
Theorem EvalParse_fails_as_Parse_or_panics ParseFloat r :
  (EvalParse ParseFloat r = Panicked <->
   exists err, Parse ParseFloat r = Failed err /\ throughParen err = true) /\
  (forall err,
     EvalParse ParseFloat r = Failed err <->
     Parse ParseFloat r = Failed err /\ throughParen err = false).
Proof. apply modes_fail_alike. Qed.

Lemma EvalParse_fails_as_Parse_or_panics_witness :
  let r := [TInt "2"; TRune 42; tLParen; TInt "3"; TRune 43] in
  let r' := [TInt "2"; TRune 42; tLParen; TInt "3"] in
  let err' := CouldNotParse EndOfFile
                (InUnary EndOfFile (InUnary EndOfFile (WantParen EndOfFile))) in
  (EvalParse strconv.ParseFloat r = Panicked /\
   exists err, Parse strconv.ParseFloat r = Failed err /\ throughParen err = true) /\
  ((Parse strconv.ParseFloat r' = Failed err' /\ throughParen err' = false) /\
   EvalParse strconv.ParseFloat r' = Failed err').
Proof.
  intros r r' err'.
  assert (H : EvalParse strconv.ParseFloat r = Panicked) by (vm_compute; reflexivity).
  assert (H' : Parse strconv.ParseFloat r' = Failed err' /\ throughParen err' = false)
    by (split; vm_compute; reflexivity).
  split; [split; [exact H|]|split; [exact H'|]].
  - exact (proj1 (proj1 (EvalParse_fails_as_Parse_or_panics strconv.ParseFloat r)) H).
  - exact (proj2 (proj2 (EvalParse_fails_as_Parse_or_panics strconv.ParseFloat r') err') H').
Defined.

(** X10 (errors of the evaluation).  In a tree [Parse] returns, every
    sign is [+] or [-] and every binary operator one of [+ - * /], so
    the "unsupported operator" branches of [Eval] are never taken: when
    [Eval] returns an error for such a tree, the error at the bottom of
    the chain is a division by zero, and the value returned beside it
    is 0. *)
Theorem evaluation_of_a_parsed_tree_fails_only_by_division ParseFloat r t v err :
  Parse ParseFloat r = Returned t -> Eval t = (v, Some err) ->
  grammarOps t /\ rootCause err = DivisionByZero /\ v = F64.zero.
Proof.
  intros H He. apply Parse_reads, Reads_grammarOps in H.
  split; [exact H|]. exact (Eval_grammarOps _ _ _ H He).
Qed.

Lemma evaluation_of_a_parsed_tree_fails_only_by_division_witness :
  let r := [TRune 45; tLParen; TInt "1"; TRune 43; TInt "2"; TRune 47; TInt "0"; tRParen] in
  let t := unary opSub (binary opAdd (lit 1) (binary opDiv (lit 2) (lit 0))) in
  let err := UnaryOperandFailed "1.00 + 2.00 / 0.00"
               (BinaryYFailed "2.00 / 0.00" DivisionByZero) in
  (Parse strconv.ParseFloat r = Returned t /\ Eval t = (F64.zero, Some err)) /\
  grammarOps t /\ rootCause err = DivisionByZero /\ F64.zero = F64.zero.
Proof.
  intros r t err.
  assert (H : Parse strconv.ParseFloat r = Returned t) by (vm_compute; reflexivity).
  assert (He : Eval t = (F64.zero, Some err)) by (vm_compute; reflexivity).
  split; [split; [exact H|exact He]|].
  exact (evaluation_of_a_parsed_tree_fails_only_by_division strconv.ParseFloat r t _ err H He).
Defined.

(** X11 (precedence and associativity, in general).  The tree [Parse]
    returns for an input without parentheses is a chain of [+] and [-]
    that grows to the left; the right operand of each is a chain of [*]
    and [/] that grows to the left; and the right operand of each of
    these is a number under its signs.  So [*] and [/] bind tighter than
    [+] and [-], the four operators associate to the left, and a sign
    binds tighter than any of them. *)
Theorem without_parentheses_chains_grow_to_the_left ParseFloat r t :
  Parse ParseFloat r = Returned t -> ~ In tLParen r -> sumChain t.
Proof.
  intros H Hn. apply Parse_inv in H.
  exact (proj2 (proj2 (proj2 (proj2 (proj2 (descent_shape ParseFloat _))))) _ _ _ Hn H).
Qed.

Lemma without_parentheses_chains_grow_to_the_left_witness :
  let r := [TInt "1"; TRune 43; TInt "2"; TRune 42; TInt "3"; TRune 45; TInt "4"; TRune 47;
            TRune 45; TInt "5"; TRune 42; TInt "6"] in
  let t := binary opSub (binary opAdd (lit 1) (binary opMul (lit 2) (lit 3)))
             (binary opMul (binary opDiv (lit 4) (unary opSub (lit 5))) (lit 6)) in
  (Parse strconv.ParseFloat r = Returned t /\ ~ In tLParen r) /\ sumChain t.
Proof.
  intros r t.
  assert (H : Parse strconv.ParseFloat r = Returned t) by (vm_compute; reflexivity).
  assert (Hn : ~ In tLParen r).
  { intros HI. cbn in HI. repeat (destruct HI as [HI|HI]; [discriminate HI|]). exact HI. }
  split; [split; [exact H|exact Hn]|].
  exact (without_parentheses_chains_grow_to_the_left strconv.ParseFloat r t H Hn).
Defined.

(** X12 (signs).  Whenever [Parse] returns for an input made of signs
    followed by a number that [ParseFloat] reads, the tree is the number
    under one [unary] node per sign, the first sign outermost; and
    whenever [Eval] of that tree returns, it returns no error and the
    number when the count of [-] is even, its negation when the count
    is odd. *)
Theorem signs_before_a_number ParseFloat cs tk f t :
  Forall (fun c => c = N_of_ascii "+" \/ c = N_of_ascii "-") cs ->
  isNumber tk = true -> ParseFloat (tok_text tk) = (f, None) ->
  Parse ParseFloat (map TRune cs ++ [tk]) = Returned t ->
  t = signChain cs (num f) /\
  (forall v e, Eval t = (v, e) ->
     e = None /\ v = if Nat.even (minuses cs) then f else F64.neg f).
Proof.
  intros Hs Ht Hf HP.
  assert (Hs' : Forall (fun c => priority (Z.of_N c) = 1) cs).
  { revert Hs. apply Forall_impl. intros c [-> | ->]; reflexivity. }
  rewrite (Parse_signs ParseFloat cs tk f Hs' Ht Hf) in HP. injection HP as <-.
  split; [reflexivity|].
  intros v e He. rewrite (Eval_signs cs f Hs') in He. injection He as <- <-. now split.
Qed.

Lemma signs_before_a_number_witness :
  let cs := [N_of_ascii "-"; N_of_ascii "-"; N_of_ascii "+"; N_of_ascii "-"] in
  let t := unary opSub (unary opSub (unary opAdd (unary opSub (lit 3)))) in
  (Forall (fun c => c = N_of_ascii "+" \/ c = N_of_ascii "-") cs /\
   isNumber (TInt "3") = true /\
   strconv.ParseFloat (tok_text (TInt "3")) = (F64.of_Z 3, None) /\
   Parse strconv.ParseFloat (map TRune cs ++ [TInt "3"]) = Returned t) /\
  t = signChain cs (lit 3) /\
  (forall v e, Eval t = (v, e) ->
     e = None /\ v = if Nat.even (minuses cs) then F64.of_Z 3 else F64.neg (F64.of_Z 3)).
Proof.
  intros cs t.
  assert (Hs : Forall (fun c => c = N_of_ascii "+" \/ c = N_of_ascii "-") cs).
  { repeat (constructor; [first [left; reflexivity|right; reflexivity]|]). constructor. }
  assert (Hf : strconv.ParseFloat (tok_text (TInt "3")) = (F64.of_Z 3, None))
    by (vm_compute; reflexivity).
  assert (HP : Parse strconv.ParseFloat (map TRune cs ++ [TInt "3"]) = Returned t)
    by (vm_compute; reflexivity).
  split; [split; [exact Hs|split; [reflexivity|split; [exact Hf|exact HP]]]|].
  exact (signs_before_a_number strconv.ParseFloat cs (TInt "3") (F64.of_Z 3) t
           Hs eq_refl Hf HP).
Defined.

(** X13 (a run with -eval).  With the flag [eval], [main] never ends in
    "Failed evaluation": the expression [EvalParse] returns is a literal,
    whose [Eval] cannot fail, so a division by zero in the input goes
    unreported.  What such a run prints is the literal and its value,
    always with the expression, since the [Len] of a literal is 1. *)
Theorem eval_mode_never_fails_evaluation ParseFloat r :
  (forall err, main ParseFloat true r <> FatalEval err) /\
  (forall p, main ParseFloat true r = Output p -> exists v, p = WithExpr (num v) v).
Proof.
  unfold main, parseInput.
  destruct (EvalParse ParseFloat r) as [e|err0| |] eqn:E.
  - destruct (Parse_of_EvalParse _ _ _ E) as (t & _ & ->).
    cbn [Eval]. split; [discriminate|].
    intros p H. injection H as <-. now exists (eagerValue t).
  - split; discriminate.
  - split; discriminate.
  - split; discriminate.
Qed.

Lemma eval_mode_never_fails_evaluation_witness :
  let r := [TInt "1"; TRune 47; TInt "0"] in
  main strconv.ParseFloat false r = FatalEval DivisionByZero /\
  main strconv.ParseFloat true r = Output (WithExpr (lit 0) (F64.of_Z 0)) /\
  (forall err, main strconv.ParseFloat true r <> FatalEval err) /\
  (forall p, main strconv.ParseFloat true r = Output p -> exists v, p = WithExpr (num v) v).
Proof.
  intros r. split; [vm_compute; reflexivity|]. split; [vm_compute; reflexivity|].
  exact (eval_mode_never_fails_evaluation strconv.ParseFloat r).
Defined.

(** X14 (the two ways to run).  Whenever a run without the flag [eval]
    prints a result, the run with the flag on the same input prints the
    same number, beside the literal of that number as its expression. *)
Theorem both_runs_print_the_same_number ParseFloat r p :
  main ParseFloat false r = Output p ->
  main ParseFloat true r = Output (WithExpr (num (shown p)) (shown p)).
Proof.
  unfold main, parseInput. intros H.
  destruct (Parse ParseFloat r) as [t|err0| |] eqn:E; try discriminate.
  destruct (Eval t) as [v [err|]] eqn:Ev; try discriminate.
  injection H as <-.
  rewrite (EvalParse_of_Parse _ _ _ E), (eagerValue_Eval _ _ Ev). cbn [Eval].
  unfold printResult. cbn [Len]. change (1 <=? 1000) with true. cbv iota.
  destruct (Len t <=? 1000); reflexivity.
Qed.

Lemma both_runs_print_the_same_number_witness :
  let r := [tLParen; TInt "1"; TRune 43; TInt "2"; tRParen; TRune 42; TInt "3"] in
  let p := WithExpr (binary opMul (binary opAdd (lit 1) (lit 2)) (lit 3)) (F64.of_Z 9) in
  main strconv.ParseFloat false r = Output p /\
  main strconv.ParseFloat true r = Output (WithExpr (num (shown p)) (shown p)).
Proof.
  intros r p.
  assert (H : main strconv.ParseFloat false r = Output p) by (vm_compute; reflexivity).
  split; [exact H|].
  exact (both_runs_print_the_same_number strconv.ParseFloat r p H).
Defined.

(** X15 (when the expression is printed).  For a tree [Parse] returned,
    [printResult] prints the expression beside the result exactly when
    the input has at most 1000 numbers and operators together (signs
    included, parentheses not), for inputs of fewer than 2^63 of them. *)
Theorem expression_is_printed_up_to_1000_nodes ParseFloat r t v :
  Parse ParseFloat r = Returned t ->
  countIf isNumber r + countIf isOperator r < 2 ^ 63 ->
  printResult t v
  = if countIf isNumber r + countIf isOperator r <=? 1000 then WithExpr t v else ValueOnly v.
Proof.
  intros H Hb. apply Parse_reads, Reads_nodes in H.
  unfold printResult. rewrite Len_nodes, H, wrap_int_small; [reflexivity|].
  unfold countIf in *. lia.
Qed.

Lemma expression_is_printed_up_to_1000_nodes_witness :
  let r := [TInt "1"; TRune 43; TInt "2"] in
  let t := binary opAdd (lit 1) (lit 2) in
  (Parse strconv.ParseFloat r = Returned t /\
   countIf isNumber r + countIf isOperator r < 2 ^ 63) /\
  printResult t (F64.of_Z 3)
  = if countIf isNumber r + countIf isOperator r <=? 1000
    then WithExpr t (F64.of_Z 3) else ValueOnly (F64.of_Z 3).
Proof.
  intros r t.
  assert (H : Parse strconv.ParseFloat r = Returned t) by (vm_compute; reflexivity).
  assert (Hb : countIf isNumber r + countIf isOperator r < 2 ^ 63) by (vm_compute; reflexivity).
  split; [split; [exact H|exact Hb]|].
  exact (expression_is_printed_up_to_1000_nodes strconv.ParseFloat r t (F64.of_Z 3) H Hb).
Defined.

(** X16 (what [String] prints).  For a tree [Parse] returned for a
    scanned text, the text [String] prints scans into one token for
    each node of the tree, from left to right: the two-decimal rendering
    for a literal, the operator for a [unary] or [binary] node, and no
    parenthesis at all. *)
Theorem String_prints_one_token_for_each_node s r t :
  textscanner.tokens s = Some r ->
  Parse strconv.ParseFloat r = Returned t ->
  textscanner.tokens (Expr_String t) = Some (toks t) /\
  Z.of_nat (List.length (toks t)) = nodes t /\
  Forall (fun tk => isLParen tk = false /\ isRParen tk = false) (toks t).
Proof.
  intros Hs HP.
  pose proof (Parse_reads _ _ _ HP) as R.
  pose proof (Reads_printable _ _ R (tokens_unsigned _ _ Hs)) as Hp.
  split; [|split].
  - now apply tokens_String.
  - apply toks_length.
  - now apply toks_no_paren.
Qed.

Lemma String_prints_one_token_for_each_node_witness :
  let s := "-(1 + 2.5) * 3"%string in
  let r := [TRune 45; tLParen; TInt "1"; TRune 43; TFloat "2.5"; tRParen; TRune 42; TInt "3"] in
  let t := binary opMul (unary opSub (binary opAdd (lit 1) (num (F64.div (F64.of_Z 5) (F64.of_Z 2)))))
                        (lit 3) in
  (textscanner.tokens s = Some r /\ Parse strconv.ParseFloat r = Returned t) /\
  Expr_String t = "-1.00 + 2.50 * 3.00"%string /\
  textscanner.tokens (Expr_String t) = Some (toks t) /\
  Z.of_nat (List.length (toks t)) = nodes t /\
  Forall (fun tk => isLParen tk = false /\ isRParen tk = false) (toks t).
Proof.
  intros s r t.
  assert (Hs : textscanner.tokens s = Some r) by (vm_compute; reflexivity).
  assert (H : Parse strconv.ParseFloat r = Returned t) by (vm_compute; reflexivity).
  split; [split; [exact Hs|exact H]|]. split; [vm_compute; reflexivity|].
  exact (String_prints_one_token_for_each_node s r t Hs H).
Defined.
